(** * sphinx_a4doc.model.impl: the grammar model builder

    A shallow embedding of [sphinx_a4doc/model/impl.py] and the
    properties of its rule-content combinators, its documentation
    extractor and its model cache.

    Python [str] values are embedded as [string]; every [ascii] stands
    for the code point of the same number, so the texts covered are those
    whose code points lie below 256.  Python objects that are compared by
    identity or mutated after construction (models, rules) live in an
    object store and are referred to by their address. *)

From Stdlib Require Import ZArith Ascii String List Bool Lia.
From stdpp Require Import base option list gmap strings.

Import ListNotations.
Local Open Scope bool_scope.

(** ** Python string primitives used by the module *)

Module Py.

Definition chars (s : string) : list ascii := list_ascii_of_string s.
Definition str (l : list ascii) : string := string_of_list_ascii l.

Definition code (c : ascii) : nat := nat_of_ascii c.

(** [str.isspace] on one character, restricted to code points < 256:
    TAB..CR, FS..US, SPACE, NEL and NBSP. *)
Definition isspace (c : ascii) : bool :=
  let n := code c in
  ((9 <=? n) && (n <=? 13)) || ((28 <=? n) && (n <=? 32))
  || (n =? 133) || (n =? 160).

Definition isdigit (c : ascii) : bool :=
  let n := code c in (48 <=? n) && (n <=? 57).

Definition ascii_eqb (a b : ascii) : bool := Ascii.eqb a b.

Fixpoint dropwhile {A} (p : A -> bool) (l : list A) : list A :=
  match l with
  | [] => []
  | x :: l' => if p x then dropwhile p l' else l
  end.

Fixpoint takewhile {A} (p : A -> bool) (l : list A) : list A :=
  match l with
  | [] => []
  | x :: l' => if p x then x :: takewhile p l' else []
  end.

Definition lstrip_chars (l : list ascii) : list ascii := dropwhile isspace l.
Definition rstrip_chars (l : list ascii) : list ascii :=
  rev (dropwhile isspace (rev l)).

Definition lstrip (s : string) : string := str (lstrip_chars (chars s)).
Definition rstrip (s : string) : string := str (rstrip_chars (chars s)).
Definition strip (s : string) : string :=
  str (rstrip_chars (lstrip_chars (chars s))).

Fixpoint startswith_chars (p l : list ascii) : bool :=
  match p, l with
  | [], _ => true
  | _ :: _, [] => false
  | a :: p', b :: l' => ascii_eqb a b && startswith_chars p' l'
  end.

Definition startswith (s p : string) : bool :=
  startswith_chars (chars p) (chars s).

(** Slices [s[n:]], [s[:-n]] and [s[a:-b]]; out-of-range bounds are
    clipped as Python does. *)
Definition slice_from (n : nat) (s : string) : string :=
  str (skipn n (chars s)).
Definition slice_to_neg (n : nat) (s : string) : string :=
  let l := chars s in str (firstn (List.length l - n) l).
Definition slice_from_to_neg (a b : nat) (s : string) : string :=
  let l := chars s in str (skipn a (firstn (List.length l - b) l)).

(** Line boundaries of [str.splitlines] among the code points < 256. *)
Definition is_linebreak (c : ascii) : bool :=
  let n := code c in
  ((10 <=? n) && (n <=? 13)) || ((28 <=? n) && (n <=? 30)) || (n =? 133).

(** [splitlines_chars cur l]: [cur] is the current line, reversed. *)
Fixpoint splitlines_chars (cur : list ascii) (l : list ascii)
  : list (list ascii) :=
  match l with
  | [] => match cur with [] => [] | _ => [rev cur] end
  | c :: l' =>
      if is_linebreak c then
        match l' with
        | c' :: l'' =>
            if (code c =? 13) && (code c' =? 10)
            then rev cur :: splitlines_chars [] l''
            else rev cur :: splitlines_chars [] l'
        | [] => [rev cur]
        end
      else splitlines_chars (c :: cur) l'
  end.

Definition splitlines (s : string) : list string :=
  map str (splitlines_chars [] (chars s)).

Fixpoint join (sep : string) (l : list string) : string :=
  match l with
  | [] => ""
  | [x] => x
  | x :: l' => x +:+ sep +:+ join sep l'
  end.

Definition isempty (s : string) : bool :=
  match s with EmptyString => true | _ => false end.

(** [int(s)] in base ten on an already stripped text: an optional
    sign, then decimal digits, single underscores allowed between
    digits.  [None] stands for [ValueError]. *)
Fixpoint int_digits (acc : Z) (prev_digit : bool) (l : list ascii)
  : option Z :=
  match l with
  | [] => if prev_digit then Some acc else None
  | c :: l' =>
      if isdigit c then
        int_digits (10 * acc + Z.of_nat (code c - 48)) true l'
      else if (code c =? 95) && prev_digit then
        int_digits acc false l'
      else None
  end.

Definition int (s : string) : option Z :=
  match chars (strip s) with
  | c :: l =>
      if code c =? 45 then Z.opp <$> int_digits 0 false l
      else if code c =? 43 then int_digits 0 false l
      else int_digits 0 false (c :: l)
  | [] => None
  end.

End Py.

(** ** Data model *)

(** Address of an object in the store. *)
Definition loc := nat.

(** Modelled from the spec: [Position] of [sphinx_a4doc.model.model]. *)
Record Position := { file : string; line : Z }.

(** Modelled from the spec: the rule content tree of
    [sphinx_a4doc.model.model] (the nested classes of [RuleBase]), which
    the loaders construct through [self.rule_class]; one constructor per
    class.  The variant Empty has no class of its own: the constant
    [EMPTY] of the rule classes is the [Sequence] without children,
    which is why [make_seq_rule] can build it and why the loaders test
    for it with [==].  A [Reference] holds the address of its owning
    model. *)
#[warnings="-register-all"] Inductive RuleContent :=
| Wildcard
| Literal (content : string)
| CharSet (content : string)
| Range (start end_ : string)
| Reference (model : loc) (name : string)
| Negation (child : RuleContent)
| Sequence (children : list RuleContent)
| Alternative (children : list RuleContent)
| Maybe (child : RuleContent)
| OnePlus (child : RuleContent)
| ZeroPlus (child : RuleContent).

(** [EMPTY] and [WILDCARD] of the rule classes. *)
Definition EMPTY : RuleContent := Sequence [].
Definition WILDCARD : RuleContent := Wildcard.

(** Modelled from the spec: the rule classes of
    [sphinx_a4doc.model.model], with the fields that the data model
    lists for a rule; a call of the class takes one keyword for each
    field, none of which has a default, and no other keyword. *)
Record LexerRule := {
  lr_name : string;
  lr_display_name : option string;
  lr_model : loc;
  lr_position : Position;
  lr_content : RuleContent;
  lr_is_doxygen_nodoc : bool;
  lr_is_doxygen_inline : bool;
  lr_importance : Z;
  lr_css_class : string;
  lr_documentation : string;
  lr_is_fragment : bool;
  lr_is_literal : bool
}.

(** Modelled from the spec: [ParserRule] of [sphinx_a4doc.model.model],
    with the fields of a rule. *)
Record ParserRule := {
  pr_name : string;
  pr_display_name : option string;
  pr_model : loc;
  pr_position : Position;
  pr_content : RuleContent;
  pr_is_doxygen_nodoc : bool;
  pr_is_doxygen_inline : bool;
  pr_importance : Z;
  pr_css_class : string;
  pr_documentation : string
}.

(** Modelled from the spec: [RuleBase], a lexer rule or a parser
    rule. *)
Inductive RuleBase :=
| ALexerRule (r : LexerRule)
| AParserRule (r : ParserRule).

(** [ModelImpl]: the attributes set by [__init__].  The two dictionaries
    and the import set hold addresses of rules and of models. *)
Record ModelImpl := {
  _path : string;
  _in_memory : bool;
  _offset : Z;
  _lexer_rules : gmap string loc;
  _parser_rules : gmap string loc;
  _imports : gset loc
}.

(** What the module hands to [logger.error] and [logger.warning]. *)
Inductive Level := ERROR | WARNING.

Inductive Message :=
| MsgSyntaxError (path : string) (line : Z) (msg : string)
| MsgFileNotFound (path : string)
| MsgImportsNotAllowed
| MsgInvalidCommand (position : Position) (text : string)
| MsgImportanceNotInteger (position : Position)
| MsgImportanceNegative (position : Position)
| MsgNameRequiresArgument (position : Position)
| MsgUnknownCommand (position : Position) (cmd : string)
| MsgArgumentIgnored (cmd : string).

Definition LogRecord : Type := Level * Message.

(** [r == EMPTY]: two contents are equal when they are of one class
    with equal fields. *)
Definition is_Empty (r : RuleContent) : bool :=
  match r with Sequence [] => true | _ => false end.
Definition is_Maybe (r : RuleContent) : bool :=
  match r with Maybe _ => true | _ => false end.
Definition is_Sequence (r : RuleContent) : bool :=
  match r with Sequence _ => true | _ => false end.
Definition is_Alternative (r : RuleContent) : bool :=
  match r with Alternative _ => true | _ => false end.
Definition is_Literal (r : RuleContent) : bool :=
  match r with Literal _ => true | _ => false end.

(** ** RuleLoader: the combinators *)

Module RuleLoader.

(** [self.visit] on a context gives the content built from it or
    raises: a visit is a function into [option], [None] standing for
    the [AttributeError] of a visit of [None] in place of a context,
    the one exception that the methods of the rule loaders can raise.
    [[self.visit(x) for x in content]] visits the contexts in their
    order and raises where the first of them does. *)
Definition visit_all {T} (visit : T -> option RuleContent)
  : list T -> option (list RuleContent) :=
  fix go (content : list T) : option (list RuleContent) :=
    match content with
    | [] => Some []
    | x :: rest =>
        match visit x with
        | Some r =>
            match go rest with
            | Some rs => Some (r :: rs)
            | None => None
            end
        | None => None
        end
    end.

(** [suffix] is [None] or the text of the suffix context. *)
Definition wrap_suffix (element : RuleContent) (suffix : option string)
  : RuleContent :=
  if is_Empty element then element
  else match suffix with
       | None => element
       | Some suffix =>
           if Py.startswith suffix "?" then
             if is_Maybe element then element else Maybe element
           else if Py.startswith suffix "+" then OnePlus element
           else if Py.startswith suffix "*" then ZeroPlus element
           else element
       end.

(** The [for] loop of [make_alt_rule] over the visited alternatives. *)
Fixpoint alt_loop (visited : list RuleContent) (has_empty_alt : bool)
         (alts : list RuleContent) : bool * list RuleContent :=
  match visited with
  | [] => (has_empty_alt, alts)
  | alt :: rest =>
      let '(has_empty_alt, alt) :=
        match alt with
        | Maybe child => (true, child)
        | _ => (has_empty_alt, alt)
        end in
      if is_Empty alt then alt_loop rest true alts
      else match alt with
           | Alternative children =>
               alt_loop rest has_empty_alt (alts ++ children)
           | _ => alt_loop rest has_empty_alt (alts ++ [alt])
           end
  end.

(** [make_alt_rule] from the loop on. *)
Definition alt_rule (visited : list RuleContent) : RuleContent :=
  let '(has_empty_alt, alts) := alt_loop visited false [] in
  match alts with
  | [] => EMPTY
  | [alt0] => if has_empty_alt then Maybe alt0 else alt0
  | _ =>
      let rule := Alternative alts in
      if has_empty_alt then Maybe rule else rule
  end.

Definition make_alt_rule {T} (visit : T -> option RuleContent)
           (content : list T) : option RuleContent :=
  match visit_all visit content with
  | Some visited => Some (alt_rule visited)
  | None => None
  end.

(** The [for] loop of [make_seq_rule]. *)
Fixpoint seq_loop (visited : list RuleContent) (elements : list RuleContent)
  : list RuleContent :=
  match visited with
  | [] => elements
  | element :: rest =>
      match element with
      | Sequence children => seq_loop rest (elements ++ children)
      | _ => seq_loop rest (elements ++ [element])
      end
  end.

(** [make_seq_rule] from the loop on. *)
Definition seq_rule (visited : list RuleContent) : RuleContent :=
  let elements := seq_loop visited [] in
  match elements with
  | [element0] => element0
  | _ => Sequence elements
  end.

Definition make_seq_rule {T} (visit : T -> option RuleContent)
           (content : list T) : option RuleContent :=
  match visit_all visit content with
  | Some visited => Some (seq_rule visited)
  | None => None
  end.

End RuleLoader.

(** ** Regular expressions of the shape the module uses

    A backtracking matcher for the fragment of [re] that [CMD_RE] is
    written in: literal text, greedy repetition of a character class,
    named groups and concatenation.  [re.VERBOSE] only removes the
    layout of the pattern text; [re.UNICODE] makes [\s] the class
    [Py.isspace]. *)

Module Re.

Inductive pattern :=
| Lit (s : string)
| Star (cls : ascii -> bool)
| Plus (cls : ascii -> bool)
| Group (name : string) (p : pattern)
| Seq (p q : pattern).

Fixpoint cat (ps : list pattern) : pattern :=
  match ps with
  | [] => Lit ""
  | [p] => p
  | p :: ps' => Seq p (cat ps')
  end.

Definition groups := gmap string string.

(** Longest repetition first, one character given back at a time. *)
Fixpoint greedy {R} (cls : ascii -> bool) (s : list ascii)
         (k : list ascii -> option R) : option R :=
  match s with
  | c :: s' =>
      if cls c then
        match greedy cls s' k with
        | Some r => Some r
        | None => k s
        end
      else k s
  | [] => k []
  end.

Definition consumed (s rest : list ascii) : string :=
  Py.str (firstn (length s - length rest) s).

Fixpoint run (p : pattern) (s : list ascii) (g : groups)
         (k : list ascii -> groups -> option groups) : option groups :=
  match p with
  | Lit t =>
      if Py.startswith_chars (Py.chars t) s
      then k (skipn (length (Py.chars t)) s) g
      else None
  | Star cls => greedy cls s (fun rest => k rest g)
  | Plus cls =>
      match s with
      | c :: s' =>
          if cls c then greedy cls s' (fun rest => k rest g) else None
      | [] => None
      end
  | Group name p =>
      run p s g (fun rest g' => k rest (<[name := consumed s rest]> g'))
  | Seq p q => run p s g (fun rest g' => run q rest g' k)
  end.

(** [pattern.match(text)]: anchored at the start only. *)
Definition match_ (p : pattern) (text : string) : option groups :=
  run p (Py.chars text) ∅ (fun _ g => Some g).

(** [m[name]] for a group that took part in the match. *)
Definition group (m : groups) (name : string) : string :=
  default ""%string (m !! name).

(** [\s], [[a-zA-Z0-9_-]] and [.] *)
Definition space (c : ascii) : bool := Py.isspace c.
Definition word_or_dash (c : ascii) : bool :=
  let n := Py.code c in
  ((97 <=? n) && (n <=? 122)) || ((65 <=? n) && (n <=? 90))
  || ((48 <=? n) && (n <=? 57)) || (n =? 95) || (n =? 45).
Definition dot (c : ascii) : bool := negb (Py.code c =? 10).

End Re.

(** The pattern of a directive: the marker, [doc], a colon, the group
    [cmd] of letters, digits, underscores and dashes, and the group
    [ctx] of the rest of the line, with optional white space between
    them. *)
Definition CMD_RE : Re.pattern :=
  Re.cat [Re.Lit "//@"; Re.Star Re.space; Re.Lit "doc"; Re.Star Re.space;
          Re.Lit ":"; Re.Star Re.space;
          Re.Group "cmd" (Re.Plus Re.word_or_dash); Re.Star Re.space;
          Re.Group "ctx" (Re.Star Re.dot)].

(** ** The parse tree

    The parse tree comes from [sphinx_a4doc.syntax], the external
    grammar parser.  A context class has a constructor (or a record)
    where a loader has a [visit] method for it, with the fields that the
    method reads.  Contexts that no loader names are visited by the
    default [visitChildren], which hands on the result of the child;
    they do not appear. *)

(** Modelled from the spec: a token of the external lexer, of which the
    module reads the [text] and the [line]. *)
Record Token := { text : string; tok_line : Z }.

(** Modelled from the spec: the contexts of the body of a lexer rule in
    the parse tree of [sphinx_a4doc.syntax], one constructor for each
    [visit] method of [LexerRuleLoader].  [lexerElements()] of a lexer
    alternative is [None] for the alternative without elements. *)
#[warnings="-register-all"] Inductive LexerCtx :=
| LexerAltList (alts : list LexerCtx)
| LexerAlt (lexerElements : option LexerCtx)
| LexerElements (elements : list LexerCtx)
| LexerElementLabeled (value : LexerCtx) (suffix : option string)
| LexerElementAtom (value : LexerCtx) (suffix : option string)
| LexerElementBlock (value : LexerCtx) (suffix : option string)
| LexerElementAction
| LabeledLexerElement (atom_or_block : LexerCtx)
| LexerBlock (lexerAltList : LexerCtx)
| LCharacterRange (start end_ : string)
| LTerminalRef (value : string)
| LTerminalLit (value : string)
| LexerAtomCharSet (value : string)
| LexerAtomWildcard
| LNotElement (value : LexerCtx)
| LNotBlock (value : LexerCtx)
| LBlockSet (elements : list LexerCtx)
| LSetElementRef (value : string)
| LSetElementLit (value : string)
| LSetElementCharSet (value : string).

(** Modelled from the spec: the contexts of the body of a parser rule
    in the parse tree of [sphinx_a4doc.syntax], one constructor for
    each [visit] method of [ParserRuleLoader]. *)
#[warnings="-register-all"] Inductive ParserCtx :=
| RuleAltList (alts : list ParserCtx)
| AltList (alts : list ParserCtx)
| LabeledAlt (alternative : ParserCtx)
| AlternativeCtx (elements : list ParserCtx)
| ParserElementLabeled (value : ParserCtx) (suffix : option string)
| ParserElementAtom (value : ParserCtx) (suffix : option string)
| ParserElementBlock (value : ParserCtx) (suffix : option string)
| ParserElementAction
| LabeledElement (atom_or_block : ParserCtx)
| Block (altList : ParserCtx)
| AtomWildcard
| PTerminalRef (value : string)
| PTerminalLit (value : string)
| Ruleref (value : string)
| PNotElement (value : ParserCtx)
| PNotBlock (value : ParserCtx)
| PBlockSet (elements : list ParserCtx)
| PSetElementRef (value : string)
| PSetElementLit (value : string)
| PSetElementCharSet (value : string)
| PCharacterRange (start end_ : string).

(** Modelled from the spec: the context of a lexer rule with the fields
    that [visitLexerRuleSpec] reads: [docs], [frag], [name.text],
    [start.line] and [lexerRuleBlock()]. *)
Record LexerRuleSpecContext := {
  lexer_docs : list Token;
  lexer_frag : bool;
  lexer_name : string;
  lexer_start_line : Z;
  lexerRuleBlock : LexerCtx
}.

(** Modelled from the spec: the context of a parser rule with the
    fields that [visitParserRuleSpec] reads. *)
Record ParserRuleSpecContext := {
  parser_docs : list Token;
  parser_name : string;
  parser_start_line : Z;
  ruleBlock : ParserCtx
}.

(** Modelled from the spec: the contexts of the prequel of a grammar,
    options, delegate grammars and token declarations, with the texts
    and lines that [MetaLoader] reads. *)
Record OptionContext := {
  option_name : string;
  option_value : string;
  option_start_line : Z
}.

(** Modelled from the spec: a delegate grammar declaration. *)
Record DelegateGrammarContext := {
  delegate_value : string;
  delegate_start_line : Z
}.

(** Modelled from the spec: an identifier of a [tokens] block. *)
Record IdentifierContext := {
  identifier_text : string;
  identifier_start_line : Z
}.

(** Modelled from the spec: a prequel construct; [MetaLoader] has
    methods for the first three kinds, the others hold nothing that a
    loader visits.  [defs] of a [tokens] block is its list of
    identifiers, a context with the field [defs], or [None] for a block
    without identifiers. *)
Inductive PrequelConstructContext :=
| OptionsSpec (options : list OptionContext)
| DelegateGrammars (grammars : list DelegateGrammarContext)
| TokensSpec (defs : option (list IdentifierContext))
| ChannelsSpecOrAction.

(** Modelled from the spec: a rule of the grammar, of the parser or of
    the lexer. *)
Inductive RuleSpecContext :=
| IsParserRuleSpec (ctx : ParserRuleSpecContext)
| IsLexerRuleSpec (ctx : LexerRuleSpecContext).

(** Modelled from the spec: a lexer mode with its rules. *)
Record ModeSpecContext := { mode_rules : list LexerRuleSpecContext }.

(** Modelled from the spec: the root of the parse tree; its children
    in their order are the prequel constructs, the rules and the
    modes. *)
Record GrammarSpecContext := {
  prequel : list PrequelConstructContext;
  rules : list RuleSpecContext;
  modes : list ModeSpecContext
}.

(** Modelled from the spec: one call of [syntaxError] on a listener of
    the external parser; [from_parser] tells the parser's listener from
    the lexer's. *)
Record SyntaxErrorReport := {
  from_parser : bool;
  error_line : Z;
  error_column : Z;
  error_msg : string
}.

(** Modelled from the spec: what [parser.grammarSpec()] leaves behind,
    the tree and the reports made on the way, in their order. *)
Record ParseResult := {
  tree : GrammarSpecContext;
  reports : list SyntaxErrorReport
}.

Definition getNumberOfSyntaxErrors (r : ParseResult) : nat :=
  length (filter (fun e => from_parser e = true) (reports r)).

(** ** The world outside the module *)

(** The exceptions that the module can let through.  [InvalidAddress]
    is not one of Python's: it stands for a reference to an object that
    the store does not hold, which a Python program cannot make. *)
Inductive Exception :=
| ValueError
| AssertionError
| IndexError
| TypeError
| AttributeError
| OSError
| InvalidAddress.

(** What [os.path.exists] and [open(...).read()] find at a path:
    nothing, a text, or something that cannot be read as text. *)
Inductive FileState :=
| NoFile
| File (content : string)
| Unreadable.

(** The library functions and the file system the module calls into:
    [os.path], the files on disk, the grammar parser and
    [textwrap.dedent]. *)
Record Host := {
  abspath_normpath : string -> string;
  dirname : string -> string;
  join : string -> string -> string;
  disk : string -> FileState;
  grammarSpec : string -> ParseResult;
  dedent : string -> string
}.

(** ** Objects, effects and the monad *)

(** The object store ([models] and [rule_objects], an object being at
    the address of its index), the dictionary [_loaded] of the cache,
    what was logged so far, and the number of parses made. *)
Record State := {
  models : list ModelImpl;
  rule_objects : list RuleBase;
  _loaded : gmap string loc;
  log : list LogRecord;
  parses : nat
}.

(** How a call ends: it returns, it raises, or the fuel of the
    embedding ran out before it could end. *)
Inductive outcome (A : Type) :=
| Return (a : A) (st : State)
| Raise (e : Exception) (st : State)
| OutOfFuel.
Arguments Return {A} a st.
Arguments Raise {A} e st.
Arguments OutOfFuel {A}.

Definition M (A : Type) : Type := State -> outcome A.

Definition ret {A} (a : A) : M A := fun st => Return a st.

Definition bind {A B} (m : M A) (f : A -> M B) : M B :=
  fun st =>
    match m st with
    | Return a st' => f a st'
    | Raise e st' => Raise e st'
    | OutOfFuel => OutOfFuel
    end.

Definition raise {A} (e : Exception) : M A := fun st => Raise e st.

Notation "'let!' x ':=' m 'in' k" := (bind m (fun x => k))
  (at level 10, x name, m at level 100, k at level 200).
Notation "m >> k" := (bind m (fun _ => k))
  (at level 100, k at level 200, right associativity).

Fixpoint for_each {A} (l : list A) (body : A -> M unit) : M unit :=
  match l with
  | [] => ret tt
  | x :: l' => body x >> for_each l' body
  end.

Definition logger_error (msg : Message) : M unit :=
  fun st =>
    Return tt {| models := models st; rule_objects := rule_objects st;
                 _loaded := _loaded st; log := log st ++ [(ERROR, msg)];
                 parses := parses st |}.

Definition logger_warning (msg : Message) : M unit :=
  fun st =>
    Return tt {| models := models st; rule_objects := rule_objects st;
                 _loaded := _loaded st; log := log st ++ [(WARNING, msg)];
                 parses := parses st |}.

(** Reading and replacing the object at an address. *)
Definition get_model (m : loc) : M ModelImpl :=
  fun st =>
    match models st !! m with
    | Some o => Return o st
    | None => Raise InvalidAddress st
    end.

Definition put_model (m : loc) (o : ModelImpl) : M unit :=
  fun st =>
    Return tt {| models := <[m := o]> (models st);
                 rule_objects := rule_objects st; _loaded := _loaded st;
                 log := log st; parses := parses st |}.

Definition new_model (o : ModelImpl) : M loc :=
  fun st =>
    Return (length (models st))
           {| models := models st ++ [o]; rule_objects := rule_objects st;
              _loaded := _loaded st; log := log st; parses := parses st |}.

Definition new_rule (r : RuleBase) : M loc :=
  fun st =>
    Return (length (rule_objects st))
           {| models := models st; rule_objects := rule_objects st ++ [r];
              _loaded := _loaded st; log := log st; parses := parses st |}.

(** ** ModelImpl *)

Module ModelImpl.

Definition __init__ (path : string) (offset : Z) (in_memory : bool)
  : ModelImpl :=
  {| _path := path; _in_memory := in_memory; _offset := offset;
     _lexer_rules := ∅; _parser_rules := ∅; _imports := ∅ |}.

Definition is_in_memory (self : ModelImpl) : bool := _in_memory self.
Definition get_path (self : ModelImpl) : string := _path self.
Definition get_offset (self : ModelImpl) : Z := _offset self.

Definition add_import (self : loc) (model : loc) : M unit :=
  let! this := get_model self in
  if is_in_memory this then raise AssertionError else
  let! other := get_model model in
  if is_in_memory other then raise AssertionError else
  put_model self
    {| _path := _path this; _in_memory := _in_memory this;
       _offset := _offset this; _lexer_rules := _lexer_rules this;
       _parser_rules := _parser_rules this;
       _imports := _imports this ∪ {[ model ]} |}.

Definition set_lexer_rule (self : loc) (name : string) (rule : loc)
  : M unit :=
  let! this := get_model self in
  put_model self
    {| _path := _path this; _in_memory := _in_memory this;
       _offset := _offset this;
       _lexer_rules := <[name := rule]> (_lexer_rules this);
       _parser_rules := _parser_rules this; _imports := _imports this |}.

Definition set_parser_rule (self : loc) (name : string) (rule : loc)
  : M unit :=
  let! this := get_model self in
  put_model self
    {| _path := _path this; _in_memory := _in_memory this;
       _offset := _offset this; _lexer_rules := _lexer_rules this;
       _parser_rules := <[name := rule]> (_parser_rules this);
       _imports := _imports this |}.

(** [None] is Python's [None]; otherwise the address of the rule. *)
Definition lookup_local (self : ModelImpl) (name : string) : option loc :=
  match _lexer_rules self !! name with
  | Some rule => Some rule
  | None =>
      match _parser_rules self !! name with
      | Some rule => Some rule
      | None => None
      end
  end.

Definition get_imports (self : ModelImpl) : gset loc := _imports self.

End ModelImpl.

(** ** RuleLoader.load_docs *)

(** The local variables of [load_docs], which are also the entries of
    the dictionary it returns ([documentation] being the lines joined). *)
Record DocVars := {
  is_doxygen_nodoc : bool;
  is_doxygen_inline : bool;
  css_class : string;
  importance : Z;
  name : option string;
  documentation_lines : list string
}.

Record DocInfo := {
  doc_css_class : string;
  doc_importance : Z;
  doc_is_doxygen_inline : bool;
  doc_is_doxygen_nodoc : bool;
  doc_name : option string;
  doc_documentation : string
}.

Module Docs.

Definition set_nodoc (v : DocVars) : DocVars :=
  {| is_doxygen_nodoc := true; is_doxygen_inline := is_doxygen_inline v;
     css_class := css_class v; importance := importance v;
     name := name v; documentation_lines := documentation_lines v |}.
Definition set_inline (v : DocVars) : DocVars :=
  {| is_doxygen_nodoc := is_doxygen_nodoc v; is_doxygen_inline := true;
     css_class := css_class v; importance := importance v;
     name := name v; documentation_lines := documentation_lines v |}.
Definition set_css_class (c : string) (v : DocVars) : DocVars :=
  {| is_doxygen_nodoc := is_doxygen_nodoc v;
     is_doxygen_inline := is_doxygen_inline v;
     css_class := c; importance := importance v;
     name := name v; documentation_lines := documentation_lines v |}.
Definition set_importance (i : Z) (v : DocVars) : DocVars :=
  {| is_doxygen_nodoc := is_doxygen_nodoc v;
     is_doxygen_inline := is_doxygen_inline v;
     css_class := css_class v; importance := i;
     name := name v; documentation_lines := documentation_lines v |}.
Definition set_name (n : string) (v : DocVars) : DocVars :=
  {| is_doxygen_nodoc := is_doxygen_nodoc v;
     is_doxygen_inline := is_doxygen_inline v;
     css_class := css_class v; importance := importance v;
     name := Some n; documentation_lines := documentation_lines v |}.
Definition append_line (l : string) (v : DocVars) : DocVars :=
  {| is_doxygen_nodoc := is_doxygen_nodoc v;
     is_doxygen_inline := is_doxygen_inline v;
     css_class := css_class v; importance := importance v;
     name := name v;
     documentation_lines := documentation_lines v ++ [l] |}.

Definition initial : DocVars :=
  {| is_doxygen_nodoc := false; is_doxygen_inline := false;
     css_class := ""; importance := 1; name := None;
     documentation_lines := [] |}.

End Docs.

Section WithHost.

Variable host : Host.

(** The [else] branch of the loop body: a token of documentation text. *)
Definition load_docs_text (text : string) (v : DocVars) : M DocVars :=
  let lines := map Py.strip (Py.splitlines text) in
  match lines with
  | [line0] =>
      ret (Docs.append_line
             (Py.strip (Py.slice_from_to_neg 3 2 line0)) v)
  | [] => raise ValueError
  | first_line :: lines =>
      let first_line := Py.lstrip (Py.slice_from 3 first_line) in
      let v :=
        if Py.isempty first_line then v
        else Docs.append_line first_line v in
      match rev lines with
      | [] => raise IndexError
      | last :: front =>
          let last := Py.rstrip (Py.slice_to_neg 2 last) in
          let lines :=
            if Py.isempty last then rev front else rev (last :: front) in
          let lines :=
            if forallb (fun line => Py.startswith line "*") lines
            then map (Py.slice_from 1) lines else lines in
          let text := dedent host (Py.join (String "010" "") lines) in
          ret (Docs.append_line text v)
      end
  end.

(** Line 315, reached by every command that did not [continue]. *)
Definition argument_check (cmd ctx : string) (v : DocVars) : M DocVars :=
  if negb (existsb (String.eqb cmd) ["name"; "class"; "importance"]%string)
     && negb (Py.isempty ctx)
  then logger_warning (MsgArgumentIgnored cmd) >> ret v
  else ret v.

(** The [if] branch of the loop body: a token that starts with [//@]. *)
Definition load_docs_command (position : Position) (text : string)
           (v : DocVars) : M DocVars :=
  match Re.match_ CMD_RE text with
  | None => logger_error (MsgInvalidCommand position text) >> ret v
  | Some match_ =>
      let cmd := Re.group match_ "cmd" in
      let ctx := Re.group match_ "ctx" in
      if String.eqb cmd "nodoc" then
        argument_check cmd ctx (Docs.set_nodoc v)
      else if String.eqb cmd "inline" then
        argument_check cmd ctx (Docs.set_inline v)
      else if String.eqb cmd "unimportant" then
        argument_check cmd ctx (Docs.set_importance 0 v)
      else if String.eqb cmd "class" then
        argument_check cmd ctx (Docs.set_css_class (Py.strip ctx) v)
      else if String.eqb cmd "importance" then
        match Py.int (Py.strip ctx) with
        | None => logger_error (MsgImportanceNotInteger position) >> ret v
        | Some val =>
            (if (val <? 0)%Z
             then logger_error (MsgImportanceNegative position)
             else ret tt) >>
            argument_check cmd ctx (Docs.set_importance val v)
        end
      else if String.eqb cmd "name" then
        let v := Docs.set_name (Py.strip ctx) v in
        if Py.isempty (Py.strip ctx) then
          logger_error (MsgNameRequiresArgument position) >> ret v
        else argument_check cmd ctx v
      else
        logger_error (MsgUnknownCommand position cmd) >>
        argument_check cmd ctx v
  end.

Definition load_docs_token (model : loc) (token : Token) (v : DocVars)
  : M DocVars :=
  let text := text token in
  let! this := get_model model in
  let position :=
    {| file := ModelImpl.get_path this;
       line := tok_line token + ModelImpl.get_offset this |} in
  if Py.startswith text "//@" then load_docs_command position text v
  else load_docs_text text v.

Fixpoint load_docs_loop (model : loc) (tokens : list Token) (v : DocVars)
  : M DocVars :=
  match tokens with
  | [] => ret v
  | token :: rest =>
      let! v := load_docs_token model token v in
      load_docs_loop model rest v
  end.

Definition load_docs (model : loc) (tokens : list Token) : M DocInfo :=
  let! v := load_docs_loop model tokens Docs.initial in
  ret {| doc_css_class := css_class v;
         doc_importance := importance v;
         doc_is_doxygen_inline := is_doxygen_inline v;
         doc_is_doxygen_nodoc := is_doxygen_nodoc v;
         doc_name := name v;
         doc_documentation :=
           Py.join (String "010" "") (documentation_lines v) |}.

End WithHost.

(** ** LexerRuleLoader *)

Module LexerRuleLoader.

Import RuleLoader.

Section Loader.

Variable host : Host.
(** [self._model] *)
Variable model : loc.

Definition visitTerminalLit (value : string) : RuleContent :=
  let content := value in
  if String.eqb content "''" then EMPTY else Literal value.

Definition visitLexerAtomCharSet (value : string) : RuleContent :=
  let content := value in
  if String.eqb content "[]" then EMPTY else CharSet content.

Definition visitSetElementLit (value : string) : RuleContent :=
  let content := value in
  if String.eqb content "''" then EMPTY else Literal value.

Definition visitSetElementCharSet (value : string) : RuleContent :=
  let content := value in
  if String.eqb content "[]" then EMPTY else CharSet content.

(** [self.visit] on the contexts of a rule body: the dispatch on the
    class of the context, each case being the method of that name.
    [visitLexerAlt] visits [ctx.lexerElements()] as it is, so that
    the alternative without elements raises. *)
Fixpoint visit (ctx : LexerCtx) : option RuleContent :=
  match ctx with
  | LexerAltList alts => make_alt_rule visit alts
  | LexerAlt lexerElements =>
      match lexerElements with
      | Some lexerElements => visit lexerElements
      | None => None
      end
  | LexerElements elements => make_seq_rule visit elements
  | LexerElementLabeled value suffix =>
      element ← visit value; Some (wrap_suffix element suffix)
  | LexerElementAtom value suffix =>
      element ← visit value; Some (wrap_suffix element suffix)
  | LexerElementBlock value suffix =>
      element ← visit value; Some (wrap_suffix element suffix)
  | LexerElementAction => Some EMPTY
  | LabeledLexerElement atom_or_block => visit atom_or_block
  | LexerBlock lexerAltList => visit lexerAltList
  | LCharacterRange start end_ => Some (Range start end_)
  | LTerminalRef value => Some (Reference model value)
  | LTerminalLit value => Some (visitTerminalLit value)
  | LexerAtomCharSet value => Some (visitLexerAtomCharSet value)
  | LexerAtomWildcard => Some WILDCARD
  | LNotElement value => child ← visit value; Some (Negation child)
  | LNotBlock value => child ← visit value; Some (Negation child)
  | LBlockSet elements => make_alt_rule visit elements
  | LSetElementRef value => Some (Reference model value)
  | LSetElementLit value => Some (visitSetElementLit value)
  | LSetElementCharSet value => Some (visitSetElementCharSet value)
  end.

(** [x or None] on a name. *)
Definition or_None (x : option string) : option string :=
  match x with
  | Some s => if Py.isempty s then None else Some s
  | None => None
  end.

(** [self.visit] where the effects of the module are: a visit that
    raises ends the call. *)
Definition visit_or_raise (ctx : LexerCtx) : M RuleContent :=
  match visit ctx with
  | Some content => ret content
  | None => raise AttributeError
  end.

Definition visitLexerRuleSpec (ctx : LexerRuleSpecContext) : M unit :=
  let! content := visit_or_raise (lexerRuleBlock ctx) in
  let! doc_info := load_docs host model (lexer_docs ctx) in
  let '(is_literal, literal) :=
    match content with
    | Literal content => (true, content)
    | _ => (false, ""%string)
    end in
  let! this := get_model model in
  let! rule :=
    new_rule (ALexerRule
      {| lr_name := lexer_name ctx;
         lr_display_name := or_None (doc_name doc_info);
         lr_model := model;
         lr_position :=
           {| file := ModelImpl.get_path this;
              line := lexer_start_line ctx + ModelImpl.get_offset this |};
         lr_content := content;
         lr_is_doxygen_nodoc := doc_is_doxygen_nodoc doc_info;
         lr_is_doxygen_inline := doc_is_doxygen_inline doc_info;
         lr_importance := doc_importance doc_info;
         lr_css_class := doc_css_class doc_info;
         lr_documentation := doc_documentation doc_info;
         lr_is_fragment := lexer_frag ctx;
         lr_is_literal := is_literal |}) in
  ModelImpl.set_lexer_rule model (lexer_name ctx) rule >>
  if is_literal then ModelImpl.set_lexer_rule model literal rule
  else ret tt.

Definition visitRuleSpec (ctx : RuleSpecContext) : M unit :=
  match ctx with
  | IsParserRuleSpec _ => ret tt
  | IsLexerRuleSpec ctx => visitLexerRuleSpec ctx
  end.

Definition visitModeSpec (ctx : ModeSpecContext) : M unit :=
  for_each (mode_rules ctx) visitLexerRuleSpec.

(** [LexerRuleLoader(model).visit(tree)]: the prequel is skipped,
    then the rules and the modes in their order. *)
Definition visitGrammarSpec (tree : GrammarSpecContext) : M unit :=
  for_each (rules tree) visitRuleSpec >>
  for_each (modes tree) visitModeSpec.

End Loader.

End LexerRuleLoader.

(** ** ParserRuleLoader *)

Module ParserRuleLoader.

Import RuleLoader.

Section Loader.

Variable host : Host.
Variable model : loc.

Fixpoint visit (ctx : ParserCtx) : option RuleContent :=
  match ctx with
  | RuleAltList alts => make_alt_rule visit alts
  | AltList alts => make_alt_rule visit alts
  | LabeledAlt alternative => visit alternative
  | AlternativeCtx elements => make_seq_rule visit elements
  | ParserElementLabeled value suffix =>
      element ← visit value; Some (wrap_suffix element suffix)
  | ParserElementAtom value suffix =>
      element ← visit value; Some (wrap_suffix element suffix)
  | ParserElementBlock value suffix =>
      element ← visit value; Some (wrap_suffix element suffix)
  | ParserElementAction => Some EMPTY
  | LabeledElement atom_or_block => visit atom_or_block
  | Block altList => visit altList
  | AtomWildcard => Some WILDCARD
  | PTerminalRef value => Some (Reference model value)
  | PTerminalLit value => Some (Reference model value)
  | Ruleref value => Some (Reference model value)
  | PNotElement value => child ← visit value; Some (Negation child)
  | PNotBlock value => child ← visit value; Some (Negation child)
  | PBlockSet elements => make_alt_rule visit elements
  | PSetElementRef value => Some (Reference model value)
  | PSetElementLit value => Some (Reference model value)
  | PSetElementCharSet _ => Some EMPTY
  | PCharacterRange _ _ => Some EMPTY
  end.

Definition visit_or_raise (ctx : ParserCtx) : M RuleContent :=
  match visit ctx with
  | Some content => ret content
  | None => raise AttributeError
  end.

Definition visitParserRuleSpec (ctx : ParserRuleSpecContext) : M unit :=
  let! content := visit_or_raise (ruleBlock ctx) in
  let! doc_info := load_docs host model (parser_docs ctx) in
  let! this := get_model model in
  let! rule :=
    new_rule (AParserRule
      {| pr_name := parser_name ctx;
         pr_display_name :=
           LexerRuleLoader.or_None (doc_name doc_info);
         pr_model := model;
         pr_position :=
           {| file := ModelImpl.get_path this;
              line := parser_start_line ctx + ModelImpl.get_offset this |};
         pr_content := content;
         pr_is_doxygen_nodoc := doc_is_doxygen_nodoc doc_info;
         pr_is_doxygen_inline := doc_is_doxygen_inline doc_info;
         pr_importance := doc_importance doc_info;
         pr_css_class := doc_css_class doc_info;
         pr_documentation := doc_documentation doc_info |}) in
  ModelImpl.set_parser_rule model (parser_name ctx) rule.

Definition visitRuleSpec (ctx : RuleSpecContext) : M unit :=
  match ctx with
  | IsParserRuleSpec ctx => visitParserRuleSpec ctx
  | IsLexerRuleSpec _ => ret tt
  end.

(** [ParserRuleLoader(model).visit(tree)]: prequel, lexer rules and
    modes are skipped. *)
Definition visitGrammarSpec (tree : GrammarSpecContext) : M unit :=
  for_each (rules tree) visitRuleSpec.

End Loader.

End ParserRuleLoader.

(** ** MetaLoader *)

(** The argument of [from_file] and [from_text]: a path, or a path with
    a line offset. *)
Definition PathArg : Type := string + string * Z.

Module MetaLoader.

Section Loader.

Variable host : Host.
(** [self._cache.from_file] *)
Variable cache_from_file : PathArg -> M loc.
(** [self._model] and [self._basedir], as [__init__] sets them *)
Variable model : loc.
Variable basedir : option string.

Definition __init__basedir (this : ModelImpl) : option string :=
  if ModelImpl.is_in_memory this then None
  else Some (dirname host (ModelImpl.get_path this)).

Definition add_import (name : string) (position : Position) : M unit :=
  let! this := get_model model in
  if ModelImpl.is_in_memory this then
    logger_error MsgImportsNotAllowed
  else
    match basedir with
    | None => raise TypeError
    | Some basedir =>
        let! imported :=
          cache_from_file (inl (join host basedir (name +:+ ".g4"))) in
        ModelImpl.add_import model imported
    end.

Definition visitOption (ctx : OptionContext) : M unit :=
  if String.eqb (option_name ctx) "tokenVocab" then
    let! this := get_model model in
    add_import (option_value ctx)
      {| file := ModelImpl.get_path this;
         line := option_start_line ctx + ModelImpl.get_offset this |}
  else ret tt.

Definition visitDelegateGrammar (ctx : DelegateGrammarContext)
  : M unit :=
  let! this := get_model model in
  add_import (delegate_value ctx)
    {| file := ModelImpl.get_path this;
       line := delegate_start_line ctx + ModelImpl.get_offset this |}.

(** [ctx.defs.defs] raises on a block without identifiers.  For a
    token, the arguments of the call of [LexerRule] are evaluated,
    which reads the path and the offset of the model, and the call
    raises [TypeError]: it has the keyword [is_doxygen_important],
    which is no field of the class, and leaves out [importance] and
    [css_class].  [set_lexer_rule] is not reached. *)
Definition visitTokensSpec (defs : option (list IdentifierContext))
  : M unit :=
  match defs with
  | None => raise AttributeError
  | Some tokens =>
      for_each tokens (fun token =>
        let! this := get_model model in
        raise TypeError)
  end.

Definition visitPrequelConstruct (ctx : PrequelConstructContext)
  : M unit :=
  match ctx with
  | OptionsSpec options => for_each options visitOption
  | DelegateGrammars grammars => for_each grammars visitDelegateGrammar
  | TokensSpec defs => visitTokensSpec defs
  | ChannelsSpecOrAction => ret tt
  end.

(** [MetaLoader(model, cache).visit(tree)]: rules and modes are not
    entered. *)
Definition visitGrammarSpec (tree : GrammarSpecContext) : M unit :=
  for_each (prequel tree) visitPrequelConstruct.

End Loader.

End MetaLoader.

(** ** ModelCacheImpl *)

Module ModelCacheImpl.

Section Cache.

Variable host : Host.

Definition count_parse : M unit :=
  fun st =>
    Return tt {| models := models st; rule_objects := rule_objects st;
                 _loaded := _loaded st; log := log st;
                 parses := S (parses st) |}.

Definition get_loaded (path : string) : M (option loc) :=
  fun st => Return (_loaded st !! path) st.

Definition set_loaded (path : string) (model : loc) : M unit :=
  fun st =>
    Return tt {| models := models st; rule_objects := rule_objects st;
                 _loaded := <[path := model]> (_loaded st);
                 log := log st; parses := parses st |}.

(** [LoggingErrorListener.syntaxError], for the reports of one parse *)
Definition syntaxError (path : string) (offset : Z)
           (e : SyntaxErrorReport) : M unit :=
  logger_error (MsgSyntaxError path (error_line e + offset) (error_msg e)).

Definition unpack (path : PathArg) : string * Z :=
  match path with
  | inr (path, offset) => (path, offset)
  | inl path => (path, 0%Z)
  end.

Definition _do_load (from_file : PathArg -> M loc)
           (text path : string) (offset : Z) (in_memory : bool)
  : M loc :=
  count_parse >>
  let parsed := grammarSpec host text in
  for_each (reports parsed) (syntaxError path offset) >>
  let! model := new_model (ModelImpl.__init__ path offset in_memory) in
  if 0 <? getNumberOfSyntaxErrors parsed then ret model
  else
    let! this := get_model model in
    MetaLoader.visitGrammarSpec host from_file model
      (MetaLoader.__init__basedir host this) (tree parsed) >>
    LexerRuleLoader.visitGrammarSpec host model (tree parsed) >>
    ParserRuleLoader.visitGrammarSpec host model (tree parsed) >>
    ret model.

(** [fuel] bounds the depth of the chain of imports that is followed;
    the Python recursion has no bound. *)
Fixpoint from_file (fuel : nat) (path : PathArg) : M loc :=
  match fuel with
  | 0 => fun _ => OutOfFuel
  | S fuel =>
      let '(path, offset) := unpack path in
      let path := abspath_normpath host path in
      let! cached := get_loaded path in
      match cached with
      | Some model => ret model
      | None =>
          match disk host path with
          | NoFile =>
              logger_error (MsgFileNotFound path) >>
              let! model :=
                new_model (ModelImpl.__init__ path offset false) in
              set_loaded path model >>
              ret model
          | Unreadable => raise OSError
          | File content =>
              let! model :=
                _do_load (from_file fuel) content path offset false in
              set_loaded path model >>
              ret model
          end
      end
  end.

Definition from_text (fuel : nat) (text : string) (path : PathArg)
  : M loc :=
  let '(path, offset) := unpack path in
  _do_load (from_file fuel) text path offset true.

End Cache.

End ModelCacheImpl.

(** ** Vocabulary of the specification *)

(** The invariant of rule content trees: no [Sequence] directly inside a
    [Sequence], no [Alternative] directly inside an [Alternative], both
    with two children or more, and no [Maybe] directly inside a
    [Maybe]; at every node of the tree.  [EMPTY], the variant Empty of
    the data model, is a leaf; being a [Sequence] it is no child of a
    [Sequence]. *)
Fixpoint invariant (r : RuleContent) : bool :=
  match r with
  | Wildcard | Literal _ | CharSet _ | Range _ _ | Reference _ _ => true
  | Negation c | OnePlus c | ZeroPlus c => invariant c
  | Maybe c => negb (is_Maybe c) && invariant c
  | Sequence [] => true
  | Sequence cs =>
      (2 <=? length cs)
      && forallb (fun c => negb (is_Sequence c) && invariant c) cs
  | Alternative cs =>
      (2 <=? length cs)
      && forallb (fun c => negb (is_Alternative c) && invariant c) cs
  end.

(** What it means for a text to have the shape of a pattern: [denotes p
    s g g'] when [p] matches exactly the characters [s] and takes the
    groups from [g] to [g']. *)
Fixpoint denotes (p : Re.pattern) (s : list ascii) (g g' : Re.groups)
  : Prop :=
  match p with
  | Re.Lit t => s = Py.chars t /\ g' = g
  | Re.Star cls => forallb cls s = true /\ g' = g
  | Re.Plus cls => s <> [] /\ forallb cls s = true /\ g' = g
  | Re.Group name p =>
      exists g0, denotes p s g g0 /\ g' = <[name := Py.str s]> g0
  | Re.Seq p q =>
      exists s1 s2 gm,
        s = s1 ++ s2 /\ denotes p s1 g gm /\ denotes q s2 gm g'
  end.

(** The state after some more records were logged. *)
Definition logged (records : list LogRecord) (st : State) : State :=
  {| models := models st; rule_objects := rule_objects st;
     _loaded := _loaded st; log := log st ++ records;
     parses := parses st |}.

(** The alternative combinator in the words of the specification:
    (a) a [Maybe] child is unwrapped and records an empty alternative,
    (b) so does an [Empty] child, (c) [Alternative] children are
    flattened. *)
Definition unwrap_maybe (r : RuleContent) : RuleContent :=
  match r with Maybe c => c | _ => r end.

Definition records_empty_alt (r : RuleContent) : bool :=
  is_Maybe r || is_Empty (unwrap_maybe r).

Definition empty_alt_recorded (subresults : list RuleContent) : bool :=
  existsb records_empty_alt subresults.

Definition remaining_of (r : RuleContent) : list RuleContent :=
  let c := unwrap_maybe r in
  if is_Empty c then []
  else match c with
       | Alternative cs => cs
       | _ => [c]
       end.

Definition remaining_children (subresults : list RuleContent)
  : list RuleContent :=
  flat_map remaining_of subresults.

Definition alternative_of_spec (subresults : list RuleContent)
  : RuleContent :=
  match remaining_children subresults with
  | [] => EMPTY
  | [c] => if empty_alt_recorded subresults then Maybe c else c
  | cs =>
      if empty_alt_recorded subresults
      then Maybe (Alternative cs) else Alternative cs
  end.

(** An element that the alternative combinator keeps as one child. *)
Definition plain (r : RuleContent) : bool :=
  negb (is_Empty r) && negb (is_Maybe r) && negb (is_Alternative r).

(** An element that the alternative combinator gives back when it is
    the only non-empty alternative: neither [Empty] nor a [Maybe], and
    if an [Alternative] then one of two children or more. *)
Definition rebuilt (r : RuleContent) : bool :=
  match r with
  | Maybe _ => false
  | Alternative cs => 2 <=? length cs
  | _ => negb (is_Empty r)
  end.

(** An element that the alternative combinator keeps as one child when
    it comes wrapped in a [Maybe]: neither [Empty] nor an
    [Alternative]. *)
Definition kept_unwrapped (r : RuleContent) : bool :=
  negb (is_Empty r) && negb (is_Alternative r).

(** What a child of a well-formed node of one kind satisfies. *)
Definition seq_child (c : RuleContent) : bool :=
  negb (is_Sequence c) && invariant c.
Definition alt_child (c : RuleContent) : bool :=
  negb (is_Alternative c) && invariant c.
Definition not_Maybe (c : RuleContent) : bool := negb (is_Maybe c).

(** An effect that returns and only writes to the log. *)
Definition only_logs {A} (m : M A) (st : State) : Prop :=
  exists a records, m st = Return a (logged records st).

(** The state with other model objects, and with one more rule object. *)
Definition with_models (ms : list ModelImpl) (st : State) : State :=
  {| models := ms; rule_objects := rule_objects st; _loaded := _loaded st;
     log := log st; parses := parses st |}.

Definition with_rule (r : RuleBase) (st : State) : State :=
  {| models := models st; rule_objects := rule_objects st ++ [r];
     _loaded := _loaded st; log := log st; parses := parses st |}.

(** A model object with other dictionaries of rules, other imports. *)
Definition with_lexer_rules (rs : gmap string loc) (o : ModelImpl)
  : ModelImpl :=
  {| _path := _path o; _in_memory := _in_memory o; _offset := _offset o;
     _lexer_rules := rs; _parser_rules := _parser_rules o;
     _imports := _imports o |}.

Definition with_parser_rules (rs : gmap string loc) (o : ModelImpl)
  : ModelImpl :=
  {| _path := _path o; _in_memory := _in_memory o; _offset := _offset o;
     _lexer_rules := _lexer_rules o; _parser_rules := rs;
     _imports := _imports o |}.

Definition with_imports (ms : gset loc) (o : ModelImpl) : ModelImpl :=
  {| _path := _path o; _in_memory := _in_memory o; _offset := _offset o;
     _lexer_rules := _lexer_rules o; _parser_rules := _parser_rules o;
     _imports := ms |}.

(** A body of a lexer rule in which every alternative has elements. *)
Fixpoint lexer_alts_present (ctx : LexerCtx) : bool :=
  match ctx with
  | LexerAltList alts => forallb lexer_alts_present alts
  | LexerAlt None => false
  | LexerAlt (Some c) => lexer_alts_present c
  | LexerElements elements => forallb lexer_alts_present elements
  | LBlockSet elements => forallb lexer_alts_present elements
  | LabeledLexerElement c | LexerBlock c
  | LNotElement c | LNotBlock c => lexer_alts_present c
  | LexerElementLabeled c _ | LexerElementAtom c _
  | LexerElementBlock c _ => lexer_alts_present c
  | LexerElementAction | LCharacterRange _ _ | LTerminalRef _
  | LTerminalLit _ | LexerAtomCharSet _ | LexerAtomWildcard
  | LSetElementRef _ | LSetElementLit _ | LSetElementCharSet _ => true
  end.

(** ** Invariants of the object store *)

(** What never changes in a model object, and the imports of an
    in-memory model, which stay as they are. *)
Definition kept (o o' : ModelImpl) : Prop :=
  _in_memory o' = _in_memory o /\ _path o' = _path o
  /\ _offset o' = _offset o
  /\ (_in_memory o = true -> _imports o' = _imports o).

(** Every memoized path leads to a model object of a file. *)
Definition cache_ok (st : State) : Prop :=
  forall path model,
    _loaded st !! path = Some model ->
    exists o, models st !! model = Some o /\ _in_memory o = false.

(** [step n st st']: from [st] to [st'] the objects below the address
    [n] are untouched, no object is lost, the others keep what [kept]
    names, the memoized paths stay, and so does [cache_ok]. *)
Record step (n : loc) (st st' : State) : Prop := {
  step_below : forall a, a < n -> models st' !! a = models st !! a;
  step_length : length (models st) <= length (models st');
  step_kept : forall a o, models st !! a = Some o ->
                          exists o', models st' !! a = Some o' /\ kept o o';
  step_loaded : _loaded st ⊆ _loaded st';
  step_cache : cache_ok st -> cache_ok st'
}.

(** An effect that, where it returns, makes a [step n]. *)
Definition keeps (n : loc) {A} (m : M A) : Prop :=
  forall st a st',
    n < length (models st) -> m st = Return a st' -> step n st st'.

(** An effect that, where it returns, has only written to the log. *)
Definition log_only {A} (m : M A) : Prop :=
  forall st a st', m st = Return a st' -> exists records, st' = logged records st.

(** What the cache's [from_file] guarantees to the loaders. *)
Definition loads (host : Host) (from_file : PathArg -> M loc) : Prop :=
  forall path st model st',
    from_file path st = Return model st' ->
    step (length (models st)) st st'
    /\ _loaded st' !! abspath_normpath host (ModelCacheImpl.unpack path).1
       = Some model.

(** The states that calls of [from_file] and [from_text] lead to. *)
Inductive later (host : Host) : State -> State -> Prop :=
| later_now st : later host st st
| later_from_file st st1 st2 fuel path model :
    later host st st1 ->
    ModelCacheImpl.from_file host fuel path st1 = Return model st2 ->
    later host st st2
| later_from_text st st1 st2 fuel text path model :
    later host st st1 ->
    ModelCacheImpl.from_text host fuel text path st1 = Return model st2 ->
    later host st st2.

(** The log records of the reports of one parse. *)
Definition syntax_records (path : string) (offset : Z)
           (reports : list SyntaxErrorReport) : list LogRecord :=
  map (fun e => (ERROR, MsgSyntaxError path (error_line e + offset)%Z
                          (error_msg e))) reports.

(** The state after one parse was made, its reports logged and the
    model object [o] created. *)
Definition parsed_into (o : ModelImpl) (records : list LogRecord)
           (st : State) : State :=
  {| models := models st ++ [o]; rule_objects := rule_objects st;
     _loaded := _loaded st; log := log st ++ records;
     parses := S (parses st) |}.

(** The state after [path] was memoized as [model]. *)
Definition memoized (path : string) (model : loc) (st : State) : State :=
  {| models := models st; rule_objects := rule_objects st;
     _loaded := <[path := model]> (_loaded st); log := log st;
     parses := parses st |}.

(** The import declarations of a grammar in the words of the
    specification: the values of the options named [tokenVocab] and the
    names of the delegate grammars, in the order of the prequel. *)
Definition import_declarations (tree : GrammarSpecContext) : list string :=
  flat_map
    (fun ctx =>
       match ctx with
       | OptionsSpec options =>
           map option_value
             (filter (fun o => option_name o = "tokenVocab"%string) options)
       | DelegateGrammars grammars => map delegate_value grammars
       | TokensSpec _ | ChannelsSpecOrAction => []
       end)
    (prequel tree).

(** The import of the grammar [V] in the words of the specification:
    a request to the cache for the file [V + ".g4"] in the directory of
    the loading file, and the registration of the model it returns as an
    import of the loading model. *)
Definition import_of (host : Host) (from_file : PathArg -> M loc)
           (model : loc) (dir V : string) : M unit :=
  let! imported := from_file (inl (join host dir (V +:+ ".g4"))) in
  ModelImpl.add_import model imported.

(** While a model of a file imports: the loading model is there, it is
    a model of a file, and it is what it was but for its imports, to
    which [ms] were added; what was memoized stays. *)
Definition importing (model : loc) (this : ModelImpl) (st0 : State)
           (ms : list loc) (st : State) : Prop :=
  models st !! model
  = Some (with_imports (_imports this ∪ list_to_set ms) this)
  /\ _in_memory this = false
  /\ _loaded st0 ⊆ _loaded st.

(** A prequel construct that is no [tokens] block, and a grammar
    without one. *)
Definition no_tokens (ctx : PrequelConstructContext) : bool :=
  match ctx with TokensSpec _ => false | _ => true end.

Definition no_tokens_block (tree : GrammarSpecContext) : bool :=
  forallb no_tokens (prequel tree).

(** A grammar in which every alternative of a lexer rule has
    elements. *)
Definition lexer_rule_present (ctx : LexerRuleSpecContext) : bool :=
  lexer_alts_present (lexerRuleBlock ctx).

Definition lexer_bodies_present (tree : GrammarSpecContext) : bool :=
  forallb (fun ctx => match ctx with
                      | IsLexerRuleSpec ctx => lexer_rule_present ctx
                      | IsParserRuleSpec _ => true
                      end) (rules tree)
  && forallb (fun mode => forallb lexer_rule_present (mode_rules mode))
             (modes tree).

(** Every documentation token of the grammar has some text. *)
Definition lexer_docs_have_text (ctx : LexerRuleSpecContext) : Prop :=
  Forall (fun token => text token <> ""%string) (lexer_docs ctx).

Definition docs_have_text (tree : GrammarSpecContext) : Prop :=
  Forall (fun ctx =>
            match ctx with
            | IsLexerRuleSpec ctx => lexer_docs_have_text ctx
            | IsParserRuleSpec ctx =>
                Forall (fun token => text token <> ""%string)
                       (parser_docs ctx)
            end) (rules tree)
  /\ Forall (fun mode => Forall lexer_docs_have_text (mode_rules mode))
            (modes tree).

(** The model object at [model] is there. *)
Definition present (model : loc) (st : State) : Prop :=
  is_Some (models st !! model).

(** ** A small host, for examples

    Two grammar files in the directory [/g], POSIX paths, and a working
    directory [/g] against which relative paths are made absolute. *)

Module Demo.

Definition lexer_text : string := "lexer grammar L; FOO: 'foo';".
Definition parser_text : string :=
  "grammar G; options { tokenVocab = L; } a: FOO;".

Definition foo_rule : LexerRuleSpecContext :=
  {| lexer_docs := []; lexer_frag := false; lexer_name := "FOO";
     lexer_start_line := 1;
     lexerRuleBlock :=
       LexerAltList
         [LexerAlt (Some (LexerElements
                            [LexerElementAtom (LTerminalLit "'foo'")
                               None]))] |}.

(** [A: 'x' 'y'? ;] *)
Definition x_y_rule : LexerRuleSpecContext :=
  {| lexer_docs := []; lexer_frag := false; lexer_name := "A";
     lexer_start_line := 1;
     lexerRuleBlock :=
       LexerAltList
         [LexerAlt
            (Some (LexerElements
                     [LexerElementAtom (LTerminalLit "'x'") None;
                      LexerElementAtom (LTerminalLit "'y'")
                        (Some "?"%string)]))] |}.

(** [B: 'b' {skip();} ;], a literal followed by an action *)
Definition action_rule : LexerRuleSpecContext :=
  {| lexer_docs := []; lexer_frag := false; lexer_name := "B";
     lexer_start_line := 2;
     lexerRuleBlock :=
       LexerAltList
         [LexerAlt
            (Some (LexerElements
                     [LexerElementAtom (LTerminalLit "'b'") None;
                      LexerElementAction]))] |}.

(** [C: 'c' | ;], with an alternative without elements *)
Definition half_rule : LexerRuleSpecContext :=
  {| lexer_docs := []; lexer_frag := false; lexer_name := "C";
     lexer_start_line := 3;
     lexerRuleBlock :=
       LexerAltList
         [LexerAlt
            (Some (LexerElements
                     [LexerElementAtom (LTerminalLit "'c'") None]));
          LexerAlt None] |}.

(** [b: B | ;], with an alternative without elements *)
Definition b_rule : ParserRuleSpecContext :=
  {| parser_docs := []; parser_name := "b"; parser_start_line := 4;
     ruleBlock :=
       RuleAltList
         [LabeledAlt (AlternativeCtx
                        [ParserElementAtom (PTerminalRef "B") None]);
          LabeledAlt (AlternativeCtx [])] |}.

Definition a_rule : ParserRuleSpecContext :=
  {| parser_docs := []; parser_name := "a"; parser_start_line := 1;
     ruleBlock :=
       RuleAltList
         [LabeledAlt (AlternativeCtx
                        [ParserElementAtom (PTerminalRef "FOO") None])] |}.

Definition lexer_tree : GrammarSpecContext :=
  {| prequel := []; rules := [IsLexerRuleSpec foo_rule]; modes := [] |}.

Definition parser_tree : GrammarSpecContext :=
  {| prequel :=
       [OptionsSpec [{| option_name := "tokenVocab"; option_value := "L";
                        option_start_line := 1 |}]];
     rules := [IsParserRuleSpec a_rule]; modes := [] |}.

Definition no_tree : GrammarSpecContext :=
  {| prequel := []; rules := []; modes := [] |}.

Definition tokens_text : string :=
  "grammar T; tokens { INDENT, DEDENT } t: INDENT;".

Definition t_rule : ParserRuleSpecContext :=
  {| parser_docs := []; parser_name := "t"; parser_start_line := 1;
     ruleBlock :=
       RuleAltList
         [LabeledAlt (AlternativeCtx
                        [ParserElementAtom (PTerminalRef "INDENT") None])] |}.

Definition tokens_tree : GrammarSpecContext :=
  {| prequel :=
       [TokensSpec
          (Some [{| identifier_text := "INDENT";
                    identifier_start_line := 1 |};
                 {| identifier_text := "DEDENT";
                    identifier_start_line := 1 |}])];
     rules := [IsParserRuleSpec t_rule]; modes := [] |}.

(** Every other text is reported as one syntax error of the parser. *)
Definition parse (text : string) : ParseResult :=
  if String.eqb text lexer_text then
    {| tree := lexer_tree; reports := [] |}
  else if String.eqb text parser_text then
    {| tree := parser_tree; reports := [] |}
  else if String.eqb text tokens_text then
    {| tree := tokens_tree; reports := [] |}
  else
    {| tree := no_tree;
       reports := [{| from_parser := true; error_line := 1;
                      error_column := 0;
                      error_msg := "mismatched input" |}] |}.

Definition files (path : string) : FileState :=
  if String.eqb path "/g/L.g4" then File lexer_text
  else if String.eqb path "/g/G.g4" then File parser_text
  else if String.eqb path "/g/T.g4" then File tokens_text
  else if String.eqb path "/g/broken.g4" then File "grammar"
  else NoFile.

Definition is_slash (c : ascii) : bool := Py.code c =? 47.

(** [posixpath.dirname] *)
Definition posix_dirname (p : string) : string :=
  let head := rev (Py.dropwhile (fun c => negb (is_slash c))
                                (rev (Py.chars p))) in
  if forallb is_slash head then Py.str head
  else Py.str (rev (Py.dropwhile is_slash (rev head))).

(** [posixpath.join] of two components *)
Definition posix_join (a b : string) : string :=
  if Py.startswith b "/" then b
  else match rev (Py.chars a) with
       | [] => b
       | c :: _ => if is_slash c then a +:+ b else a +:+ "/" +:+ b
       end.

(** Paths without [.] and [..] components, from the directory [/g]. *)
Definition absolute (p : string) : string :=
  if Py.startswith p "/" then p else "/g/" +:+ p.

Definition host : Host :=
  {| abspath_normpath := absolute;
     dirname := posix_dirname;
     join := posix_join;
     disk := files;
     grammarSpec := parse;
     dedent := fun s => s |}.

Definition fresh : State :=
  {| models := []; rule_objects := []; _loaded := ∅; log := [];
     parses := 0 |}.

(** The state after a first load of the missing [/nonexistent.g4]. *)
Definition after_missing : State :=
  {| models := [ModelImpl.__init__ "/nonexistent.g4" 0 false];
     rule_objects := [];
     _loaded := <[ "/nonexistent.g4"%string := 0 ]> ∅;
     log := [(ERROR, MsgFileNotFound "/nonexistent.g4")];
     parses := 0 |}.

(** A model object with the name [X] in both dictionaries. *)
Definition both_kinds : ModelImpl :=
  {| _path := "/g/G.g4"; _in_memory := false; _offset := 0;
     _lexer_rules := {[ "X"%string := 0 ]};
     _parser_rules := {[ "X"%string := 1; "y"%string := 2 ]};
     _imports := ∅ |}.

(** One in-memory model at address 0, one model of a file at 1. *)
Definition two_models : State :=
  {| models := [ModelImpl.__init__ "<in-memory>" 0 true;
                ModelImpl.__init__ "/g/G.g4" 0 false];
     rule_objects := []; _loaded := {[ "/g/G.g4"%string := 1 ]};
     log := []; parses := 1 |}.

End Demo.

(** ** Further vocabulary *)

(** The sequence combinator in the words of the code: a [Sequence]
    among the visited elements gives its children, any other element
    gives itself. *)
Definition sequence_elements (r : RuleContent) : list RuleContent :=
  match r with
  | Sequence children => children
  | _ => [r]
  end.

(** [every p r]: the test [p] holds at every node of the tree [r]. *)
Fixpoint every (p : RuleContent -> bool) (r : RuleContent) : bool :=
  p r
  && match r with
     | Negation c | Maybe c | OnePlus c | ZeroPlus c => every p c
     | Sequence cs | Alternative cs => forallb (every p) cs
     | Wildcard | Literal _ | CharSet _ | Range _ _ | Reference _ _ => true
     end.

(** The number of nodes of a tree. *)
Fixpoint nodes (r : RuleContent) : nat :=
  match r with
  | Negation c | Maybe c | OnePlus c | ZeroPlus c => S (nodes c)
  | Sequence cs | Alternative cs => S (list_sum (map nodes cs))
  | Wildcard | Literal _ | CharSet _ | Range _ _ | Reference _ _ => 1
  end.

(** A tree without [EMPTY] in it: every [Sequence] in it has a child,
    and then, if the tree satisfies the invariant, two or more. *)
Definition no_EMPTY (r : RuleContent) : bool :=
  every (fun node => negb (is_Empty node)) r.

(** A test that cannot fail on a node that a combinator makes. *)
Definition on_leaves (p : RuleContent -> bool) : Prop :=
  (forall c, p (Negation c) = true) /\ (forall c, p (Maybe c) = true)
  /\ (forall c, p (OnePlus c) = true) /\ (forall c, p (ZeroPlus c) = true)
  /\ (forall cs, p (Sequence cs) = true)
  /\ (forall cs, p (Alternative cs) = true).

(** Not a node of raw character data. *)
Definition not_char_data (r : RuleContent) : bool :=
  match r with
  | Literal _ | CharSet _ | Range _ _ => false
  | _ => true
  end.

(** Not a reference into another model than [model]. *)
Definition refers_within (model : loc) (r : RuleContent) : bool :=
  match r with
  | Reference m _ => m =? model
  | _ => true
  end.

(** [stops cls l]: a greedy repetition of [cls] ends in front of [l],
    which is empty or starts with a character outside of [cls]. *)
Definition stops (cls : ascii -> bool) (l : list ascii) : bool :=
  match l with
  | [] => true
  | c :: _ => negb (cls c)
  end.

(** The text of a directive, put together from its parts. *)
Definition directive_chars (w1 w2 w3 cmd w4 ctx rest : list ascii)
  : list ascii :=
  Py.chars "//@" ++ w1 ++ Py.chars "doc" ++ w2 ++ Py.chars ":" ++ w3
  ++ cmd ++ w4 ++ ctx ++ rest.

(** The rule object that [visitLexerRuleSpec] makes, from the model
    object [this] of the loader, the result of [load_docs] and the
    content built from the body. *)
Definition lexer_rule_object (model : loc) (this : ModelImpl)
           (ctx : LexerRuleSpecContext) (info : DocInfo)
           (content : RuleContent) : LexerRule :=
  {| lr_name := lexer_name ctx;
     lr_display_name := LexerRuleLoader.or_None (doc_name info);
     lr_model := model;
     lr_position :=
       {| file := ModelImpl.get_path this;
          line := lexer_start_line ctx + ModelImpl.get_offset this |};
     lr_content := content;
     lr_is_doxygen_nodoc := doc_is_doxygen_nodoc info;
     lr_is_doxygen_inline := doc_is_doxygen_inline info;
     lr_importance := doc_importance info;
     lr_css_class := doc_css_class info;
     lr_documentation := doc_documentation info;
     lr_is_fragment := lexer_frag ctx;
     lr_is_literal := is_Literal content |}.

(** The dictionary of lexer rules after [visitLexerRuleSpec]. *)
Definition lexer_rules_with (ctx : LexerRuleSpecContext)
           (content : RuleContent) (rule : loc) (rules : gmap string loc)
  : gmap string loc :=
  match content with
  | Literal literal => <[literal := rule]> (<[lexer_name ctx := rule]> rules)
  | _ => <[lexer_name ctx := rule]> rules
  end.

(** The rule object that [visitParserRuleSpec] makes. *)
Definition parser_rule_object (model : loc) (this : ModelImpl)
           (ctx : ParserRuleSpecContext) (info : DocInfo)
           (content : RuleContent) : ParserRule :=
  {| pr_name := parser_name ctx;
     pr_display_name := LexerRuleLoader.or_None (doc_name info);
     pr_model := model;
     pr_position :=
       {| file := ModelImpl.get_path this;
          line := parser_start_line ctx + ModelImpl.get_offset this |};
     pr_content := content;
     pr_is_doxygen_nodoc := doc_is_doxygen_nodoc info;
     pr_is_doxygen_inline := doc_is_doxygen_inline info;
     pr_importance := doc_importance info;
     pr_css_class := doc_css_class info;
     pr_documentation := doc_documentation info |}.

(** A text without a line boundary of [str.splitlines]. *)
Definition one_line (l : list ascii) : bool :=
  forallb (fun c => negb (Py.is_linebreak c)) l.

(** [ModelImpl.get_terminals] and [ModelImpl.get_non_terminals]: the
    iterators over [set(self._lexer_rules.values())] and over
    [set(self._parser_rules.values())], as the sets they run through. *)
Definition get_terminals (self : ModelImpl) : gset loc :=
  map_img (_lexer_rules self).

Definition get_non_terminals (self : ModelImpl) : gset loc :=
  map_img (_parser_rules self).

(** ** A host with a grammar that imports itself *)

Module Loop.

Definition loop_text : string :=
  "grammar Loop; options { tokenVocab = Loop; }".

Definition loop_tree : GrammarSpecContext :=
  {| prequel :=
       [OptionsSpec [{| option_name := "tokenVocab"; option_value := "Loop";
                        option_start_line := 1 |}]];
     rules := []; modes := [] |}.

Definition host : Host :=
  {| abspath_normpath := Demo.absolute;
     dirname := Demo.posix_dirname;
     join := Demo.posix_join;
     disk := fun path =>
               if String.eqb path "/g/Loop.g4" then File loop_text
               else NoFile;
     grammarSpec := fun _ => {| tree := loop_tree; reports := [] |};
     dedent := fun s => s |}.

End Loop.

(** ** What a pass leaves alone *)

(** What no pass changes in the object of an in-memory model: path,
    flag, offset and imports. *)
Definition settled (o o' : ModelImpl) : Prop :=
  _path o' = _path o /\ _in_memory o' = _in_memory o
  /\ _offset o' = _offset o /\ _imports o' = _imports o.

(** What the lexer pass leaves alone, and the parser pass. *)
Definition lexer_only (o o' : ModelImpl) : Prop :=
  settled o o' /\ _parser_rules o' = _parser_rules o.

Definition parser_only (o o' : ModelImpl) : Prop :=
  settled o o' /\ _lexer_rules o' = _lexer_rules o.

(** [reshapes P same n st st']: from [st] to [st'] nothing changed but
    the model object at [n], which changed within [same], and the rule
    objects and the log; that for an object that satisfies [P], which
    the new object satisfies again. *)
Definition reshapes (P : ModelImpl -> Prop)
           (same : ModelImpl -> ModelImpl -> Prop)
           (n : loc) (st st' : State) : Prop :=
  forall this,
    models st !! n = Some this -> P this ->
    _loaded st' = _loaded st /\ parses st' = parses st
    /\ exists this',
         models st' = <[n := this']> (models st)
         /\ P this' /\ same this this'.

Definition in_memory_object (o : ModelImpl) : Prop := _in_memory o = true.
Definition any_object (o : ModelImpl) : Prop := True.

(** ** Integrity of the object store *)

(** What a dictionary of lexer rules may hold for [key] in the model at
    [n]: a lexer rule of that model, registered under its name or, a
    literal rule, under its literal. *)
Definition lexer_entry (st : State) (n : loc) (key : string) (r : loc)
  : Prop :=
  exists obj,
    rule_objects st !! r = Some (ALexerRule obj)
    /\ lr_model obj = n
    /\ (lr_name obj = key
        \/ lr_is_literal obj = true /\ lr_content obj = Literal key).

(** What a dictionary of parser rules may hold for [key]: a parser rule
    of that model and of that name. *)
Definition parser_entry (st : State) (n : loc) (key : string) (r : loc)
  : Prop :=
  exists obj,
    rule_objects st !! r = Some (AParserRule obj)
    /\ pr_model obj = n /\ pr_name obj = key.

(** What a set of imports may hold: a model of a file. *)
Definition import_entry (st : State) (i : loc) : Prop :=
  exists o, models st !! i = Some o /\ _in_memory o = false.

(** Every memoized path leads to a model of a file of that path. *)
Definition cache_keyed (st : State) : Prop :=
  forall key m,
    _loaded st !! key = Some m ->
    exists o, models st !! m = Some o
              /\ _in_memory o = false /\ _path o = key.

Definition model_ok (st : State) (n : loc) (this : ModelImpl) : Prop :=
  (forall key r, _lexer_rules this !! key = Some r -> lexer_entry st n key r)
  /\ (forall key r,
        _parser_rules this !! key = Some r -> parser_entry st n key r)
  /\ (forall i, i ∈ _imports this -> import_entry st i).

Definition store_ok (st : State) : Prop :=
  cache_keyed st
  /\ forall n this, models st !! n = Some this -> model_ok st n this.

(** The states of a cache in use: those that calls of [from_file] and
    [from_text] that returned lead to, from the empty store. *)
Definition reachable (host : Host) (st : State) : Prop :=
  later host Demo.fresh st.


(** * Properties *)

(** ** The combinators *)

Section Combinators.

Import RuleLoader.

Lemma visit_all_Some (subresults : list RuleContent) :
  visit_all Some subresults = Some subresults.
Proof.
  induction subresults as [|r rest IH]; [reflexivity|].
  simpl. by rewrite IH.
Qed.

Lemma make_alt_rule_Some (subresults : list RuleContent) :
  make_alt_rule Some subresults = Some (alt_rule subresults).
Proof. unfold make_alt_rule. by rewrite visit_all_Some. Qed.

Lemma make_seq_rule_Some (subresults : list RuleContent) :
  make_seq_rule Some subresults = Some (seq_rule subresults).
Proof. unfold make_seq_rule. by rewrite visit_all_Some. Qed.

Lemma is_Empty_EMPTY r : is_Empty r = true -> r = EMPTY.
Proof. destruct r as [| | | | | |[|? ?]| | | |]; by try discriminate. Qed.

Lemma alt_loop_spec (visited : list RuleContent) he alts :
  alt_loop visited he alts
  = (he || empty_alt_recorded visited, alts ++ remaining_children visited).
Proof.
  revert he alts.
  induction visited as [|alt rest IH]; intros he alts.
  - simpl. by rewrite orb_false_r, app_nil_r.
  - cbn [alt_loop empty_alt_recorded existsb remaining_children flat_map].
    unfold records_empty_alt, remaining_of.
    destruct alt as [| | | | | |[|? ?]|cs|c| |];
      cbn [unwrap_maybe is_Maybe is_Empty orb];
      try (rewrite IH; cbn [app];
           rewrite <- ?app_assoc, ?orb_true_r, ?orb_false_r; cbn [orb app];
           reflexivity).
    destruct c as [| | | | | |[|? ?]|cs| | |]; cbn [is_Empty];
      rewrite IH; cbn [app]; rewrite <- ?app_assoc, ?orb_true_r;
      reflexivity.
Qed.

Lemma alt_rule_refines (subresults : list RuleContent) :
  alt_rule subresults = alternative_of_spec subresults.
Proof.
  unfold alt_rule, alternative_of_spec.
  rewrite alt_loop_spec. simpl.
  by destruct (remaining_children subresults) as [|? [|? ?]].
Qed.

Lemma invariant_Sequence c cs :
  invariant (Sequence (c :: cs))
  = (2 <=? length (c :: cs)) && forallb seq_child (c :: cs).
Proof. reflexivity. Qed.

Lemma invariant_Alternative cs :
  invariant (Alternative cs) = (2 <=? length cs) && forallb alt_child cs.
Proof. reflexivity. Qed.

Lemma forallb_app' {A} (p : A -> bool) l1 l2 :
  forallb p l1 = true -> forallb p l2 = true -> forallb p (l1 ++ l2) = true.
Proof. intros H1 H2. rewrite forallb_app, H1, H2. reflexivity. Qed.

Lemma forallb_flat_map {A B} (p : B -> bool) (f : A -> list B) l :
  (forall x, In x l -> forallb p (f x) = true) ->
  forallb p (flat_map f l) = true.
Proof.
  induction l as [|x l IH]; intros H; [reflexivity|].
  simpl. apply forallb_app'; [apply H; by left|].
  apply IH. intros y Hy. apply H. by right.
Qed.

Lemma seq_loop_spec (visited elements : list RuleContent) :
  seq_loop visited elements
  = elements ++ flat_map sequence_elements visited.
Proof.
  revert elements. induction visited as [|e rest IH]; intros elements; simpl.
  - by rewrite app_nil_r.
  - destruct e; rewrite IH, <- app_assoc; reflexivity.
Qed.

Lemma seq_loop_elements (subresults : list RuleContent) :
  seq_loop subresults [] = flat_map sequence_elements subresults.
Proof. by rewrite seq_loop_spec. Qed.

Lemma sequence_elements_seq_child (r : RuleContent) :
  invariant r = true -> forallb seq_child (sequence_elements r) = true.
Proof.
  intros Hinv.
  destruct r as [| | | | | |[|c cs]| | | |];
    try (unfold seq_child; cbn [sequence_elements forallb is_Sequence negb
                                andb]; by rewrite Hinv).
  - reflexivity.
  - rewrite invariant_Sequence in Hinv.
    apply andb_true_iff in Hinv as [_ H]. exact H.
Qed.

Lemma seq_loop_children (visited : list RuleContent) :
  forallb invariant visited = true ->
  forallb seq_child (seq_loop visited []) = true.
Proof.
  intros Hv. rewrite seq_loop_elements. apply forallb_flat_map.
  intros x Hx. apply sequence_elements_seq_child.
  rewrite forallb_forall in Hv. by apply Hv.
Qed.

Lemma seq_rule_invariant (subresults : list RuleContent) :
  forallb invariant subresults = true ->
  invariant (seq_rule subresults) = true.
Proof.
  intros Hinv. unfold seq_rule.
  pose proof (seq_loop_children subresults Hinv) as Hch.
  destruct (seq_loop subresults []) as [|e0 [|e1 els]].
  - reflexivity.
  - simpl in Hch. unfold seq_child in Hch.
    rewrite andb_true_r in Hch. apply andb_true_iff in Hch as [_ H]. exact H.
  - rewrite invariant_Sequence, Hch. reflexivity.
Qed.

Lemma invariant_unwrap_maybe (r : RuleContent) :
  invariant r = true -> invariant (unwrap_maybe r) = true.
Proof.
  intros Hinv. destruct r; try exact Hinv. simpl in Hinv.
  apply andb_true_iff in Hinv as [_ H]. exact H.
Qed.

Lemma remaining_of_alt_child (r : RuleContent) :
  invariant r = true -> forallb alt_child (remaining_of r) = true.
Proof.
  intros Hinv. unfold remaining_of.
  pose proof (invariant_unwrap_maybe r Hinv) as Hu.
  destruct (is_Empty (unwrap_maybe r)); [reflexivity|].
  destruct (unwrap_maybe r) eqn:E;
    try (unfold alt_child; cbn [forallb is_Alternative negb andb];
         rewrite Hu; reflexivity).
  rewrite invariant_Alternative in Hu.
  apply andb_true_iff in Hu as [_ H]. exact H.
Qed.

Lemma remaining_of_shape (r : RuleContent) :
  invariant r = true ->
  2 <= length (remaining_of r)
  \/ forallb not_Maybe (remaining_of r) = true.
Proof.
  intros Hinv. unfold remaining_of.
  destruct r as [| | | | | |[|? ?]|cs|c| |];
    cbn [unwrap_maybe is_Empty]; auto.
  - rewrite invariant_Alternative in Hinv.
    apply andb_true_iff in Hinv as [Hlen _].
    apply Nat.leb_le in Hlen. auto.
  - simpl in Hinv. apply andb_true_iff in Hinv as [Hm Hc].
    destruct c as [| | | | | |[|? ?]|cs| | |]; cbn [is_Empty]; auto;
      try discriminate.
    rewrite invariant_Alternative in Hc.
    apply andb_true_iff in Hc as [Hlen _].
    apply Nat.leb_le in Hlen. auto.
Qed.

Lemma remaining_children_alt_child (subresults : list RuleContent) :
  forallb invariant subresults = true ->
  forallb alt_child (remaining_children subresults) = true.
Proof.
  induction subresults as [|r rest IH]; intros Hinv; [reflexivity|].
  simpl in Hinv. apply andb_true_iff in Hinv as [Hr Hrest].
  simpl. apply forallb_app'; auto using remaining_of_alt_child.
Qed.

Lemma remaining_children_shape (subresults : list RuleContent) :
  forallb invariant subresults = true ->
  2 <= length (remaining_children subresults)
  \/ forallb not_Maybe (remaining_children subresults) = true.
Proof.
  induction subresults as [|r rest IH]; intros Hinv; [right; reflexivity|].
  simpl in Hinv. apply andb_true_iff in Hinv as [Hr Hrest].
  simpl. rewrite length_app.
  destruct (remaining_of_shape r Hr) as [H1|H1]; [left; lia|].
  destruct (IH Hrest) as [H2|H2]; [left; lia|].
  right. apply forallb_app'; assumption.
Qed.

Lemma alt_rule_invariant (subresults : list RuleContent) :
  forallb invariant subresults = true ->
  invariant (alt_rule subresults) = true.
Proof.
  intros Hinv. rewrite alt_rule_refines. unfold alternative_of_spec.
  pose proof (remaining_children_alt_child subresults Hinv) as Hch.
  pose proof (remaining_children_shape subresults Hinv) as Hsh.
  destruct (remaining_children subresults) as [|c0 [|c1 cs]].
  - reflexivity.
  - assert (Hc0 : invariant c0 = true).
    { simpl in Hch. unfold alt_child in Hch. rewrite andb_true_r in Hch.
      apply andb_true_iff in Hch as [_ H]. exact H. }
    destruct (empty_alt_recorded subresults); [|exact Hc0].
    destruct Hsh as [Hsh|Hsh]; [simpl in Hsh; lia|].
    simpl in Hsh. unfold not_Maybe in Hsh. rewrite andb_true_r in Hsh.
    simpl. rewrite Hsh, Hc0. reflexivity.
  - assert (HA : invariant (Alternative (c0 :: c1 :: cs)) = true).
    { rewrite invariant_Alternative, Hch. reflexivity. }
    destruct (empty_alt_recorded subresults); [|exact HA].
    change (negb false && invariant (Alternative (c0 :: c1 :: cs)) = true).
    rewrite HA. reflexivity.
Qed.

Lemma wrap_suffix_invariant (element : RuleContent) suffix :
  invariant element = true ->
  invariant (wrap_suffix element suffix) = true.
Proof.
  intros Hinv. unfold wrap_suffix.
  destruct (is_Empty element); [exact Hinv|].
  destruct suffix as [suffix|]; [|exact Hinv].
  destruct (Py.startswith suffix "?").
  { destruct (is_Maybe element) eqn:E; [exact Hinv|].
    simpl. rewrite E, Hinv. reflexivity. }
  destruct (Py.startswith suffix "+"); [exact Hinv|].
  destruct (Py.startswith suffix "*"); exact Hinv.
Qed.

End Combinators.

(** ** Induction over the bodies of rules, and over what is built *)

Section Contexts.

Import RuleLoader.

Lemma LexerCtx_induction (P : LexerCtx -> Prop) :
  (forall alts, Forall P alts -> P (LexerAltList alts)) ->
  P (LexerAlt None) ->
  (forall c, P c -> P (LexerAlt (Some c))) ->
  (forall elements, Forall P elements -> P (LexerElements elements)) ->
  (forall c suffix, P c -> P (LexerElementLabeled c suffix)) ->
  (forall c suffix, P c -> P (LexerElementAtom c suffix)) ->
  (forall c suffix, P c -> P (LexerElementBlock c suffix)) ->
  P LexerElementAction ->
  (forall c, P c -> P (LabeledLexerElement c)) ->
  (forall c, P c -> P (LexerBlock c)) ->
  (forall s e, P (LCharacterRange s e)) ->
  (forall v, P (LTerminalRef v)) ->
  (forall v, P (LTerminalLit v)) ->
  (forall v, P (LexerAtomCharSet v)) ->
  P LexerAtomWildcard ->
  (forall c, P c -> P (LNotElement c)) ->
  (forall c, P c -> P (LNotBlock c)) ->
  (forall elements, Forall P elements -> P (LBlockSet elements)) ->
  (forall v, P (LSetElementRef v)) ->
  (forall v, P (LSetElementLit v)) ->
  (forall v, P (LSetElementCharSet v)) ->
  forall ctx, P ctx.
Proof.
  intros HAltList HAltNone HAltSome HElements HLabeled HAtom HBlockE HAction
         HLabeledE HBlock HRange HRef HLit HCharSet HWildcard HNotE HNotB
         HSet HSetRef HSetLit HSetCharSet.
  fix IH 1.
  intros [alts|[c|]|elements|c sfx|c sfx|c sfx| |c|c|s e|v|v|v| |c|c
          |elements|v|v|v];
    [ apply HAltList | apply HAltSome, IH | exact HAltNone
    | apply HElements | apply HLabeled, IH | apply HAtom, IH
    | apply HBlockE, IH | exact HAction | apply HLabeledE, IH
    | apply HBlock, IH | apply HRange | apply HRef | apply HLit
    | apply HCharSet | exact HWildcard | apply HNotE, IH
    | apply HNotB, IH | apply HSet | apply HSetRef | apply HSetLit
    | apply HSetCharSet ].
  - revert alts. fix IHl 1.
    intros [|a l]; constructor; [apply IH|apply IHl].
  - revert elements. fix IHl 1.
    intros [|a l]; constructor; [apply IH|apply IHl].
  - revert elements. fix IHl 1.
    intros [|a l]; constructor; [apply IH|apply IHl].
Qed.

Lemma ParserCtx_induction (P : ParserCtx -> Prop) :
  (forall alts, Forall P alts -> P (RuleAltList alts)) ->
  (forall alts, Forall P alts -> P (AltList alts)) ->
  (forall c, P c -> P (LabeledAlt c)) ->
  (forall elements, Forall P elements -> P (AlternativeCtx elements)) ->
  (forall c suffix, P c -> P (ParserElementLabeled c suffix)) ->
  (forall c suffix, P c -> P (ParserElementAtom c suffix)) ->
  (forall c suffix, P c -> P (ParserElementBlock c suffix)) ->
  P ParserElementAction ->
  (forall c, P c -> P (LabeledElement c)) ->
  (forall c, P c -> P (Block c)) ->
  P AtomWildcard ->
  (forall v, P (PTerminalRef v)) ->
  (forall v, P (PTerminalLit v)) ->
  (forall v, P (Ruleref v)) ->
  (forall c, P c -> P (PNotElement c)) ->
  (forall c, P c -> P (PNotBlock c)) ->
  (forall elements, Forall P elements -> P (PBlockSet elements)) ->
  (forall v, P (PSetElementRef v)) ->
  (forall v, P (PSetElementLit v)) ->
  (forall v, P (PSetElementCharSet v)) ->
  (forall s e, P (PCharacterRange s e)) ->
  forall ctx, P ctx.
Proof.
  intros HRuleAltList HAltList HLabeledAlt HAlternative HLabeled HAtom
         HBlockE HAction HLabeledE HBlock HWildcard HRef HLit HRuleref
         HNotE HNotB HSet HSetRef HSetLit HSetCharSet HRange.
  fix IH 1.
  intros [alts|alts|c|elements|c sfx|c sfx|c sfx| |c|c| |v|v|v
          |c|c|elements|v|v|v|s e];
    [ apply HRuleAltList | apply HAltList | apply HLabeledAlt, IH
    | apply HAlternative | apply HLabeled, IH | apply HAtom, IH
    | apply HBlockE, IH | exact HAction | apply HLabeledE, IH
    | apply HBlock, IH | exact HWildcard | apply HRef | apply HLit
    | apply HRuleref | apply HNotE, IH | apply HNotB, IH | apply HSet
    | apply HSetRef | apply HSetLit | apply HSetCharSet | apply HRange ].
  - revert alts. fix IHl 1.
    intros [|a l]; constructor; [apply IH|apply IHl].
  - revert alts. fix IHl 1.
    intros [|a l]; constructor; [apply IH|apply IHl].
  - revert elements. fix IHl 1.
    intros [|a l]; constructor; [apply IH|apply IHl].
  - revert elements. fix IHl 1.
    intros [|a l]; constructor; [apply IH|apply IHl].
Qed.

Lemma visit_all_Forall {T} (visit : T -> option RuleContent)
      (Q : RuleContent -> Prop) (content : list T) :
  Forall (fun x => forall r, visit x = Some r -> Q r) content ->
  forall visited, visit_all visit content = Some visited -> Forall Q visited.
Proof.
  induction 1 as [|x l Hx _ IH]; intros visited H; simpl in H.
  - injection H as <-. constructor.
  - destruct (visit x) as [r|]; [|discriminate].
    destruct (visit_all visit l) as [rs|]; [|discriminate].
    injection H as <-. constructor; [by apply Hx|by apply IH].
Qed.

Lemma visit_all_is_Some {T} (visit : T -> option RuleContent)
      (content : list T) :
  Forall (fun x => is_Some (visit x)) content ->
  is_Some (visit_all visit content).
Proof.
  induction 1 as [|x l [r Hx] _ [rs IH]]; simpl; [by eexists|].
  rewrite Hx, IH. by eexists.
Qed.

Lemma visit_all_None {T} (visit : T -> option RuleContent)
      (content : list T) :
  Exists (fun x => visit x = None) content ->
  visit_all visit content = None.
Proof.
  induction 1 as [x l Hx|x l _ IH]; simpl.
  - by rewrite Hx.
  - destruct (visit x); [|reflexivity]. by rewrite IH.
Qed.

Lemma Forall_forallb {A} (p : A -> bool) (l : list A) :
  Forall (fun x => p x = true) l <-> forallb p l = true.
Proof.
  induction l as [|x l IH]; simpl.
  - split; [reflexivity|constructor].
  - rewrite andb_true_iff, <- IH. split.
    + intros H. by inversion H.
    + intros [Hx Hl]. by constructor.
Qed.

(** What holds of the leaves and is kept by the combinators holds of
    every tree that a loader builds. *)
Section Built.

Variable model : loc.
Variable Q : RuleContent -> Prop.
Hypothesis Q_alt : forall rs, Forall Q rs -> Q (alt_rule rs).
Hypothesis Q_seq : forall rs, Forall Q rs -> Q (seq_rule rs).
Hypothesis Q_suffix : forall e suffix, Q e -> Q (wrap_suffix e suffix).
Hypothesis Q_Negation : forall c, Q c -> Q (Negation c).
Hypothesis Q_EMPTY : Q EMPTY.
Hypothesis Q_WILDCARD : Q WILDCARD.
Hypothesis Q_Reference : forall name, Q (Reference model name).

Lemma parser_visit_built ctx :
  forall r, ParserRuleLoader.visit model ctx = Some r -> Q r.
Proof.
  induction ctx as [alts IH|alts IH|c IH|elements IH|c sfx IH|c sfx IH
                    |c sfx IH| |c IH|c IH| |v|v|v|c IH|c IH|elements IH
                    |v|v|v|s e] using ParserCtx_induction;
    intros r H; cbn [ParserRuleLoader.visit] in H;
    try (injection H as <-; auto; fail);
    try (by apply IH);
    try (destruct (ParserRuleLoader.visit model c) as [r0|];
         [|discriminate]; injection H as <-; auto; fail);
    try (unfold make_alt_rule in H;
         destruct (visit_all _ alts) as [rs|] eqn:E; [|discriminate];
         injection H as <-; apply Q_alt;
         by eapply visit_all_Forall);
    try (unfold make_alt_rule in H;
         destruct (visit_all _ elements) as [rs|] eqn:E; [|discriminate];
         injection H as <-; apply Q_alt;
         by eapply visit_all_Forall).
  unfold make_seq_rule in H.
  destruct (visit_all _ elements) as [rs|] eqn:E; [|discriminate].
  injection H as <-. apply Q_seq. by eapply visit_all_Forall.
Qed.

Hypothesis Q_Range : forall s e, Q (Range s e).
Hypothesis Q_Literal : forall v, Q (Literal v).
Hypothesis Q_CharSet : forall v, Q (CharSet v).

Lemma lexer_visit_built ctx :
  forall r, LexerRuleLoader.visit model ctx = Some r -> Q r.
Proof.
  induction ctx as [alts IH| |c IH|elements IH|c sfx IH|c sfx IH
                    |c sfx IH| |c IH|c IH|s e|v|v|v| |c IH|c IH
                    |elements IH|v|v|v] using LexerCtx_induction;
    intros r H; cbn [LexerRuleLoader.visit] in H;
    try discriminate;
    try (injection H as <-; auto;
         unfold LexerRuleLoader.visitTerminalLit,
           LexerRuleLoader.visitLexerAtomCharSet,
           LexerRuleLoader.visitSetElementLit,
           LexerRuleLoader.visitSetElementCharSet;
         destruct (String.eqb _ _); auto; fail);
    try (by apply IH);
    try (destruct (LexerRuleLoader.visit model c) as [r0|];
         [|discriminate]; injection H as <-; auto; fail);
    try (unfold make_alt_rule in H;
         destruct (visit_all _ alts) as [rs|] eqn:E; [|discriminate];
         injection H as <-; apply Q_alt;
         by eapply visit_all_Forall);
    try (unfold make_alt_rule in H;
         destruct (visit_all _ elements) as [rs|] eqn:E; [|discriminate];
         injection H as <-; apply Q_alt;
         by eapply visit_all_Forall).
  unfold make_seq_rule in H.
  destruct (visit_all _ elements) as [rs|] eqn:E; [|discriminate].
  injection H as <-. apply Q_seq. by eapply visit_all_Forall.
Qed.

End Built.

(** [ParserRuleLoader.visit] never raises. *)
Lemma parser_visit_returns (model : loc) ctx :
  is_Some (ParserRuleLoader.visit model ctx).
Proof.
  induction ctx as [alts IH|alts IH|c IH|elements IH|c sfx IH|c sfx IH
                    |c sfx IH| |c IH|c IH| |v|v|v|c IH|c IH|elements IH
                    |v|v|v|s e] using ParserCtx_induction;
    cbn [ParserRuleLoader.visit];
    try (by eexists);
    try exact IH;
    try (destruct IH as [r ->]; by eexists);
    unfold make_alt_rule, make_seq_rule.
  - destruct (visit_all_is_Some _ _ IH) as [rs ->]. by eexists.
  - destruct (visit_all_is_Some _ _ IH) as [rs ->]. by eexists.
  - destruct (visit_all_is_Some _ _ IH) as [rs ->]. by eexists.
  - destruct (visit_all_is_Some _ _ IH) as [rs ->]. by eexists.
Qed.

Lemma visit_all_lexer (model : loc) (content : list LexerCtx) :
  Forall (fun ctx =>
            is_Some (LexerRuleLoader.visit model ctx)
            <-> lexer_alts_present ctx = true) content ->
  is_Some (visit_all (LexerRuleLoader.visit model) content)
  <-> forallb lexer_alts_present content = true.
Proof.
  induction 1 as [|x l Hx _ IH]; simpl.
  - split; [reflexivity|by eexists].
  - rewrite andb_true_iff, <- Hx, <- IH.
    destruct (LexerRuleLoader.visit model x) as [r|].
    + destruct (visit_all _ l) as [rs|].
      * split; [by split; eexists|by eexists].
      * split; [by intros [? ?]|by intros [_ [? ?]]].
    + split; [by intros [? ?]|by intros [[? ?] _]].
Qed.

(** [LexerRuleLoader.visit] raises on the bodies that hold an
    alternative without elements, and on no other. *)
Lemma lexer_visit_returns (model : loc) ctx :
  is_Some (LexerRuleLoader.visit model ctx)
  <-> lexer_alts_present ctx = true.
Proof.
  induction ctx as [alts IH| |c IH|elements IH|c sfx IH|c sfx IH
                    |c sfx IH| |c IH|c IH|s e|v|v|v| |c IH|c IH
                    |elements IH|v|v|v] using LexerCtx_induction;
    cbn [LexerRuleLoader.visit lexer_alts_present];
    try (split; [reflexivity|by eexists]);
    try exact IH;
    try (rewrite <- IH; destruct (LexerRuleLoader.visit model c);
         split; intros [? ?]; first [done|by eexists]);
    unfold make_alt_rule, make_seq_rule.
  - rewrite <- (visit_all_lexer model alts IH).
    destruct (visit_all _ alts); split; intros [? ?]; first [done|by eexists].
  - split; [by intros [? ?]|discriminate].
  - rewrite <- (visit_all_lexer model elements IH).
    destruct (visit_all _ elements); split; intros [? ?]; first [done|by eexists].
  - rewrite <- (visit_all_lexer model elements IH).
    destruct (visit_all _ elements); split; intros [? ?]; first [done|by eexists].
Qed.

End Contexts.

(** ** The visitors build trees that satisfy the invariant *)

Section Visitors.

Import RuleLoader.

Lemma lexer_visit_invariant (model : loc) ctx r :
  LexerRuleLoader.visit model ctx = Some r -> invariant r = true.
Proof.
  apply (lexer_visit_built model (fun r => invariant r = true));
    try reflexivity.
  - intros rs H. apply alt_rule_invariant. by apply Forall_forallb.
  - intros rs H. apply seq_rule_invariant. by apply Forall_forallb.
  - intros e suffix. apply wrap_suffix_invariant.
  - intros c H. exact H.
Qed.

Lemma parser_visit_invariant (model : loc) ctx r :
  ParserRuleLoader.visit model ctx = Some r -> invariant r = true.
Proof.
  apply (parser_visit_built model (fun r => invariant r = true));
    try reflexivity.
  - intros rs H. apply alt_rule_invariant. by apply Forall_forallb.
  - intros rs H. apply seq_rule_invariant. by apply Forall_forallb.
  - intros e suffix. apply wrap_suffix_invariant.
  - intros c H. exact H.
Qed.

(** The end-to-end scenario of the specification: [A: 'x' 'y'? ;] *)
Example lexer_rule_x_y_maybe :
  LexerRuleLoader.visit 0 (lexerRuleBlock Demo.x_y_rule)
  = Some (Sequence [Literal "'x'"; Maybe (Literal "'y'")]).
Proof. reflexivity. Qed.

(** Flattening: [[Sequence(a, b), c]] gives [Sequence(a, b, c)], and
    likewise for alternatives. *)
Example flattening (a b : RuleContent) :
  make_seq_rule Some [Sequence [a; b]; Literal "'c'"]
  = Some (Sequence [a; b; Literal "'c'"])
  /\ make_alt_rule Some
       [Alternative [Wildcard; Literal "'b'"]; Literal "'c'"]
     = Some (Alternative [Wildcard; Literal "'b'"; Literal "'c'"]).
Proof. split; reflexivity. Qed.

End Visitors.

(** ** Claims on the combinators *)

Section CombinatorClaims.

Import RuleLoader.

(** A tree is no proper part of itself: an equation between two
    trees of different numbers of nodes cannot hold. *)
Ltac no_such_tree H :=
  exfalso;
  first
    [ discriminate H
    | apply (f_equal nodes) in H; cbn in H;
      rewrite ?map_app, ?list_sum_app in H; unfold list_sum in H;
      cbn in H; lia ].

Ltac by_shape r :=
  destruct r as [| | | | | |[|? ?]|[|? [|? ?]]|?| |].

(** C6: the alternative combinator absorbs empty alternatives.
    [[a, EMPTY]] yields [Maybe(a)] for every sub-result [a] that
    the combinator gives back as it is, neither [EMPTY] nor a [Maybe]
    nor an [Alternative] of fewer than two children, and for no
    other; [[x, Maybe(y)]] yields [Maybe(Alternative(x, y))] for every
    [x] that it keeps as one child, neither [EMPTY], [Maybe] nor
    [Alternative], and [y] that it keeps as one child once unwrapped,
    neither [EMPTY] nor [Alternative], and for no others; [[EMPTY]]
    yields [EMPTY]; and for all sub-results the result is the one
    that the rules (a)-(g) describe, decided by the remaining children
    and the recorded empty alternative. *)
Theorem make_alt_rule_absorption
        (a x y : RuleContent) (subresults : list RuleContent) :
  (make_alt_rule Some [a; EMPTY] = Some (Maybe a) <-> rebuilt a = true)
  /\ (make_alt_rule Some [x; Maybe y] = Some (Maybe (Alternative [x; y]))
      <-> plain x = true /\ kept_unwrapped y = true)
  /\ make_alt_rule Some [EMPTY] = Some EMPTY
  /\ make_alt_rule Some subresults = Some (alternative_of_spec subresults)
  /\ (remaining_children subresults = [] ->
      make_alt_rule Some subresults = Some EMPTY)
  /\ (forall c, remaining_children subresults = [c] ->
      make_alt_rule Some subresults
      = Some (if empty_alt_recorded subresults then Maybe c else c))
  /\ (2 <= length (remaining_children subresults) ->
      make_alt_rule Some subresults
      = Some (if empty_alt_recorded subresults
              then Maybe (Alternative (remaining_children subresults))
              else Alternative (remaining_children subresults))).
Proof.
  rewrite !make_alt_rule_Some.
  split; [|split; [|split; [|split; [|split; [|split]]]]].
  - split.
    + intros H. injection H as H.
      destruct a as [| | | | | |[|? ?]|[|? [|? ?]]|c| |];
        try reflexivity; cbn in H; try no_such_tree H.
      by_shape c; cbn in H; no_such_tree H.
    + intros Ha. f_equal.
      destruct a as [| | | | | |[|? ?]|cs|c| |]; try discriminate;
        try reflexivity.
      simpl in Ha. destruct cs as [|c0 [|c1 cs]]; try discriminate.
      reflexivity.
  - split.
    + intros H. injection H as H.
      destruct x as [| | | | | |[|? ?]|[|? [|? ?]]|c| |];
        try by_shape c; by_shape y; cbn in H;
        first [ split; reflexivity | no_such_tree H ].
    + intros [Hx Hy]. f_equal.
      destruct x as [| | | | | |[|? ?]|?|?| |]; try discriminate;
        destruct y as [| | | | | |[|? ?]|?|?| |]; try discriminate;
        reflexivity.
  - reflexivity.
  - by rewrite alt_rule_refines.
  - intros H. rewrite alt_rule_refines. unfold alternative_of_spec.
    rewrite H. reflexivity.
  - intros c H. rewrite alt_rule_refines. unfold alternative_of_spec.
    rewrite H. reflexivity.
  - intros H. rewrite alt_rule_refines. unfold alternative_of_spec.
    destruct (remaining_children subresults) as [|c0 [|c1 cs]];
      simpl in H; try lia; reflexivity.
Qed.

Lemma make_alt_rule_absorption_witness :
  make_alt_rule Some [Alternative [Literal "'x'"; Wildcard]; EMPTY]
  = Some (Maybe (Alternative [Literal "'x'"; Wildcard]))
  /\ make_alt_rule Some [Wildcard; Maybe (Maybe (Literal "'y'"))]
     = Some (Maybe (Alternative [Wildcard; Maybe (Literal "'y'")]))
  /\ make_alt_rule Some [Maybe Wildcard; EMPTY]
     <> Some (Maybe (Maybe Wildcard)).
Proof.
  pose proof (make_alt_rule_absorption
                (Alternative [Literal "'x'"; Wildcard]) Wildcard
                (Maybe (Literal "'y'")) []) as (H1 & H2 & _).
  pose proof (make_alt_rule_absorption (Maybe Wildcard) Wildcard Wildcard [])
    as (H3 & _).
  split; [exact (proj2 H1 eq_refl)|].
  split; [exact (proj2 H2 (conj eq_refl eq_refl))|].
  intros H. apply (proj1 H3) in H. discriminate H.
Defined.

Lemma no_EMPTY_node (r : RuleContent) :
  no_EMPTY r = true -> is_Empty r = false.
Proof.
  destruct r as [| | | | | |[|? ?]| | | |]; try reflexivity. discriminate.
Qed.

Lemma no_EMPTY_Sequence cs :
  cs <> [] -> forallb no_EMPTY cs = true -> no_EMPTY (Sequence cs) = true.
Proof.
  intros Hne H. unfold no_EMPTY. cbn [every].
  destruct cs; [congruence|]. exact H.
Qed.

Lemma sequence_elements_no_EMPTY (r : RuleContent) :
  no_EMPTY r = true ->
  sequence_elements r <> []
  /\ forallb no_EMPTY (sequence_elements r) = true.
Proof.
  intros H.
  destruct r as [| | | | | |[|c cs]| | | |];
    try (split; [discriminate|]; cbn [sequence_elements forallb];
         by rewrite H).
  - discriminate.
  - split; [discriminate|]. unfold no_EMPTY in H. cbn [every] in H. exact H.
Qed.

Lemma seq_rule_no_EMPTY (subresults : list RuleContent) :
  subresults <> [] ->
  forallb no_EMPTY subresults = true ->
  no_EMPTY (seq_rule subresults) = true.
Proof.
  intros Hne H. unfold seq_rule. rewrite seq_loop_elements.
  assert (Hall : flat_map sequence_elements subresults <> []
                 /\ forallb no_EMPTY (flat_map sequence_elements subresults)
                    = true).
  { destruct subresults as [|r rest]; [congruence|]. clear Hne.
    simpl in H. apply andb_true_iff in H as [Hr Hrest].
    destruct (sequence_elements_no_EMPTY r Hr) as [Hne Hel]. split.
    - simpl. destruct (sequence_elements r); [congruence|discriminate].
    - simpl. apply forallb_app'; [exact Hel|].
      apply forallb_flat_map. intros x Hx.
      apply sequence_elements_no_EMPTY.
      rewrite forallb_forall in Hrest. by apply Hrest. }
  destruct Hall as [Hne' Hall].
  destruct (flat_map sequence_elements subresults) as [|e0 [|e1 els]].
  - congruence.
  - simpl in Hall. by rewrite andb_true_r in Hall.
  - by apply no_EMPTY_Sequence.
Qed.

Lemma remaining_of_no_EMPTY (r : RuleContent) :
  invariant r = true -> no_EMPTY r = true ->
  remaining_of r <> [] /\ forallb no_EMPTY (remaining_of r) = true.
Proof.
  intros Hinv H. unfold remaining_of.
  assert (Hu : no_EMPTY (unwrap_maybe r) = true).
  { destruct r; exact H. }
  pose proof (invariant_unwrap_maybe r Hinv) as Hiu.
  rewrite (no_EMPTY_node _ Hu).
  destruct (unwrap_maybe r) as [| | | | | | |cs| | |];
    try (split; [discriminate|]; cbn [forallb]; by rewrite Hu).
  rewrite invariant_Alternative in Hiu.
  apply andb_true_iff in Hiu as [Hlen _]. apply Nat.leb_le in Hlen.
  split; [destruct cs; [simpl in Hlen; lia|discriminate]|].
  unfold no_EMPTY in Hu. cbn [every] in Hu. exact Hu.
Qed.

Lemma alt_rule_no_EMPTY (subresults : list RuleContent) :
  subresults <> [] ->
  forallb invariant subresults = true ->
  forallb no_EMPTY subresults = true ->
  no_EMPTY (alt_rule subresults) = true.
Proof.
  intros Hne Hinv H. rewrite alt_rule_refines. unfold alternative_of_spec.
  assert (Hall : remaining_children subresults <> []
                 /\ forallb no_EMPTY (remaining_children subresults) = true).
  { destruct subresults as [|r rest]; [congruence|]. clear Hne.
    simpl in H. apply andb_true_iff in H as [Hr Hrest].
    simpl in Hinv. apply andb_true_iff in Hinv as [Hir Hirest].
    destruct (remaining_of_no_EMPTY r Hir Hr) as [Hne Hel]. split.
    - simpl. destruct (remaining_of r); [congruence|discriminate].
    - simpl. apply forallb_app'; [exact Hel|].
      apply forallb_flat_map. intros x Hx.
      rewrite forallb_forall in Hrest, Hirest.
      apply remaining_of_no_EMPTY; auto. }
  destruct Hall as [Hne' Hall].
  destruct (remaining_children subresults) as [|c0 [|c1 cs]].
  - congruence.
  - simpl in Hall. rewrite andb_true_r in Hall.
    destruct (empty_alt_recorded subresults); [|exact Hall].
    unfold no_EMPTY. cbn [every]. exact Hall.
  - assert (HA : no_EMPTY (Alternative (c0 :: c1 :: cs)) = true)
      by (unfold no_EMPTY; cbn [every]; exact Hall).
    destruct (empty_alt_recorded subresults); [|exact HA].
    unfold no_EMPTY. cbn [every]. exact HA.
Qed.

Lemma wrap_suffix_no_EMPTY (element : RuleContent) suffix :
  no_EMPTY element = true -> no_EMPTY (wrap_suffix element suffix) = true.
Proof.
  intros H. unfold wrap_suffix.
  destruct (is_Empty element); [exact H|].
  destruct suffix as [suffix|]; [|exact H].
  destruct (Py.startswith suffix "?").
  { destruct (is_Maybe element); [exact H|].
    unfold no_EMPTY. cbn [every]. exact H. }
  destruct (Py.startswith suffix "+");
    [unfold no_EMPTY; cbn [every]; exact H|].
  destruct (Py.startswith suffix "*");
    [unfold no_EMPTY; cbn [every]; exact H|exact H].
Qed.

(** C7: the sequence combinator, the alternative combinator and
    suffix application, on a non-empty list of sub-results that
    satisfy the invariant, give a tree that satisfies it: no
    [Sequence] directly in a [Sequence], no [Alternative] directly in
    an [Alternative], two children or more in each but in [EMPTY],
    and no [Maybe] directly in a [Maybe]; and where no input holds
    [EMPTY], neither does the tree, so that every [Sequence] in it
    has two children or more. *)
Theorem builders_keep_invariant
        (subresults : list RuleContent) (element : RuleContent)
        (suffix : option string)
        (Hne : subresults <> [])
        (Hsub : forallb invariant subresults = true)
        (Hel : invariant element = true) :
  (exists r, make_seq_rule Some subresults = Some r
             /\ invariant r = true
             /\ (forallb no_EMPTY subresults = true -> no_EMPTY r = true))
  /\ (exists r, make_alt_rule Some subresults = Some r
                /\ invariant r = true
                /\ (forallb no_EMPTY subresults = true ->
                    no_EMPTY r = true))
  /\ invariant (wrap_suffix element suffix) = true
  /\ (no_EMPTY element = true ->
      no_EMPTY (wrap_suffix element suffix) = true).
Proof.
  split; [|split; [|split]].
  - exists (seq_rule subresults). rewrite make_seq_rule_Some.
    split; [reflexivity|]. split; [by apply seq_rule_invariant|].
    by apply seq_rule_no_EMPTY.
  - exists (alt_rule subresults). rewrite make_alt_rule_Some.
    split; [reflexivity|]. split; [by apply alt_rule_invariant|].
    by apply alt_rule_no_EMPTY.
  - by apply wrap_suffix_invariant.
  - by apply wrap_suffix_no_EMPTY.
Qed.

Lemma builders_keep_invariant_witness :
  (exists r,
      make_seq_rule Some
        [Sequence [Literal "'a'"; Literal "'b'"]; EMPTY; Literal "'c'"]
      = Some r /\ invariant r = true)
  /\ (exists r,
         make_alt_rule Some
           [Sequence [Literal "'a'"; Literal "'b'"]; EMPTY; Literal "'c'"]
         = Some r /\ invariant r = true)
  /\ invariant (wrap_suffix (Maybe (Literal "'a'")) (Some "?"%string)) = true.
Proof.
  destruct (builders_keep_invariant
              [Sequence [Literal "'a'"; Literal "'b'"]; EMPTY; Literal "'c'"]
              (Maybe (Literal "'a'")) (Some "?"%string)
              ltac:(discriminate) eq_refl eq_refl)
    as ((r1 & H1 & I1 & _) & (r2 & H2 & I2 & _) & I3 & _).
  split; [by exists r1|]. split; [by exists r2|exact I3].
Defined.

(** C8: suffix application.  A suffix text that starts with [?] wraps
    in [Maybe] unless the element is a [Maybe] already, one that
    starts with [+] gives [OnePlus], one that starts with [*] gives
    [ZeroPlus], no suffix gives the element back, and [EMPTY], which
    is the [Sequence] without children, is given back under every
    suffix. *)
Theorem wrap_suffix_cases (e : RuleContent) (rest : string)
        (suffix : option string) :
  wrap_suffix e (Some (String "?" rest))
  = (if is_Empty e || is_Maybe e then e else Maybe e)
  /\ wrap_suffix e (Some (String "+" rest))
     = (if is_Empty e then e else OnePlus e)
  /\ wrap_suffix e (Some (String "*" rest))
     = (if is_Empty e then e else ZeroPlus e)
  /\ wrap_suffix e None = e
  /\ wrap_suffix EMPTY suffix = EMPTY
  /\ wrap_suffix (Sequence []) suffix = Sequence []
  /\ (is_Empty e = true <-> e = EMPTY)
  /\ (forall c, wrap_suffix (Maybe c) (Some (String "?" rest)) = Maybe c).
Proof.
  repeat split;
    try (destruct e as [| | | | | |[|? ?]| | | |]; reflexivity);
    try (intros H; by apply is_Empty_EMPTY).
  intros ->. reflexivity.
Qed.

End CombinatorClaims.

(** ** Claims on ModelImpl *)

Section LookupClaims.

(** C10: [lookup_local] gives the lexer rule of that name when there
    is one, whatever the parser rules hold; the parser rule when only
    a parser rule has the name; and [None] when neither map has it. *)
Theorem lookup_local_precedence (self : ModelImpl) (name : string) :
  (forall rule, _lexer_rules self !! name = Some rule ->
                ModelImpl.lookup_local self name = Some rule)
  /\ (forall rule, _lexer_rules self !! name = None ->
                   _parser_rules self !! name = Some rule ->
                   ModelImpl.lookup_local self name = Some rule)
  /\ (_lexer_rules self !! name = None ->
      _parser_rules self !! name = None ->
      ModelImpl.lookup_local self name = None).
Proof.
  unfold ModelImpl.lookup_local.
  repeat split.
  - intros rule ->. reflexivity.
  - intros rule -> ->. reflexivity.
  - intros -> ->. reflexivity.
Qed.

Lemma lookup_local_precedence_witness :
  ModelImpl.lookup_local Demo.both_kinds "X" = Some 0
  /\ ModelImpl.lookup_local Demo.both_kinds "y" = Some 2
  /\ ModelImpl.lookup_local Demo.both_kinds "z" = None.
Proof.
  split; [|split].
  - exact (proj1 (lookup_local_precedence Demo.both_kinds "X")
             0 eq_refl).
  - exact (proj1 (proj2 (lookup_local_precedence Demo.both_kinds "y"))
             2 eq_refl eq_refl).
  - exact (proj2 (proj2 (lookup_local_precedence Demo.both_kinds "z"))
             eq_refl eq_refl).
Defined.

End LookupClaims.

(** ** The directive pattern *)

Section Patterns.

Lemma startswith_chars_split (p l : list ascii) :
  Py.startswith_chars p l = true -> l = p ++ skipn (length p) l.
Proof.
  revert l. induction p as [|a p IH]; intros l H; [reflexivity|].
  destruct l as [|b l]; [discriminate|]. simpl in H.
  apply andb_true_iff in H as [Hab Hrest].
  apply Ascii.eqb_eq in Hab. subst b. simpl. f_equal. by apply IH.
Qed.

Lemma greedy_sound {R} cls (s : list ascii) (k : list ascii -> option R) r :
  Re.greedy cls s k = Some r ->
  exists s1 rest,
    s = s1 ++ rest /\ forallb cls s1 = true /\ k rest = Some r.
Proof.
  induction s as [|c s IH]; simpl; intros H.
  - exists [], []. auto.
  - destruct (cls c) eqn:Hc.
    + destruct (Re.greedy cls s k) as [r'|] eqn:Hg.
      * destruct (IH H) as (s1 & rest & -> & Hs1 & Hk).
        exists (c :: s1), rest. simpl. rewrite Hc, Hs1. auto.
      * exists [], (c :: s). auto.
    + exists [], (c :: s). auto.
Qed.

Lemma consumed_app (s1 rest : list ascii) :
  Re.consumed (s1 ++ rest) rest = Py.str s1.
Proof.
  unfold Re.consumed. rewrite length_app.
  replace (length s1 + length rest - length rest) with (length s1) by lia.
  by rewrite firstn_app, Nat.sub_diag, firstn_all, app_nil_r.
Qed.

Lemma run_sound (p : Re.pattern) :
  forall s g k r,
    Re.run p s g k = Some r ->
    exists s1 rest g1,
      s = s1 ++ rest /\ denotes p s1 g g1 /\ k rest g1 = Some r.
Proof.
  induction p as [t|cls|cls|name p IH|p IHp q IHq]; intros s g k r H; simpl in H.
  - destruct (Py.startswith_chars (Py.chars t) s) eqn:Hs; [|discriminate].
    exists (Py.chars t), (skipn (length (Py.chars t)) s), g.
    split; [by apply startswith_chars_split|]. simpl. auto.
  - apply greedy_sound in H as (s1 & rest & -> & Hs1 & Hk).
    exists s1, rest, g. simpl. auto.
  - destruct s as [|c s]; [discriminate|].
    destruct (cls c) eqn:Hc; [|discriminate].
    apply greedy_sound in H as (s1 & rest & -> & Hs1 & Hk).
    exists (c :: s1), rest, g. simpl. rewrite Hc, Hs1.
    repeat split; auto.
  - apply IH in H as (s1 & rest & g1 & -> & Hd & Hk).
    rewrite consumed_app in Hk.
    exists s1, rest, (<[name := Py.str s1]> g1). simpl. eauto.
  - apply IHp in H as (s1 & rest & g1 & -> & Hd1 & Hk).
    apply IHq in Hk as (s2 & rest' & g2 & -> & Hd2 & Hk).
    exists (s1 ++ s2), rest', g2. rewrite <- app_assoc.
    split; [reflexivity|]. split; [|exact Hk].
    simpl. exists s1, s2, g1. auto.
Qed.

Lemma match_sound (p : Re.pattern) (text : string) (m : Re.groups) :
  Re.match_ p text = Some m ->
  exists s1 rest, Py.chars text = s1 ++ rest /\ denotes p s1 ∅ m.
Proof.
  unfold Re.match_. intros H.
  apply run_sound in H as (s1 & rest & g1 & Hs & Hd & Hk).
  injection Hk as <-. eauto.
Qed.

(** A text that [CMD_RE] matches reads: the marker, [doc], a colon,
    the command, its argument up to the end of the line, with white
    space allowed where the pattern has [\s*]. *)
Lemma CMD_RE_shape (text : string) (m : Re.groups) :
  Re.match_ CMD_RE text = Some m ->
  exists w1 w2 w3 cmd w4 ctx rest,
    Py.chars text
    = Py.chars "//@" ++ w1 ++ Py.chars "doc" ++ w2 ++ Py.chars ":" ++ w3
      ++ cmd ++ w4 ++ ctx ++ rest
    /\ forallb Py.isspace w1 = true /\ forallb Py.isspace w2 = true
    /\ forallb Py.isspace w3 = true /\ forallb Py.isspace w4 = true
    /\ cmd <> [] /\ forallb Re.word_or_dash cmd = true
    /\ forallb Re.dot ctx = true
    /\ Re.group m "cmd" = Py.str cmd /\ Re.group m "ctx" = Py.str ctx.
Proof.
  intros H. apply match_sound in H as (s & rest & Ht & Hd).
  unfold CMD_RE in Hd. cbn [Re.cat denotes] in Hd.
  destruct Hd as (s1 & r1 & g1 & -> & [-> ->] & Hd).
  destruct Hd as (w1 & r2 & g2 & -> & [Hw1 ->] & Hd).
  destruct Hd as (s3 & r3 & g3 & -> & [-> ->] & Hd).
  destruct Hd as (w2 & r4 & g4 & -> & [Hw2 ->] & Hd).
  destruct Hd as (s5 & r5 & g5 & -> & [-> ->] & Hd).
  destruct Hd as (w3 & r6 & g6 & -> & [Hw3 ->] & Hd).
  destruct Hd as (cmd & r7 & g7 & -> & (g0 & (Hne & Hcmd & ->) & ->) & Hd).
  destruct Hd as (w4 & ctx & g8 & -> & [Hw4 ->] & (g9 & [Hctx ->] & ->)).
  exists w1, w2, w3, cmd, w4, ctx, rest.
  rewrite Ht, <- !app_assoc.
  repeat split; auto.
Qed.

End Patterns.

(** ** The documentation extractor *)

Section Documentation.

Variable host : Host.

Lemma logged_nil st : logged [] st = st.
Proof. destruct st. unfold logged. simpl. by rewrite app_nil_r. Qed.

Lemma logged_logged l1 l2 st : logged l2 (logged l1 st) = logged (l1 ++ l2) st.
Proof. unfold logged. simpl. by rewrite app_assoc. Qed.

Lemma logger_error_logged msg st :
  logger_error msg st = Return tt (logged [(ERROR, msg)] st).
Proof. reflexivity. Qed.

Lemma logger_warning_logged msg st :
  logger_warning msg st = Return tt (logged [(WARNING, msg)] st).
Proof. reflexivity. Qed.

Lemma only_logs_ret {A} (a : A) st : only_logs (ret a) st.
Proof. exists a, []. by rewrite logged_nil. Qed.

Lemma only_logs_bind {A B} (m : M A) (f : A -> M B) st :
  only_logs m st ->
  (forall a records, only_logs (f a) (logged records st)) ->
  only_logs (bind m f) st.
Proof.
  intros (a & l1 & Hm) Hf. destruct (Hf a l1) as (b & l2 & Hb).
  exists b, (l1 ++ l2). unfold bind. rewrite Hm, Hb.
  by rewrite logged_logged.
Qed.

Lemma only_logs_error msg st : only_logs (logger_error msg) st.
Proof. by exists tt, [(ERROR, msg)]. Qed.

Lemma only_logs_warning msg st : only_logs (logger_warning msg) st.
Proof. by exists tt, [(WARNING, msg)]. Qed.

Lemma only_logs_get_model model this st :
  models st !! model = Some this -> only_logs (get_model model) st.
Proof.
  intros H. exists this, []. unfold get_model. by rewrite H, logged_nil.
Qed.

Lemma argument_check_only_logs cmd ctx v st :
  only_logs (argument_check cmd ctx v) st.
Proof.
  unfold argument_check.
  destruct (_ && _).
  - apply only_logs_bind; [apply only_logs_warning|].
    intros. apply only_logs_ret.
  - apply only_logs_ret.
Qed.

Lemma load_docs_command_only_logs position text v st :
  only_logs (load_docs_command position text v) st.
Proof.
  unfold load_docs_command.
  repeat first
    [ apply only_logs_ret
    | apply only_logs_error
    | apply argument_check_only_logs
    | apply only_logs_bind; [|intros]
    | match goal with
      | |- only_logs (match ?x with _ => _ end) _ => destruct x
      end ].
Qed.

Lemma splitlines_chars_nil cur l :
  Py.splitlines_chars cur l = [] -> cur = [] /\ l = [].
Proof.
  revert cur. induction l as [|c l IH]; intros cur H; simpl in H.
  - destruct cur; [auto|discriminate].
  - destruct (Py.is_linebreak c).
    + destruct l as [|c' l']; [discriminate|].
      destruct (_ && _); discriminate.
    + apply IH in H as [H _]. discriminate.
Qed.

Lemma splitlines_nil text : Py.splitlines text = [] -> text = ""%string.
Proof.
  unfold Py.splitlines. intros H. apply map_eq_nil in H.
  apply splitlines_chars_nil in H as [_ H].
  destruct text; [reflexivity|discriminate].
Qed.

Lemma load_docs_text_only_logs text v st :
  text <> ""%string -> only_logs (load_docs_text host text v) st.
Proof.
  intros Hne. unfold load_docs_text.
  destruct (Py.splitlines text) as [|l0 [|l1 ls]] eqn:E.
  - apply splitlines_nil in E. contradiction.
  - apply only_logs_ret.
  - cbn [map].
    destruct (rev (Py.strip l1 :: map Py.strip ls)) as [|last front] eqn:Er.
    + apply (f_equal (@length _)) in Er. rewrite length_rev in Er.
      discriminate.
    + apply only_logs_ret.
Qed.

Lemma load_docs_token_only_logs model this token v st :
  models st !! model = Some this ->
  text token <> ""%string ->
  only_logs (load_docs_token host model token v) st.
Proof.
  intros Hm Hne. unfold load_docs_token.
  apply only_logs_bind; [by eapply only_logs_get_model|].
  intros this' records.
  destruct (Py.startswith _ _).
  - apply load_docs_command_only_logs.
  - by apply load_docs_text_only_logs.
Qed.

Lemma load_docs_loop_only_logs model this tokens v st :
  models st !! model = Some this ->
  Forall (fun token => text token <> ""%string) tokens ->
  only_logs (load_docs_loop host model tokens v) st.
Proof.
  intros Hm Htok. revert v st Hm.
  induction Htok as [|token rest Hne _ IH]; intros v st Hm; simpl.
  - apply only_logs_ret.
  - apply only_logs_bind; [by eapply load_docs_token_only_logs|].
    intros v' records. by apply IH.
Qed.

(** On tokens with some text, [load_docs] returns, and the log is all
    it writes to. *)
Lemma load_docs_only_logs model this tokens st :
  models st !! model = Some this ->
  Forall (fun token => text token <> ""%string) tokens ->
  only_logs (load_docs host model tokens) st.
Proof.
  intros Hm Htok. unfold load_docs.
  apply only_logs_bind; [by eapply load_docs_loop_only_logs|].
  intros. apply only_logs_ret.
Qed.

Lemma load_docs_command_importance_negative position v st :
  load_docs_command position "//@ doc:importance -3" v st
  = Return (Docs.set_importance (-3) v)
           (logged [(ERROR, MsgImportanceNegative position)] st).
Proof. reflexivity. Qed.

Lemma load_docs_command_without_doc position v st :
  load_docs_command position "//@ importance -3" v st
  = Return v
      (logged [(ERROR, MsgInvalidCommand position "//@ importance -3")] st).
Proof. reflexivity. Qed.

End Documentation.

(** ** Registering a rule *)

Section Registration.

Variable host : Host.

Lemma get_model_eq model this st :
  models st !! model = Some this -> get_model model st = Return this st.
Proof. intros H. unfold get_model. by rewrite H. Qed.

Lemma set_lexer_rule_eq model this name rule st :
  models st !! model = Some this ->
  ModelImpl.set_lexer_rule model name rule st
  = Return tt
      (with_models
         (<[model := with_lexer_rules
                       (<[name := rule]> (_lexer_rules this)) this]>
            (models st)) st).
Proof.
  intros H. unfold ModelImpl.set_lexer_rule, bind.
  by rewrite (get_model_eq _ _ _ H).
Qed.

Lemma set_parser_rule_eq model this name rule st :
  models st !! model = Some this ->
  ModelImpl.set_parser_rule model name rule st
  = Return tt
      (with_models
         (<[model := with_parser_rules
                       (<[name := rule]> (_parser_rules this)) this]>
            (models st)) st).
Proof.
  intros H. unfold ModelImpl.set_parser_rule, bind.
  by rewrite (get_model_eq _ _ _ H).
Qed.

Lemma lookup_with_models model (this this' : ModelImpl) st st0 :
  models st !! model = Some this ->
  models (with_models (<[model := this']> (models st)) st0) !! model
  = Some this'.
Proof.
  intros H. simpl. apply list_lookup_insert_eq. by eapply lookup_lt_Some.
Qed.

(** The state after [visitLexerRuleSpec], in full. *)
Lemma visitLexerRuleSpec_registers model this ctx st info records content :
  models st !! model = Some this ->
  LexerRuleLoader.visit model (lexerRuleBlock ctx) = Some content ->
  load_docs host model (lexer_docs ctx) st = Return info (logged records st) ->
  LexerRuleLoader.visitLexerRuleSpec host model ctx st
  = Return tt
      (with_models
         (<[model :=
              with_lexer_rules
                (lexer_rules_with ctx content (length (rule_objects st))
                   (_lexer_rules this)) this]> (models st))
         (with_rule
            (ALexerRule (lexer_rule_object model this ctx info content))
            (logged records st))).
Proof.
  intros Hm Hvisit Hdocs.
  unfold LexerRuleLoader.visitLexerRuleSpec, lexer_rule_object,
    lexer_rules_with.
  unfold bind at 1. unfold LexerRuleLoader.visit_or_raise at 1.
  rewrite Hvisit. unfold ret at 1.
  unfold bind at 1. rewrite Hdocs.
  destruct content;
    (unfold bind at 1; rewrite (get_model_eq model this) by exact Hm;
     unfold bind at 1; unfold new_rule at 1;
     cbn [rule_objects logged];
     unfold bind at 1;
     match goal with
     | |- context [ModelImpl.set_lexer_rule model ?n ?r ?s] =>
         rewrite (set_lexer_rule_eq model this n r s) by exact Hm
     end;
     first
       [ reflexivity
       | erewrite set_lexer_rule_eq
           by (apply lookup_with_models with (this := this); exact Hm);
         cbn [with_models models]; rewrite list_insert_insert_eq;
         reflexivity ]).
Qed.

(** A body that cannot be visited ends the call before anything is
    read or written. *)
Lemma visitLexerRuleSpec_raises model ctx st :
  LexerRuleLoader.visit model (lexerRuleBlock ctx) = None ->
  LexerRuleLoader.visitLexerRuleSpec host model ctx st
  = Raise AttributeError st.
Proof.
  intros Hvisit. unfold LexerRuleLoader.visitLexerRuleSpec.
  unfold bind at 1. unfold LexerRuleLoader.visit_or_raise.
  by rewrite Hvisit.
Qed.

Lemma visitParserRuleSpec_registers model this ctx st info records content :
  models st !! model = Some this ->
  ParserRuleLoader.visit model (ruleBlock ctx) = Some content ->
  load_docs host model (parser_docs ctx) st = Return info (logged records st) ->
  ParserRuleLoader.visitParserRuleSpec host model ctx st
  = Return tt
      (with_models
         (<[model :=
              with_parser_rules
                (<[parser_name ctx := length (rule_objects st)]>
                   (_parser_rules this)) this]> (models st))
         (with_rule
            (AParserRule (parser_rule_object model this ctx info content))
            (logged records st))).
Proof.
  intros Hm Hvisit Hdocs.
  unfold ParserRuleLoader.visitParserRuleSpec, parser_rule_object.
  unfold bind at 1. unfold ParserRuleLoader.visit_or_raise at 1.
  rewrite Hvisit. unfold ret at 1.
  unfold bind at 1. rewrite Hdocs.
  unfold bind at 1. rewrite (get_model_eq model this) by exact Hm.
  unfold bind at 1. unfold new_rule at 1. cbn [rule_objects logged].
  rewrite (set_parser_rule_eq model this) by exact Hm.
  reflexivity.
Qed.

Lemma load_docs_importance_negative model this st l :
  models st !! model = Some this ->
  load_docs host model [{| text := "//@ doc:importance -3"; tok_line := l |}] st
  = Return {| doc_css_class := ""; doc_importance := -3;
              doc_is_doxygen_inline := false;
              doc_is_doxygen_nodoc := false; doc_name := None;
              doc_documentation := "" |}
      (logged [(ERROR, MsgImportanceNegative
                         {| file := _path this;
                            line := l + _offset this |})] st).
Proof.
  intros Hm. unfold load_docs, load_docs_loop, load_docs_token.
  unfold bind at 1. unfold bind at 1. unfold bind at 1.
  rewrite (get_model_eq model this) by exact Hm.
  cbn [text tok_line].
  change (Py.startswith "//@ doc:importance -3" "//@") with true.
  cbv iota. rewrite load_docs_command_importance_negative. reflexivity.
Qed.

End Registration.

(** ** Claims on the documentation extractor and on registration *)

Section RuleClaims.

(** C1, as stated, fails: the token [//@ importance -3] lacks the
    [doc:] that the pattern asks for, so it is reported as an invalid
    command and the importance stays at its default, 1. *)
Lemma importance_directive_without_doc :
  load_docs Demo.host 0
    [{| text := "//@ importance -3"; tok_line := 7 |}] Demo.two_models
  = Return {| doc_css_class := ""; doc_importance := 1;
              doc_is_doxygen_inline := false;
              doc_is_doxygen_nodoc := false; doc_name := None;
              doc_documentation := "" |}
      (logged [(ERROR, MsgInvalidCommand
                         {| file := "<in-memory>"; line := 7 |}
                         "//@ importance -3")] Demo.two_models)
  /\ ~ (exists info st',
           load_docs Demo.host 0
             [{| text := "//@ importance -3"; tok_line := 7 |}]
             Demo.two_models = Return info st'
           /\ doc_importance info = (-3)%Z).
Proof.
  assert (H : load_docs Demo.host 0
    [{| text := "//@ importance -3"; tok_line := 7 |}] Demo.two_models
  = Return {| doc_css_class := ""; doc_importance := 1;
              doc_is_doxygen_inline := false;
              doc_is_doxygen_nodoc := false; doc_name := None;
              doc_documentation := "" |}
      (logged [(ERROR, MsgInvalidCommand
                         {| file := "<in-memory>"; line := 7 |}
                         "//@ importance -3")] Demo.two_models))
    by reflexivity.
  split; [exact H|].
  intros (info & st' & Hrun & Himp). rewrite H in Hrun.
  injection Hrun as <- _. discriminate.
Qed.

(** C1 (amended): for a rule whose comment run is the one token
    [//@ doc:importance -3], extraction yields the importance -3 for
    that rule and reports exactly one diagnostic, the warning on the
    negative value; and every token whose text begins with [//@] is
    matched against the pattern [//@ doc : <command> <rest-of-line>]:
    one that does not match is reported as an invalid command and
    changes nothing, one that matches has that shape.  The rule is
    that of the parser, or that of the lexer when its body can be
    visited; a lexer rule with an alternative without elements ends
    the call before its comments are read. *)
Theorem importance_directive
        (host : Host) (model : loc) (this : ModelImpl) (st : State)
        (l : Z) (Hm : models st !! model = Some this) :
  let token := {| text := "//@ doc:importance -3"; tok_line := l |} in
  let warning :=
    (ERROR, MsgImportanceNegative
              {| file := _path this; line := l + _offset this |}) in
  (exists info,
      load_docs host model [token] st = Return info (logged [warning] st)
      /\ doc_importance info = (-3)%Z)
  /\ (forall ctx, lexer_docs ctx = [token] ->
      match LexerRuleLoader.visit model (lexerRuleBlock ctx) with
      | Some content =>
          exists st' obj,
            LexerRuleLoader.visitLexerRuleSpec host model ctx st
            = Return tt st'
            /\ log st' = log st ++ [warning]
            /\ rule_objects st' = rule_objects st ++ [ALexerRule obj]
            /\ lr_name obj = lexer_name ctx
            /\ lr_content obj = content
            /\ lr_importance obj = (-3)%Z
      | None =>
          LexerRuleLoader.visitLexerRuleSpec host model ctx st
          = Raise AttributeError st
      end)
  /\ (forall ctx, parser_docs ctx = [token] ->
      exists st' obj,
        ParserRuleLoader.visitParserRuleSpec host model ctx st
        = Return tt st'
        /\ log st' = log st ++ [warning]
        /\ rule_objects st' = rule_objects st ++ [AParserRule obj]
        /\ pr_name obj = parser_name ctx
        /\ pr_importance obj = (-3)%Z)
  /\ (forall t l' v, Py.startswith t "//@" = true ->
      match Re.match_ CMD_RE t with
      | None =>
          load_docs_token host model {| text := t; tok_line := l' |} v st
          = Return v
              (logged [(ERROR, MsgInvalidCommand
                                 {| file := _path this;
                                    line := l' + _offset this |} t)] st)
      | Some m =>
          exists w1 w2 w3 cmd w4 ctx rest,
            Py.chars t
            = Py.chars "//@" ++ w1 ++ Py.chars "doc" ++ w2
              ++ Py.chars ":" ++ w3 ++ cmd ++ w4 ++ ctx ++ rest
            /\ forallb Py.isspace w1 = true
            /\ forallb Py.isspace w2 = true
            /\ forallb Py.isspace w3 = true
            /\ forallb Py.isspace w4 = true
            /\ cmd <> [] /\ forallb Re.word_or_dash cmd = true
            /\ forallb Re.dot ctx = true
            /\ Re.group m "cmd" = Py.str cmd
            /\ Re.group m "ctx" = Py.str ctx
      end).
Proof.
  intros token warning.
  pose proof (load_docs_importance_negative host model this st l Hm) as Hdocs.
  fold token in Hdocs. fold warning in Hdocs.
  split; [|split; [|split]].
  - eexists. split; [exact Hdocs|reflexivity].
  - intros ctx Hctx.
    rewrite <- Hctx in Hdocs.
    destruct (LexerRuleLoader.visit model (lexerRuleBlock ctx))
      as [content|] eqn:Hvisit.
    + eexists _, _. split.
      * exact (visitLexerRuleSpec_registers host model this ctx st _ _ _
                 Hm Hvisit Hdocs).
      * repeat split; reflexivity.
    + by apply visitLexerRuleSpec_raises.
  - intros ctx Hctx.
    rewrite <- Hctx in Hdocs.
    destruct (parser_visit_returns model (ruleBlock ctx))
      as [content Hvisit].
    eexists _, _. split.
    + exact (visitParserRuleSpec_registers host model this ctx st _ _ _
               Hm Hvisit Hdocs).
    + repeat split; reflexivity.
  - intros t l' v Hstart.
    destruct (Re.match_ CMD_RE t) as [m|] eqn:E.
    + by apply CMD_RE_shape.
    + unfold load_docs_token. unfold bind.
      rewrite (get_model_eq model this) by exact Hm.
      cbn [text tok_line]. rewrite Hstart.
      unfold load_docs_command. rewrite E. reflexivity.
Qed.

Lemma importance_directive_witness :
  exists info,
    load_docs Demo.host 1
      [{| text := "//@ doc:importance -3"; tok_line := 7 |}]
      Demo.two_models
    = Return info
        (logged [(ERROR, MsgImportanceNegative
                           {| file := "/g/G.g4"; line := 7 |})]
                Demo.two_models)
    /\ doc_importance info = (-3)%Z.
Proof.
  exact (proj1 (importance_directive Demo.host 1
                  (ModelImpl.__init__ "/g/G.g4" 0 false)
                  Demo.two_models 7 eq_refl)).
Defined.

(** C9: a lexer rule whose content is a [Literal] is registered under
    its name and under the text of the literal, and both look-ups give
    the address of the one new rule object; a rule with any other
    content, [EMPTY] for the empty literal included, is registered
    under its name only.  The content is what is built from the body,
    in which an action counts for nothing; a body with an alternative
    without elements cannot be visited, and the call raises before
    anything is registered. *)
Theorem literal_rule_registered_twice
        (host : Host) (model : loc) (this : ModelImpl) (st : State)
        (ctx : LexerRuleSpecContext)
        (Hm : models st !! model = Some this)
        (Hdocs : Forall (fun token => text token <> ""%string)
                        (lexer_docs ctx)) :
  let rule := length (rule_objects st) in
  match LexerRuleLoader.visit model (lexerRuleBlock ctx) with
  | Some content =>
      exists st' this' obj,
        LexerRuleLoader.visitLexerRuleSpec host model ctx st = Return tt st'
        /\ models st' !! model = Some this'
        /\ rule_objects st !! rule = None
        /\ rule_objects st' !! rule = Some (ALexerRule obj)
        /\ lr_name obj = lexer_name ctx
        /\ lr_content obj = content
        /\ ModelImpl.lookup_local this' (lexer_name ctx) = Some rule
        /\ match content with
           | Literal literal =>
               lr_is_literal obj = true
               /\ ModelImpl.lookup_local this' literal = Some rule
               /\ _lexer_rules this'
                  = <[literal := rule]>
                      (<[lexer_name ctx := rule]> (_lexer_rules this))
           | _ =>
               lr_is_literal obj = false
               /\ _lexer_rules this'
                  = <[lexer_name ctx := rule]> (_lexer_rules this)
           end
  | None =>
      LexerRuleLoader.visitLexerRuleSpec host model ctx st
      = Raise AttributeError st
  end
  /\ (LexerRuleLoader.visit model (lexerRuleBlock ctx) = None
      <-> lexer_alts_present (lexerRuleBlock ctx) = false)
  /\ LexerRuleLoader.visitTerminalLit "''" = EMPTY
  /\ LexerRuleLoader.visit model
       (LexerElements [LexerElementAtom (LTerminalLit "''") None])
     = Some EMPTY.
Proof.
  intros rule. split; [|split; [|split; reflexivity]].
  - destruct (LexerRuleLoader.visit model (lexerRuleBlock ctx))
      as [content|] eqn:Hvisit; [|by apply visitLexerRuleSpec_raises].
    destruct (load_docs_only_logs host model this (lexer_docs ctx) st Hm Hdocs)
      as (info & records & Hload).
    pose proof (visitLexerRuleSpec_registers host model this ctx st info
                  records content Hm Hvisit Hload) as Hrun.
    fold rule in Hrun.
    eexists _, _, _. split; [exact Hrun|].
    split; [apply lookup_with_models with (this := this); exact Hm|].
    split; [apply lookup_ge_None; unfold rule; lia|].
    split.
    { cbn [with_models with_rule rule_objects logged].
      unfold rule. by rewrite lookup_app_r, Nat.sub_diag by lia. }
    split; [reflexivity|]. split; [reflexivity|].
    unfold ModelImpl.lookup_local, lexer_rules_with.
    destruct content;
      cbn [with_lexer_rules _lexer_rules is_Literal lexer_rule_object
           lr_is_literal];
      rewrite ?lookup_insert_eq; try (split; [reflexivity|]);
      try (repeat split; reflexivity).
    destruct (decide (content = lexer_name ctx)) as [->|Hne].
    + rewrite lookup_insert_eq. repeat split; reflexivity.
    + rewrite lookup_insert_ne, lookup_insert_eq by exact Hne.
      repeat split; reflexivity.
  - pose proof (lexer_visit_returns model (lexerRuleBlock ctx)) as H.
    destruct (LexerRuleLoader.visit model (lexerRuleBlock ctx)) as [r|].
    + split; [discriminate|]. intros Hno.
      rewrite (proj1 H ltac:(by eexists)) in Hno. discriminate.
    + split; [|reflexivity]. intros _.
      apply not_true_is_false. intros Ht. by destruct (proj2 H Ht).
Qed.

Lemma literal_rule_registered_twice_witness :
  exists st' this',
    LexerRuleLoader.visitLexerRuleSpec Demo.host 1 Demo.action_rule
      Demo.two_models = Return tt st'
    /\ models st' !! 1 = Some this'
    /\ ModelImpl.lookup_local this' "B" = Some 0
    /\ ModelImpl.lookup_local this' "'b'" = Some 0.
Proof.
  destruct (proj1 (literal_rule_registered_twice Demo.host 1
                     (ModelImpl.__init__ "/g/G.g4" 0 false) Demo.two_models
                     Demo.action_rule eq_refl ltac:(constructor)))
    as (st' & this' & obj & Hrun & Hthis & _ & _ & _ & _ & Hname & Hlit).
  exists st', this'. split; [exact Hrun|]. split; [exact Hthis|].
  split; [exact Hname|]. exact (proj1 (proj2 Hlit)).
Defined.

End RuleClaims.

(** ** Frames: what a load leaves untouched *)

Section Frames.

Lemma kept_refl o : kept o o.
Proof. repeat split; reflexivity. Qed.

Lemma kept_trans o1 o2 o3 : kept o1 o2 -> kept o2 o3 -> kept o1 o3.
Proof.
  intros (Hm & Hp & Ho & Hi) (Hm' & Hp' & Ho' & Hi').
  repeat split; try congruence.
  intros H. rewrite Hi', Hi; congruence.
Qed.

Lemma step_refl n st : step n st st.
Proof.
  split; auto.
  intros a o H. exists o. split; [exact H|apply kept_refl].
Qed.

Lemma step_trans n st1 st2 st3 :
  step n st1 st2 -> step n st2 st3 -> step n st1 st3.
Proof.
  intros [B1 L1 K1 C1 O1] [B2 L2 K2 C2 O2]. split.
  - intros a Ha. rewrite B2, B1 by exact Ha. reflexivity.
  - lia.
  - intros a o H. destruct (K1 a o H) as (o' & H' & Hk).
    destruct (K2 a o' H') as (o'' & H'' & Hk').
    exists o''. split; [exact H''|by eapply kept_trans].
  - by etransitivity.
  - auto.
Qed.

Lemma step_mono n n' st st' : n' <= n -> step n st st' -> step n' st st'.
Proof.
  intros Hle [B L K C O]. split; auto.
  intros a Ha. apply B. lia.
Qed.

(** A step that leaves the model objects and the memoized paths alone *)
Lemma step_same n st st' :
  models st' = models st -> _loaded st' = _loaded st -> step n st st'.
Proof.
  intros Hm Hl. split.
  - intros a _. by rewrite Hm.
  - by rewrite Hm.
  - intros a o H. exists o. rewrite Hm. split; [exact H|apply kept_refl].
  - by rewrite Hl.
  - unfold cache_ok. rewrite Hm, Hl. auto.
Qed.

Lemma keeps_ret n {A} (a : A) : keeps n (ret a).
Proof. intros st a' st' _ H. injection H as <- <-. apply step_refl. Qed.

Lemma keeps_raise n {A} e : keeps n (@raise A e).
Proof. intros st a st' _ H. discriminate. Qed.

Lemma keeps_bind n {A B} (m : M A) (f : A -> M B) :
  keeps n m -> (forall a, keeps n (f a)) -> keeps n (bind m f).
Proof.
  intros Hm Hf st b st' Hn H. unfold bind in H.
  destruct (m st) as [a st1| |] eqn:E; try discriminate.
  pose proof (Hm st a st1 Hn E) as H1.
  eapply step_trans; [exact H1|].
  eapply Hf; [|exact H]. pose proof (step_length _ _ _ H1). lia.
Qed.

Lemma keeps_for_each n {A} (l : list A) (body : A -> M unit) :
  (forall x, keeps n (body x)) -> keeps n (for_each l body).
Proof.
  intros Hb. induction l as [|x l IH]; simpl.
  - apply keeps_ret.
  - apply keeps_bind; [apply Hb|]. intros _. exact IH.
Qed.

Lemma keeps_log_only n {A} (m : M A) : log_only m -> keeps n m.
Proof.
  intros Hm st a st' _ H. destruct (Hm st a st' H) as (records & ->).
  by apply step_same.
Qed.

Lemma log_only_ret {A} (a : A) : log_only (ret a).
Proof.
  intros st a' st' H. injection H as <- <-. exists [].
  symmetry. apply logged_nil.
Qed.

Lemma log_only_raise {A} e : log_only (@raise A e).
Proof. intros st a st' H. discriminate. Qed.

Lemma log_only_bind {A B} (m : M A) (f : A -> M B) :
  log_only m -> (forall a, log_only (f a)) -> log_only (bind m f).
Proof.
  intros Hm Hf st b st' H. unfold bind in H.
  destruct (m st) as [a st1| |] eqn:E; try discriminate.
  destruct (Hm st a st1 E) as (l1 & ->).
  destruct (Hf a _ b st' H) as (l2 & ->).
  exists (l1 ++ l2). apply logged_logged.
Qed.

Lemma log_only_error msg : log_only (logger_error msg).
Proof. intros st a st' H. injection H as <-. by exists [(ERROR, msg)]. Qed.

Lemma log_only_warning msg : log_only (logger_warning msg).
Proof. intros st a st' H. injection H as <-. by exists [(WARNING, msg)]. Qed.

Lemma log_only_get_model model : log_only (get_model model).
Proof.
  intros st a st' H. unfold get_model in H.
  destruct (models st !! model); [|discriminate].
  injection H as <- <-. exists []. symmetry. apply logged_nil.
Qed.

Lemma log_only_for_each {A} (l : list A) (body : A -> M unit) :
  (forall x, log_only (body x)) -> log_only (for_each l body).
Proof.
  intros Hb. induction l as [|x l IH]; simpl.
  - apply log_only_ret.
  - apply log_only_bind; [apply Hb|]. intros _. exact IH.
Qed.

End Frames.

Ltac log_only_steps :=
  repeat first
    [ apply log_only_ret
    | apply log_only_raise
    | apply log_only_error
    | apply log_only_warning
    | apply log_only_get_model
    | apply log_only_bind; [|intros]
    | match goal with
      | |- log_only (match ?x with _ => _ end) => destruct x
      | |- log_only (if ?x then _ else _) => destruct x
      | |- log_only (let (_, _) := ?x in _) => destruct x
      end ].

Section FramesOfLoaders.

Variable host : Host.

Lemma log_only_load_docs model tokens :
  log_only (load_docs host model tokens).
Proof.
  unfold load_docs. apply log_only_bind; [|intros; apply log_only_ret].
  generalize Docs.initial.
  induction tokens as [|token rest IH]; intros v; simpl.
  - apply log_only_ret.
  - apply log_only_bind; [|intros; apply IH].
    unfold load_docs_token. apply log_only_bind; [apply log_only_get_model|].
    intros this. destruct (Py.startswith _ _).
    + unfold load_docs_command, argument_check. log_only_steps.
    + unfold load_docs_text. log_only_steps.
Qed.

Lemma step_put n m (o o' : ModelImpl) st :
  n <= m -> models st !! m = Some o -> kept o o' ->
  step n st (with_models (<[m := o']> (models st)) st).
Proof.
  intros Hle Hm Hk. pose proof (lookup_lt_Some _ _ _ Hm) as Hlt. split.
  - intros a Ha. simpl. apply list_lookup_insert_ne. lia.
  - simpl. by rewrite length_insert.
  - intros a x Ha. simpl. destruct (decide (a = m)) as [->|Hne].
    + exists o'. rewrite list_lookup_insert_eq by exact Hlt.
      split; [reflexivity|congruence].
    + exists x. rewrite list_lookup_insert_ne by congruence.
      split; [exact Ha|apply kept_refl].
  - reflexivity.
  - intros Hok path model Hl. simpl in Hl.
    destruct (Hok path model Hl) as (x & Hx & Hmem). simpl.
    destruct (decide (model = m)) as [->|Hne].
    + exists o'. rewrite list_lookup_insert_eq by exact Hlt.
      split; [reflexivity|]. destruct Hk as (Hk & _).
      pose proof (eq_trans (eq_sym Hx) Hm) as Heq.
      injection Heq as ->. by rewrite Hk.
    + exists x. rewrite list_lookup_insert_ne by congruence. auto.
Qed.

Lemma keeps_set_lexer_rule n name rule :
  keeps n (ModelImpl.set_lexer_rule n name rule).
Proof.
  intros st a st' _ H. unfold ModelImpl.set_lexer_rule, bind, get_model in H.
  destruct (models st !! n) as [this|] eqn:E; [|discriminate].
  inversion H; subst; clear H.
  eapply (step_put n n this); [lia|exact E|].
  repeat split; reflexivity.
Qed.

Lemma keeps_set_parser_rule n name rule :
  keeps n (ModelImpl.set_parser_rule n name rule).
Proof.
  intros st a st' _ H. unfold ModelImpl.set_parser_rule, bind, get_model in H.
  destruct (models st !! n) as [this|] eqn:E; [|discriminate].
  inversion H; subst; clear H.
  eapply (step_put n n this); [lia|exact E|].
  repeat split; reflexivity.
Qed.

Lemma keeps_add_import n imported :
  keeps n (ModelImpl.add_import n imported).
Proof.
  intros st a st' _ H. unfold ModelImpl.add_import, bind, get_model in H.
  destruct (models st !! n) as [this|] eqn:E; [|discriminate].
  destruct (ModelImpl.is_in_memory this) eqn:Em; [discriminate|].
  destruct (models st !! imported) as [other|]; [|discriminate].
  destruct (ModelImpl.is_in_memory other); [discriminate|].
  inversion H; subst; clear H.
  eapply (step_put n n this); [lia|exact E|].
  repeat split; try reflexivity.
  unfold ModelImpl.is_in_memory in Em. congruence.
Qed.

Lemma keeps_new_rule n r : keeps n (new_rule r).
Proof. intros st a st' _ H. injection H as <- <-. by apply step_same. Qed.

Lemma keeps_new_model n o : keeps n (new_model o).
Proof.
  intros st a st' Hn H. injection H as <- <-. split; simpl.
  - intros a Ha. apply lookup_app_l. lia.
  - rewrite length_app. lia.
  - intros a x Ha. exists x. split; [|apply kept_refl].
    rewrite lookup_app_l; [exact Ha|by eapply lookup_lt_Some].
  - reflexivity.
  - intros Hok path model Hl. simpl in Hl.
    destruct (Hok path model Hl) as (x & Hx & Hmem). exists x. simpl.
    split; [|exact Hmem].
    rewrite lookup_app_l; [exact Hx|by eapply lookup_lt_Some].
Qed.

Lemma keeps_load_docs n model tokens : keeps n (load_docs host model tokens).
Proof. apply keeps_log_only, log_only_load_docs. Qed.

Lemma keeps_get_model n model : keeps n (get_model model).
Proof. apply keeps_log_only, log_only_get_model. Qed.

Lemma keeps_logger_error n msg : keeps n (logger_error msg).
Proof. apply keeps_log_only, log_only_error. Qed.

Lemma keeps_visitLexerRuleSpec n ctx :
  keeps n (LexerRuleLoader.visitLexerRuleSpec host n ctx).
Proof.
  unfold LexerRuleLoader.visitLexerRuleSpec.
  apply keeps_bind.
  { unfold LexerRuleLoader.visit_or_raise.
    destruct (LexerRuleLoader.visit n (lexerRuleBlock ctx));
      [apply keeps_ret|apply keeps_raise]. }
  intros content.
  apply keeps_bind; [apply keeps_load_docs|]. intros info.
  destruct content;
    (apply keeps_bind; [apply keeps_get_model|]; intros this;
     apply keeps_bind; [apply keeps_new_rule|]; intros rule;
     apply keeps_bind; [apply keeps_set_lexer_rule|]; intros _;
     first [apply keeps_ret | apply keeps_set_lexer_rule]).
Qed.

Lemma keeps_lexer_loader n tree :
  keeps n (LexerRuleLoader.visitGrammarSpec host n tree).
Proof.
  unfold LexerRuleLoader.visitGrammarSpec.
  apply keeps_bind; [|intros _]; apply keeps_for_each.
  - intros [ctx|ctx]; simpl;
      [apply keeps_ret|apply keeps_visitLexerRuleSpec].
  - intros ctx. unfold LexerRuleLoader.visitModeSpec.
    apply keeps_for_each, keeps_visitLexerRuleSpec.
Qed.

Lemma keeps_parser_loader n tree :
  keeps n (ParserRuleLoader.visitGrammarSpec host n tree).
Proof.
  unfold ParserRuleLoader.visitGrammarSpec. apply keeps_for_each.
  intros [ctx|ctx]; simpl; [|apply keeps_ret].
  unfold ParserRuleLoader.visitParserRuleSpec.
  apply keeps_bind.
  { unfold ParserRuleLoader.visit_or_raise.
    destruct (ParserRuleLoader.visit n (ruleBlock ctx));
      [apply keeps_ret|apply keeps_raise]. }
  intros content.
  apply keeps_bind; [apply keeps_load_docs|]. intros info.
  apply keeps_bind; [apply keeps_get_model|]. intros this.
  apply keeps_bind; [apply keeps_new_rule|]. intros rule.
  apply keeps_set_parser_rule.
Qed.

Section Meta.

Variable from_file : PathArg -> M loc.
Hypothesis from_file_loads : loads host from_file.

Lemma keeps_from_file n path : keeps n (from_file path).
Proof.
  intros st model st' Hn H.
  destruct (from_file_loads path st model st' H) as [Hstep _].
  eapply step_mono; [|exact Hstep]. lia.
Qed.

Lemma keeps_meta_add_import n basedir name position :
  keeps n (MetaLoader.add_import host from_file n basedir name position).
Proof.
  unfold MetaLoader.add_import.
  apply keeps_bind; [apply keeps_get_model|]. intros this.
  destruct (ModelImpl.is_in_memory this); [apply keeps_logger_error|].
  destruct basedir as [basedir|]; [|apply keeps_raise].
  apply keeps_bind; [apply keeps_from_file|]. intros imported.
  apply keeps_add_import.
Qed.

Lemma keeps_meta_loader n basedir tree :
  keeps n (MetaLoader.visitGrammarSpec host from_file n basedir tree).
Proof.
  unfold MetaLoader.visitGrammarSpec. apply keeps_for_each.
  intros [options|grammars|defs|]; simpl.
  - apply keeps_for_each. intros ctx. unfold MetaLoader.visitOption.
    destruct (String.eqb _ _); [|apply keeps_ret].
    apply keeps_bind; [apply keeps_get_model|]. intros this.
    apply keeps_meta_add_import.
  - apply keeps_for_each. intros ctx.
    unfold MetaLoader.visitDelegateGrammar.
    apply keeps_bind; [apply keeps_get_model|]. intros this.
    apply keeps_meta_add_import.
  - unfold MetaLoader.visitTokensSpec.
    destruct defs as [tokens|]; [|apply keeps_raise].
    apply keeps_for_each. intros token.
    apply keeps_bind; [apply keeps_get_model|]. intros this.
    apply keeps_raise.
  - apply keeps_ret.
Qed.

End Meta.

End FramesOfLoaders.

(** ** The cache *)

Section Cache.

Variable host : Host.

Lemma for_each_syntaxError path offset reports st :
  for_each reports (ModelCacheImpl.syntaxError path offset) st
  = Return tt (logged (syntax_records path offset reports) st).
Proof.
  revert st. induction reports as [|e reports IH]; intros st; simpl.
  - by rewrite logged_nil.
  - unfold bind. unfold ModelCacheImpl.syntaxError at 1.
    rewrite logger_error_logged, IH, logged_logged. reflexivity.
Qed.

(** The first half of [_do_load], up to the test on the number of
    syntax errors. *)
Lemma _do_load_unfold from_file text path offset in_memory st :
  let parsed := grammarSpec host text in
  let model := length (models st) in
  let o := ModelImpl.__init__ path offset in_memory in
  let st1 := parsed_into o (syntax_records path offset (reports parsed)) st in
  ModelCacheImpl._do_load host from_file text path offset in_memory st
  = if 0 <? getNumberOfSyntaxErrors parsed then Return model st1
    else
      (MetaLoader.visitGrammarSpec host from_file model
         (MetaLoader.__init__basedir host o) (tree parsed) >>
       LexerRuleLoader.visitGrammarSpec host model (tree parsed) >>
       ParserRuleLoader.visitGrammarSpec host model (tree parsed) >>
       ret model) st1.
Proof.
  intros parsed model o st1. unfold ModelCacheImpl._do_load.
  unfold bind at 1. unfold ModelCacheImpl.count_parse at 1.
  unfold bind at 1. rewrite for_each_syntaxError.
  unfold bind at 1. unfold new_model at 1. cbv beta.
  match goal with |- _ ?s = _ => change s with st1 end.
  assert (Hst1 : models st1 !! model = Some o).
  { unfold st1, model. simpl.
    by rewrite lookup_app_r, Nat.sub_diag by lia. }
  clearbody st1. cbn [models logged]. fold parsed. fold o. fold model.
  destruct (0 <? getNumberOfSyntaxErrors parsed); [reflexivity|].
  unfold bind at 1.
  rewrite (get_model_eq model o st1) by exact Hst1. reflexivity.
Qed.

Lemma step_parsed_into o records st :
  step (length (models st)) st (parsed_into o records st).
Proof.
  split; simpl.
  - intros a Ha. by apply lookup_app_l.
  - rewrite length_app. lia.
  - intros a x Ha. exists x. split; [|apply kept_refl].
    rewrite lookup_app_l; [exact Ha|by eapply lookup_lt_Some].
  - reflexivity.
  - intros Hok path model Hl. simpl in Hl.
    destruct (Hok path model Hl) as (x & Hx & Hmem). exists x. simpl.
    split; [|exact Hmem].
    rewrite lookup_app_l; [exact Hx|by eapply lookup_lt_Some].
Qed.

Lemma _do_load_step from_file text path offset in_memory st model st' :
  loads host from_file ->
  ModelCacheImpl._do_load host from_file text path offset in_memory st
  = Return model st' ->
  model = length (models st)
  /\ step (length (models st)) st st'
  /\ exists o, models st' !! model = Some o
               /\ kept (ModelImpl.__init__ path offset in_memory) o.
Proof.
  intros Hff H. rewrite _do_load_unfold in H.
  set (o := ModelImpl.__init__ path offset in_memory) in *.
  set (records := syntax_records _ _ _) in *.
  set (n := length (models st)) in *.
  assert (Hn : models (parsed_into o records st) !! n = Some o).
  { simpl. unfold n. by rewrite lookup_app_r, Nat.sub_diag by lia. }
  assert (Hstep : step n (parsed_into o records st) st'
                  /\ model = n).
  { destruct (0 <? _).
    - injection H as <- <-. split; [apply step_refl|reflexivity].
    - assert (Hlt : n < length (models (parsed_into o records st)))
        by (by eapply lookup_lt_Some).
      unfold bind in H.
      destruct (MetaLoader.visitGrammarSpec _ _ _ _ _ _)
        as [[] st1| |] eqn:E1; try discriminate.
      pose proof (keeps_meta_loader host from_file Hff n _ _ _ _ _ Hlt E1)
        as S1.
      pose proof (step_length _ _ _ S1) as L1.
      destruct (LexerRuleLoader.visitGrammarSpec _ _ _ _)
        as [[] st2| |] eqn:E2; try discriminate.
      pose proof (Nat.lt_le_trans _ _ _ Hlt L1) as Hlt1.
      pose proof (keeps_lexer_loader host n _ _ _ _ Hlt1 E2) as S2.
      pose proof (step_length _ _ _ S2) as L2.
      destruct (ParserRuleLoader.visitGrammarSpec _ _ _ _)
        as [[] st3| |] eqn:E3; try discriminate.
      pose proof (Nat.lt_le_trans _ _ _ Hlt1 L2) as Hlt2.
      pose proof (keeps_parser_loader host n _ _ _ _ Hlt2 E3) as S3.
      injection H as <- <-.
      split; [|reflexivity].
      eapply step_trans; [exact S1|]. eapply step_trans; [exact S2|exact S3]. }
  destruct Hstep as [Hstep ->].
  split; [reflexivity|]. split.
  - eapply step_trans; [apply step_parsed_into|exact Hstep].
  - apply (step_kept _ _ _ Hstep n o Hn).
Qed.

Lemma step_memoized path model o st0 st :
  _loaded st0 !! path = None ->
  step (length (models st0)) st0 st ->
  models st !! model = Some o -> _in_memory o = false ->
  step (length (models st0)) st0 (memoized path model st).
Proof.
  intros Hnone [B L K C O] Hm Hmem. split; simpl; auto.
  - apply map_subseteq_spec. intros q x Hq.
    rewrite lookup_insert_ne; [by eapply map_subseteq_spec|].
    intros <-. congruence.
  - intros Hok q x Hq. simpl in Hq.
    destruct (decide (path = q)) as [<-|Hne].
    + rewrite lookup_insert_eq in Hq. injection Hq as <-. eauto.
    + rewrite lookup_insert_ne in Hq by exact Hne. by apply (O Hok q).
Qed.

(** [from_file], where it returns, has untouched what was there, and
    holds the model it returns under the normalized path. *)
Lemma from_file_loads fuel : loads host (ModelCacheImpl.from_file host fuel).
Proof.
  induction fuel as [|fuel IH]; intros path st model st' H; [discriminate|].
  simpl in H. destruct (ModelCacheImpl.unpack path) as [p offset] eqn:Ep.
  cbn [fst]. set (key := abspath_normpath host p) in *.
  unfold bind at 1 in H. unfold ModelCacheImpl.get_loaded at 1 in H.
  destruct (_loaded st !! key) as [cached|] eqn:Ec.
  - injection H as <- <-. split; [apply step_refl|exact Ec].
  - destruct (disk host key) as [|content|].
    + unfold bind in H. simpl in H. injection H as <- <-.
      split; [|simpl; apply lookup_insert_eq].
      pose (o := ModelImpl.__init__ key offset false).
      pose (st1 := parsed_into o [] st).
      eapply (step_mono (length (models st))); [lia|].
      split; simpl.
      * intros a Ha. by apply lookup_app_l.
      * rewrite length_app. lia.
      * intros a x Ha. exists x. split; [|apply kept_refl].
        rewrite lookup_app_l; [exact Ha|by eapply lookup_lt_Some].
      * by apply insert_subseteq.
      * intros Hok q x Hq. cbn [_loaded] in Hq.
        destruct (decide (key = q)) as [<-|Hne].
        -- rewrite lookup_insert_eq in Hq. injection Hq as <-.
           exists o. split; [|reflexivity]. cbn [models].
           by rewrite lookup_app_r, Nat.sub_diag by lia.
        -- rewrite lookup_insert_ne in Hq by exact Hne.
           destruct (Hok q x Hq) as (y & Hy & Hmem). exists y.
           split; [|exact Hmem]. cbn [models].
           rewrite lookup_app_l; [exact Hy|by eapply lookup_lt_Some].
    + unfold bind at 1 in H.
      destruct (ModelCacheImpl._do_load _ _ _ _ _ _ _) as [m st1| |] eqn:E;
        try discriminate.
      apply _do_load_step in E as (-> & Hstep & o & Ho & Hk); [|exact IH].
      unfold bind in H. simpl in H. injection H as <- <-.
      split; [|simpl; apply lookup_insert_eq].
      eapply (step_memoized key _ o st st1); try assumption.
      destruct Hk as (-> & _). reflexivity.
    + discriminate.
Qed.

End Cache.

(** ** Claims on the cache *)

Section CacheClaims.

Lemma later_loaded host st st' : later host st st' -> _loaded st ⊆ _loaded st'.
Proof.
  induction 1 as [st|st st1 st2 fuel path model _ IH H
                    |st st1 st2 fuel text path model _ IH H].
  - reflexivity.
  - etransitivity; [exact IH|].
    apply from_file_loads in H as [Hstep _]. apply (step_loaded _ _ _ Hstep).
  - etransitivity; [exact IH|].
    unfold ModelCacheImpl.from_text in H.
    destruct (ModelCacheImpl.unpack path) as [p offset].
    apply _do_load_step in H as (_ & Hstep & _);
      [|apply from_file_loads].
    apply (step_loaded _ _ _ Hstep).
Qed.

(** C2: when a call of [from_file] has returned a model, every later
    call on the same cache with a path that normalizes to the same
    absolute path returns the model at the same address and leaves the
    whole state as it is: no parse is counted, nothing is logged. *)
Theorem from_file_memoizes
        (host : Host) (fuel fuel' : nat) (path1 path2 : PathArg)
        (st st1 st2 : State) (model : loc)
        (Hfirst : ModelCacheImpl.from_file host fuel path1 st
                  = Return model st1)
        (Hlater : later host st1 st2)
        (Hsame : abspath_normpath host (ModelCacheImpl.unpack path1).1
                 = abspath_normpath host (ModelCacheImpl.unpack path2).1) :
  ModelCacheImpl.from_file host (S fuel') path2 st2 = Return model st2.
Proof.
  apply from_file_loads in Hfirst as [_ Hkey].
  pose proof (later_loaded _ _ _ Hlater) as Hsub.
  rewrite Hsame in Hkey.
  pose proof (proj1 (map_subseteq_spec _ _) Hsub _ _ Hkey) as Hkey2.
  simpl. destruct (ModelCacheImpl.unpack path2) as [p offset].
  unfold bind, ModelCacheImpl.get_loaded. simpl in Hkey2.
  by rewrite Hkey2.
Qed.

Lemma from_file_memoizes_witness :
  exists model st1,
    ModelCacheImpl.from_file Demo.host 2 (inl "L.g4"%string) Demo.fresh
    = Return model st1
    /\ ModelCacheImpl.from_file Demo.host 1
         (inr ("/g/L.g4"%string, 5%Z)) st1 = Return model st1.
Proof.
  let r := eval vm_compute in
    (ModelCacheImpl.from_file Demo.host 2 (inl "L.g4"%string)
       Demo.fresh) in
  match r with
  | Return ?m ?s =>
      assert (H : ModelCacheImpl.from_file Demo.host 2
                    (inl "L.g4"%string) Demo.fresh = Return m s)
        by (vm_compute; reflexivity);
      exists m, s; split; [exact H|];
      exact (from_file_memoizes Demo.host 2 0
               (inl "L.g4"%string) (inr ("/g/L.g4"%string, 5%Z))
               Demo.fresh s s m H (later_now _ _) eq_refl)
  end.
Defined.

(** C4, as stated, fails on a path that is memoized already: the
    second load of the missing [/nonexistent.g4] returns the
    placeholder of the first and reports nothing. *)
Lemma from_file_missing_again :
  disk Demo.host (abspath_normpath Demo.host "/nonexistent.g4")
  = NoFile
  /\ ModelCacheImpl.from_file Demo.host 1
       (inl "/nonexistent.g4"%string) Demo.fresh
     = Return 0 Demo.after_missing
  /\ ModelCacheImpl.from_file Demo.host 1
       (inl "/nonexistent.g4"%string) Demo.after_missing
     = Return 0 Demo.after_missing
  /\ ~ (exists model st' record,
           ModelCacheImpl.from_file Demo.host 1
             (inl "/nonexistent.g4"%string) Demo.after_missing
           = Return model st'
           /\ log st' = log Demo.after_missing ++ [record]).
Proof.
  assert (H : ModelCacheImpl.from_file Demo.host 1
                (inl "/nonexistent.g4"%string) Demo.after_missing
              = Return 0 Demo.after_missing) by reflexivity.
  split; [reflexivity|]. split; [reflexivity|]. split; [exact H|].
  intros (model & st' & record & Hrun & Hlog).
  rewrite H in Hrun. injection Hrun as <- <-. discriminate.
Qed.

(** C4 (amended): for a path that does not exist on disk and whose
    normalized form is not memoized yet, [from_file] returns a new
    model object without rules and imports, not in memory, memoizes
    it under the normalized path and reports exactly one diagnostic;
    nothing is parsed. *)
Theorem from_file_missing
        (host : Host) (fuel : nat) (path : PathArg) (st : State)
        (Hnew : _loaded st
                !! abspath_normpath host (ModelCacheImpl.unpack path).1
                = None)
        (Hmissing : disk host
                      (abspath_normpath host (ModelCacheImpl.unpack path).1)
                    = NoFile) :
  let key := abspath_normpath host (ModelCacheImpl.unpack path).1 in
  let offset := (ModelCacheImpl.unpack path).2 in
  let model := length (models st) in
  let placeholder := ModelImpl.__init__ key offset false in
  ModelCacheImpl.from_file host (S fuel) path st
  = Return model
      {| models := models st ++ [placeholder];
         rule_objects := rule_objects st;
         _loaded := <[key := model]> (_loaded st);
         log := log st ++ [(ERROR, MsgFileNotFound key)];
         parses := parses st |}
  /\ (models st ++ [placeholder]) !! model = Some placeholder
  /\ _lexer_rules placeholder = ∅ /\ _parser_rules placeholder = ∅
  /\ _imports placeholder = ∅
  /\ ModelImpl.is_in_memory placeholder = false.
Proof.
  intros key offset model placeholder.
  split; [|split; [|repeat split]].
  - simpl. unfold offset, placeholder, key in *.
    destruct (ModelCacheImpl.unpack path) as [p off]. cbn [fst snd] in *.
    unfold bind at 1. unfold ModelCacheImpl.get_loaded at 1.
    rewrite Hnew, Hmissing. reflexivity.
  - unfold model. by rewrite lookup_app_r, Nat.sub_diag by lia.
Qed.

Lemma from_file_missing_witness :
  ModelCacheImpl.from_file Demo.host 1
    (inl "/nonexistent.g4"%string) Demo.fresh
  = Return 0 Demo.after_missing.
Proof.
  exact (proj1 (from_file_missing Demo.host 0
                  (inl "/nonexistent.g4"%string) Demo.fresh
                  eq_refl eq_refl)).
Defined.

(** C5: when the parser has reported a syntax error, the load still
    returns a model, created empty and left so: the three loaders do
    not run, no rule object is made, and no exception is raised.  So
    for [_do_load], for [from_text] and for [from_file] on a file
    that is read. *)
Theorem syntax_errors_leave_model_empty
        (host : Host) (from_file : PathArg -> M loc) (fuel : nat)
        (text : string) (path : PathArg) (in_memory : bool) (st : State)
        (Herrors : 0 < getNumberOfSyntaxErrors (grammarSpec host text)) :
  let p := (ModelCacheImpl.unpack path).1 in
  let offset := (ModelCacheImpl.unpack path).2 in
  let key := abspath_normpath host p in
  let model := length (models st) in
  let after file flag :=
    parsed_into (ModelImpl.__init__ file offset flag)
      (syntax_records file offset (reports (grammarSpec host text))) st in
  ModelCacheImpl._do_load host from_file text p offset in_memory st
  = Return model (after p in_memory)
  /\ ModelCacheImpl.from_text host fuel text path st
     = Return model (after p true)
  /\ (_loaded st !! key = None -> disk host key = File text ->
      ModelCacheImpl.from_file host (S fuel) path st
      = Return model (memoized key model (after key false)))
  /\ (forall file flag,
         exists o, models (after file flag) !! model = Some o
                   /\ _lexer_rules o = ∅ /\ _parser_rules o = ∅
                   /\ _imports o = ∅)
  /\ (forall file flag,
         rule_objects (after file flag) = rule_objects st).
Proof.
  intros p offset key model after.
  assert (Hload : forall ff path in_memory,
             ModelCacheImpl._do_load host ff text path offset in_memory st
             = Return model (after path in_memory)).
  { intros ff q im. rewrite _do_load_unfold.
    apply Nat.ltb_lt in Herrors. rewrite Herrors. reflexivity. }
  split; [apply Hload|]. split; [|split; [|split]].
  - unfold ModelCacheImpl.from_text. unfold p, offset in *.
    destruct (ModelCacheImpl.unpack path) as [q off]. apply Hload.
  - intros Hnew Hfile. simpl. unfold key, p, offset in *.
    destruct (ModelCacheImpl.unpack path) as [q off]. cbn [fst snd] in *.
    unfold bind at 1. unfold ModelCacheImpl.get_loaded at 1.
    rewrite Hnew, Hfile. unfold bind at 1. rewrite Hload. reflexivity.
  - intros q im. exists (ModelImpl.__init__ q offset im).
    split; [|repeat split; reflexivity].
    unfold after, model. simpl.
    by rewrite lookup_app_r, Nat.sub_diag by lia.
  - reflexivity.
Qed.

Lemma syntax_errors_leave_model_empty_witness :
  exists st',
    ModelCacheImpl.from_file Demo.host 1 (inl "broken.g4"%string)
      Demo.fresh = Return 0 st'
    /\ models st' = [ModelImpl.__init__ "/g/broken.g4" 0 false].
Proof.
  destruct (syntax_errors_leave_model_empty Demo.host
              (ModelCacheImpl.from_file Demo.host 0) 0
              "grammar" (inl "broken.g4"%string) false Demo.fresh
              ltac:(vm_compute; lia))
    as (_ & _ & H & _).
  eexists. split; [apply H; reflexivity|reflexivity].
Defined.

End CacheClaims.

(** ** The meta pass *)

Section MetaPass.

Variable host : Host.

Lemma bind_inv {A B} (m : M A) (f : A -> M B) st b st' :
  bind m f st = Return b st' ->
  exists a st1, m st = Return a st1 /\ f a st1 = Return b st'.
Proof.
  unfold bind. destruct (m st) as [a st1| |]; try discriminate. eauto.
Qed.

Lemma get_model_inv n st this st' :
  get_model n st = Return this st' -> st' = st /\ models st !! n = Some this.
Proof.
  unfold get_model. destruct (models st !! n); [|discriminate].
  intros H. injection H as <- <-. auto.
Qed.

Lemma for_each_app {A} (l1 l2 : list A) (body : A -> M unit) st :
  for_each (l1 ++ l2) body st = (for_each l1 body >> for_each l2 body) st.
Proof.
  revert st. induction l1 as [|x l1 IH]; intros st; [reflexivity|].
  cbn [app for_each]. unfold bind.
  destruct (body x st) as [[] st1| |]; [|reflexivity..].
  rewrite IH. reflexivity.
Qed.

Lemma for_each_keeps {A} (I : State -> Prop) (l : list A)
      (body : A -> M unit) :
  (forall x st st', body x st = Return tt st' -> I st -> I st') ->
  forall st st', for_each l body st = Return tt st' -> I st -> I st'.
Proof.
  intros Hb. induction l as [|x l IH]; intros st st' H Hst.
  - by injection H as <-.
  - simpl in H. apply bind_inv in H as ([] & st1 & H1 & H2).
    eapply IH; [exact H2|]. by eapply Hb.
Qed.

(** A loop whose body is itself a loop of steps is the loop of all
    the steps. *)
Lemma for_each_flat {A B} (P : A -> Prop) (I : State -> Prop)
      (f : A -> list B) (body : A -> M unit) (step : B -> M unit) :
  (forall x st, P x -> I st -> body x st = for_each (f x) step st) ->
  (forall y st st', step y st = Return tt st' -> I st -> I st') ->
  forall l st, Forall P l -> I st ->
               for_each l body st = for_each (flat_map f l) step st.
Proof.
  intros Hbody Hstep l st Hl. revert st.
  induction Hl as [|x l Hx _ IH]; intros st Hst; [reflexivity|].
  cbn [for_each flat_map]. rewrite for_each_app.
  unfold bind. rewrite (Hbody x st Hx Hst).
  destruct (for_each (f x) step st) as [[] st1| |] eqn:E; [|reflexivity..].
  apply IH. by eapply (for_each_keeps I); [exact Hstep|exact E|].
Qed.

Lemma add_import_eq model imported this other st :
  models st !! model = Some this -> _in_memory this = false ->
  models st !! imported = Some other -> _in_memory other = false ->
  ModelImpl.add_import model imported st
  = Return tt
      (with_models
         (<[model := with_imports (_imports this ∪ {[imported]}) this]>
            (models st)) st).
Proof.
  intros Hm Hmem Ho Homem. unfold ModelImpl.add_import.
  unfold bind at 1. rewrite (get_model_eq _ _ _ Hm).
  unfold ModelImpl.is_in_memory. rewrite Hmem.
  unfold bind at 1. rewrite (get_model_eq _ _ _ Ho).
  rewrite Homem. unfold put_model, with_models, with_imports.
  by rewrite ?Hmem.
Qed.

Lemma add_import_inv model imported st st' :
  ModelImpl.add_import model imported st = Return tt st' ->
  exists this,
    models st !! model = Some this /\ _in_memory this = false
    /\ st' = with_models
               (<[model := with_imports (_imports this ∪ {[imported]}) this]>
                  (models st)) st.
Proof.
  intros H. unfold ModelImpl.add_import in H.
  apply bind_inv in H as (this & s & Hget & H).
  apply get_model_inv in Hget as [-> Hm].
  unfold ModelImpl.is_in_memory in H.
  destruct (_in_memory this) eqn:Hmem; [discriminate|].
  apply bind_inv in H as (other & s & Hget & H).
  apply get_model_inv in Hget as [-> Hother].
  destruct (_in_memory other); [discriminate|].
  injection H as <-. exists this. split; [exact Hm|].
  split; [exact Hmem|]. unfold with_models, with_imports. by rewrite Hmem.
Qed.

(** An import from a model of a file: the cache is asked for the
    file, and the model it returns joins the imports. *)
Lemma meta_add_import_file fuel model this basedir name position st :
  models st !! model = Some this -> _in_memory this = false ->
  cache_ok st ->
  MetaLoader.add_import host (ModelCacheImpl.from_file host fuel) model
    (Some basedir) name position st
  = match ModelCacheImpl.from_file host fuel
            (inl (join host basedir (name +:+ ".g4"))) st with
    | Return imported st1 =>
        Return tt
          (with_models
             (<[model := with_imports (_imports this ∪ {[imported]}) this]>
                (models st1)) st1)
    | Raise e st1 => Raise e st1
    | OutOfFuel => OutOfFuel
    end.
Proof.
  intros Hm Hmem Hok. unfold MetaLoader.add_import.
  unfold bind at 1. rewrite (get_model_eq _ _ _ Hm).
  unfold ModelImpl.is_in_memory. rewrite Hmem.
  unfold bind at 1.
  destruct (ModelCacheImpl.from_file _ _ _ _) as [imported st1| |] eqn:E;
    try reflexivity.
  apply from_file_loads in E as [Hstep Hkey].
  pose proof (lookup_lt_Some _ _ _ Hm) as Hlt.
  pose proof (step_below _ _ _ Hstep model Hlt) as Hsame.
  destruct (step_cache _ _ _ Hstep Hok _ _ Hkey) as (other & Ho & Homem).
  assert (Hm1 : models st1 !! model = Some this)
    by (etransitivity; [exact Hsame|exact Hm]).
  exact (add_import_eq _ _ _ _ _ Hm1 Hmem Ho Homem).
Qed.

Lemma tokenVocab_values options :
  flat_map (fun o => if String.eqb (option_name o) "tokenVocab"
                     then [option_value o] else []) options
  = map option_value
      (filter (fun o => option_name o = "tokenVocab"%string) options).
Proof.
  induction options as [|o options IH]; [reflexivity|].
  cbn [flat_map]. rewrite filter_cons.
  destruct (String.eqb_spec (option_name o) "tokenVocab") as [Hname|Hname].
  - rewrite decide_True by exact Hname. simpl. by rewrite IH.
  - rewrite decide_False by exact Hname. simpl. exact IH.
Qed.

Lemma delegate_values (grammars : list DelegateGrammarContext) :
  flat_map (fun g => [delegate_value g]) grammars
  = map delegate_value grammars.
Proof. induction grammars as [|g l IH]; [reflexivity|]. simpl. by rewrite IH. Qed.

Lemma import_declarations_flat constructs :
  import_declarations {| prequel := constructs; rules := []; modes := [] |}
  = flat_map
      (fun ctx =>
         match ctx with
         | OptionsSpec options =>
             flat_map (fun o => if String.eqb (option_name o) "tokenVocab"
                                then [option_value o] else []) options
         | DelegateGrammars grammars =>
             flat_map (fun g => [delegate_value g]) grammars
         | TokensSpec _ | ChannelsSpecOrAction => []
         end) constructs.
Proof.
  unfold import_declarations. cbn [prequel]. apply flat_map_ext.
  intros [options|grammars|defs|]; try reflexivity;
    first [by rewrite tokenVocab_values|by rewrite delegate_values].
Qed.

(** The meta pass as a loop over the import declarations, for any
    step [step] that each declaration comes to. *)
Lemma meta_pass_flat from_file model basedir (I : State -> Prop)
      (step : string -> M unit) constructs st :
  (forall name position st,
      I st ->
      MetaLoader.add_import host from_file model basedir name position st
      = step name st) ->
  (forall st, I st -> exists this, get_model model st = Return this st) ->
  (forall V st st', step V st = Return tt st' -> I st -> I st') ->
  forallb no_tokens constructs = true -> I st ->
  for_each constructs
    (MetaLoader.visitPrequelConstruct host from_file model basedir) st
  = for_each
      (import_declarations
         {| prequel := constructs; rules := []; modes := [] |}) step st.
Proof.
  intros Hadd Hget Hstep Hno Hst. rewrite import_declarations_flat.
  apply (for_each_flat (fun ctx => no_tokens ctx = true) I);
    [|exact Hstep|by apply Forall_forallb|exact Hst].
  clear st Hst. intros [options|grammars|defs|] st Hx Hst;
    cbn [MetaLoader.visitPrequelConstruct]; [| |discriminate|reflexivity].
  - apply (for_each_flat (fun _ => True) I);
      [|exact Hstep|by apply Forall_true|exact Hst].
    clear st Hst. intros o st _ Hst. unfold MetaLoader.visitOption.
    destruct (String.eqb _ _); [|reflexivity].
    destruct (Hget st Hst) as [this Hthis].
    unfold bind at 1. rewrite Hthis. rewrite (Hadd _ _ _ Hst).
    cbn [for_each]. unfold bind, ret. by destruct (step _ st) as [[] ?| |].
  - apply (for_each_flat (fun _ => True) I);
      [|exact Hstep|by apply Forall_true|exact Hst].
    clear st Hst. intros g st _ Hst. unfold MetaLoader.visitDelegateGrammar.
    destruct (Hget st Hst) as [this Hthis].
    unfold bind at 1. rewrite Hthis. rewrite (Hadd _ _ _ Hst).
    cbn [for_each]. unfold bind, ret. by destruct (step _ st) as [[] ?| |].
Qed.

Lemma for_each_logs {A} (l : list A) (record : LogRecord) st :
  for_each l (fun _ => logger_error (snd record)) st
  = Return tt (logged (repeat (ERROR, snd record) (length l)) st).
Proof.
  revert st. induction l as [|x l IH]; intros st.
  - simpl. by rewrite logged_nil.
  - cbn [for_each]. unfold bind. rewrite logger_error_logged, IH.
    rewrite logged_logged. reflexivity.
Qed.

(** The meta pass over an in-memory model without a [tokens] block
    returns, reports one diagnostic for each import declaration and
    changes nothing else. *)
Lemma meta_pass_in_memory from_file model this basedir tree st :
  models st !! model = Some this -> _in_memory this = true ->
  no_tokens_block tree = true ->
  MetaLoader.visitGrammarSpec host from_file model basedir tree st
  = Return tt
      (logged (repeat (ERROR, MsgImportsNotAllowed)
                      (length (import_declarations tree))) st).
Proof.
  intros Hm Hmem Hno. unfold MetaLoader.visitGrammarSpec.
  rewrite (meta_pass_flat from_file model basedir
             (fun s => models s !! model = Some this)
             (fun _ => logger_error MsgImportsNotAllowed));
    [ | | | |exact Hno|exact Hm].
  - exact (for_each_logs _ (ERROR, MsgImportsNotAllowed) st).
  - intros name position s Hs. unfold MetaLoader.add_import, bind.
    rewrite (get_model_eq _ _ _ Hs). unfold ModelImpl.is_in_memory.
    by rewrite Hmem.
  - intros s Hs. exists this. by apply get_model_eq.
  - intros V s s' H Hs. rewrite logger_error_logged in H.
    injection H as <-. exact Hs.
Qed.

(** The first [tokens] block ends the meta pass over an in-memory
    model: what came before it has reported its import declarations,
    and the block raises. *)
Lemma meta_pass_tokens_in_memory from_file model this basedir
      before defs after st :
  models st !! model = Some this -> _in_memory this = true ->
  forallb no_tokens before = true -> defs <> Some [] ->
  for_each (before ++ TokensSpec defs :: after)
    (MetaLoader.visitPrequelConstruct host from_file model basedir) st
  = Raise (match defs with None => AttributeError | Some _ => TypeError end)
      (logged (repeat (ERROR, MsgImportsNotAllowed)
                 (length (import_declarations
                            {| prequel := before; rules := [];
                               modes := [] |}))) st).
Proof.
  intros Hm Hmem Hno Hdefs. rewrite for_each_app.
  pose proof (meta_pass_in_memory from_file model this basedir
                {| prequel := before; rules := []; modes := [] |} st
                Hm Hmem Hno) as Hbefore.
  unfold MetaLoader.visitGrammarSpec in Hbefore. cbn [prequel] in Hbefore.
  unfold bind at 1. rewrite Hbefore.
  cbn [for_each MetaLoader.visitPrequelConstruct].
  unfold bind at 1. unfold MetaLoader.visitTokensSpec.
  destruct defs as [[|token tokens]|]; [congruence| |reflexivity].
  cbn [for_each]. unfold bind at 1. unfold bind at 1.
  rewrite (get_model_eq model this) by exact Hm. reflexivity.
Qed.

Section File.

Variable from_file : PathArg -> M loc.
Hypothesis from_file_loads : loads host from_file.
Variable model : loc.
Variable dir : string.

Lemma import_of_importing this st0 ms V st st' :
  import_of host from_file model dir V st = Return tt st' ->
  importing model this st0 ms st ->
  exists m,
    importing model this st0 (ms ++ [m]) st'
    /\ _loaded st' !! abspath_normpath host (join host dir (V +:+ ".g4"))
       = Some m
    /\ _loaded st ⊆ _loaded st'.
Proof.
  intros H (Hm & Hmem & Hsub). unfold import_of in H.
  apply bind_inv in H as (m & s1 & Hff & Hadd).
  apply from_file_loads in Hff as [Hstep Hkey].
  cbn [ModelCacheImpl.unpack fst] in Hkey.
  pose proof (lookup_lt_Some _ _ _ Hm) as Hlt.
  pose proof (step_below _ _ _ Hstep model Hlt) as Hsame.
  apply add_import_inv in Hadd as (this1 & Hm1 & _ & ->).
  assert (E : Some this1
              = Some (with_imports (_imports this ∪ list_to_set ms) this))
    by (rewrite <- Hm1, <- Hm; exact Hsame).
  injection E as ->.
  exists m. split; [|split; [exact Hkey|exact (step_loaded _ _ _ Hstep)]].
  split; [|split; [exact Hmem|]].
  - cbn [models with_models].
    rewrite list_lookup_insert_eq by (by eapply lookup_lt_Some).
    f_equal. unfold with_imports. cbn. f_equal.
    rewrite list_to_set_app_L. cbn.
    by rewrite (right_id_L ∅ (∪)), (assoc_L (∪)).
  - cbn [_loaded with_models]. etransitivity; [exact Hsub|].
    exact (step_loaded _ _ _ Hstep).
Qed.

(** The imports after the declarations [Vs]: one model for each,
    memoized under the normalized path of its file. *)
Lemma imports_run this st0 Vs :
  forall ms st st',
    for_each Vs (import_of host from_file model dir) st = Return tt st' ->
    importing model this st0 ms st ->
    exists ms',
      importing model this st0 (ms ++ ms') st'
      /\ Forall2 (fun V m =>
                    _loaded st'
                    !! abspath_normpath host (join host dir (V +:+ ".g4"))
                    = Some m) Vs ms'.
Proof.
  induction Vs as [|V Vs IH]; intros ms st st' H Hst.
  - injection H as <-. exists []. rewrite app_nil_r.
    split; [exact Hst|constructor].
  - cbn [for_each] in H. apply bind_inv in H as ([] & s1 & H1 & H2).
    destruct (import_of_importing _ _ _ _ _ _ H1 Hst)
      as (m & Hst1 & Hkey & _).
    destruct (IH _ _ _ H2 Hst1) as (ms' & Hst' & Hall).
    exists (m :: ms'). rewrite <- app_assoc in Hst'.
    split; [exact Hst'|]. constructor; [|exact Hall].
    assert (Hsub : _loaded s1 ⊆ _loaded st').
    { clear -H2 from_file_loads. revert s1 H2.
      induction Vs as [|V' Vs IH]; intros s1 H2.
      - by injection H2 as <-.
      - cbn [for_each] in H2. apply bind_inv in H2 as ([] & s2 & H1 & H2).
        unfold import_of in H1.
        apply bind_inv in H1 as (m' & s & Hff & Hadd).
        apply from_file_loads in Hff as [Hstep _].
        apply add_import_inv in Hadd as (? & _ & _ & ->).
        etransitivity; [exact (step_loaded _ _ _ Hstep)|].
        exact (IH _ H2). }
    by eapply lookup_weaken.
Qed.

(** The meta pass over a model of a file without a [tokens] block
    is the loop of the imports of its declarations. *)
Lemma meta_pass_file this tree st :
  models st !! model = Some this -> _in_memory this = false ->
  no_tokens_block tree = true ->
  MetaLoader.visitGrammarSpec host from_file model (Some dir) tree st
  = for_each (import_declarations tree)
      (import_of host from_file model dir) st.
Proof.
  intros Hm Hmem Hno. unfold MetaLoader.visitGrammarSpec.
  rewrite (meta_pass_flat from_file model (Some dir)
             (fun s => exists ms, importing model this st ms s)
             (import_of host from_file model dir));
    [reflexivity| | | |exact Hno|].
  - intros name position s (ms & Hs & _).
    unfold MetaLoader.add_import. unfold bind at 1.
    rewrite (get_model_eq _ _ _ Hs). unfold ModelImpl.is_in_memory.
    cbn [_in_memory with_imports]. by rewrite Hmem.
  - intros s (ms & Hs & _). eexists. by apply get_model_eq.
  - intros V s s' H (ms & Hs).
    destruct (import_of_importing _ _ _ _ _ _ H Hs) as (m & Hs' & _).
    by eexists.
  - exists []. split; [|split; [exact Hmem|reflexivity]].
    rewrite Hm. f_equal. destruct this. unfold with_imports. cbn.
    f_equal. by rewrite (right_id_L ∅ (∪)).
Qed.

End File.

End MetaPass.

(** ** Loads that return *)

Section Returns.

Variable host : Host.

Lemma for_each_returns {A} (P : A -> Prop) n (l : list A)
      (body : A -> M unit) :
  (forall x st, P x -> present n st ->
                exists st', body x st = Return tt st' /\ present n st') ->
  Forall P l ->
  forall st, present n st ->
             exists st', for_each l body st = Return tt st' /\ present n st'.
Proof.
  intros Hb Hl. induction Hl as [|x l Hx _ IH]; intros st Hn; simpl.
  - exists st. auto.
  - destruct (Hb x st Hx Hn) as (st1 & Hrun & Hn1).
    unfold bind. rewrite Hrun. apply IH. exact Hn1.
Qed.

Lemma visitLexerRuleSpec_returns n ctx st :
  lexer_docs_have_text ctx -> lexer_rule_present ctx = true ->
  present n st ->
  exists st',
    LexerRuleLoader.visitLexerRuleSpec host n ctx st = Return tt st'
    /\ present n st'.
Proof.
  intros Hdocs Hbody [this Hm].
  destruct (proj2 (lexer_visit_returns n (lexerRuleBlock ctx)) Hbody)
    as [content Hvisit].
  destruct (load_docs_only_logs host n this _ st Hm Hdocs)
    as (info & records & Hload).
  eexists. split.
  - exact (visitLexerRuleSpec_registers host n this ctx st info records
             content Hm Hvisit Hload).
  - eexists. apply lookup_with_models with (this := this). exact Hm.
Qed.

Lemma visitParserRuleSpec_returns n ctx st :
  Forall (fun token => text token <> ""%string) (parser_docs ctx) ->
  present n st ->
  exists st',
    ParserRuleLoader.visitParserRuleSpec host n ctx st = Return tt st'
    /\ present n st'.
Proof.
  intros Hdocs [this Hm].
  destruct (parser_visit_returns n (ruleBlock ctx)) as [content Hvisit].
  destruct (load_docs_only_logs host n this _ st Hm Hdocs)
    as (info & records & Hload).
  eexists. split.
  - exact (visitParserRuleSpec_registers host n this ctx st info records
             content Hm Hvisit Hload).
  - eexists. apply lookup_with_models with (this := this). exact Hm.
Qed.

Lemma Forall_and_forallb {A} (P : A -> Prop) (p : A -> bool) (l : list A) :
  Forall P l -> forallb p l = true ->
  Forall (fun x => P x /\ p x = true) l.
Proof.
  intros HP Hp. apply Forall_forallb in Hp.
  induction HP as [|x l Hx _ IH]; [constructor|].
  inversion Hp; subst. constructor; auto.
Qed.

Lemma lexer_loader_returns n tree st :
  docs_have_text tree -> lexer_bodies_present tree = true ->
  present n st ->
  exists st',
    LexerRuleLoader.visitGrammarSpec host n tree st = Return tt st'
    /\ present n st'.
Proof.
  intros [Hrules Hmodes] Hbodies Hn.
  apply andb_true_iff in Hbodies as [Hbr Hbm].
  unfold LexerRuleLoader.visitGrammarSpec.
  assert (H1 : exists st1,
             for_each (rules tree) (LexerRuleLoader.visitRuleSpec host n) st
             = Return tt st1 /\ present n st1).
  { eapply for_each_returns;
      [|exact (Forall_and_forallb _ _ _ Hrules Hbr)|exact Hn].
    intros [ctx|ctx] st1 [Hx Hb] Hn1; simpl.
    - exists st1. auto.
    - by apply visitLexerRuleSpec_returns. }
  destruct H1 as (st1 & Hrun1 & Hn1).
  unfold bind. rewrite Hrun1.
  eapply for_each_returns;
    [|exact (Forall_and_forallb _ _ _ Hmodes Hbm)|exact Hn1].
  intros mode st2 [Hx Hb] Hn2. unfold LexerRuleLoader.visitModeSpec.
  eapply for_each_returns;
    [|exact (Forall_and_forallb _ _ _ Hx Hb)|exact Hn2].
  intros ctx st3 [Hc Hcb] Hn3. by apply visitLexerRuleSpec_returns.
Qed.

Lemma parser_loader_returns n tree st :
  docs_have_text tree -> present n st ->
  exists st',
    ParserRuleLoader.visitGrammarSpec host n tree st = Return tt st'
    /\ present n st'.
Proof.
  intros [Hrules _] Hn. unfold ParserRuleLoader.visitGrammarSpec.
  eapply for_each_returns; [|exact Hrules|exact Hn].
  intros [ctx|ctx] st1 Hx Hn1; simpl.
  - by apply visitParserRuleSpec_returns.
  - exists st1. auto.
Qed.

(** A load from text returns whenever the grammar has no [tokens]
    block, its lexer rules have elements in every alternative and the
    documentation tokens have some text; the model it returns is in
    memory and has no imports. *)
Lemma from_text_returns fuel text path st :
  docs_have_text (tree (grammarSpec host text)) ->
  lexer_bodies_present (tree (grammarSpec host text)) = true ->
  no_tokens_block (tree (grammarSpec host text)) = true ->
  exists model st' o,
    ModelCacheImpl.from_text host fuel text path st = Return model st'
    /\ models st' !! model = Some o
    /\ _in_memory o = true /\ _imports o = ∅.
Proof.
  intros Hdocs Hbodies Hno.
  assert (Hret : exists model st',
             ModelCacheImpl.from_text host fuel text path st
             = Return model st').
  { unfold ModelCacheImpl.from_text.
    destruct (ModelCacheImpl.unpack path) as [p offset].
    rewrite _do_load_unfold.
    destruct (0 <? _); [eauto|].
    set (o := ModelImpl.__init__ p offset true).
    set (st1 := parsed_into o _ st).
    assert (Hm : models st1 !! length (models st) = Some o).
    { simpl. by rewrite lookup_app_r, Nat.sub_diag by lia. }
    unfold bind at 1.
    rewrite (meta_pass_in_memory host (ModelCacheImpl.from_file host fuel)
               _ o (MetaLoader.__init__basedir host o)
               (tree (grammarSpec host text)) st1 Hm eq_refl Hno).
    destruct (lexer_loader_returns (length (models st)) _
                (logged (repeat (ERROR, MsgImportsNotAllowed)
                           (length (import_declarations
                                      (tree (grammarSpec host text))))) st1)
                Hdocs Hbodies ltac:(by eexists)) as (st3 & Hrun3 & Hn3).
    unfold bind at 1. rewrite Hrun3.
    destruct (parser_loader_returns (length (models st)) _ st3 Hdocs Hn3)
      as (st4 & Hrun4 & Hn4).
    unfold bind at 1. rewrite Hrun4. eauto. }
  destruct Hret as (model & st' & Hrun). exists model, st'.
  pose proof Hrun as Hrun'. unfold ModelCacheImpl.from_text in Hrun'.
  destruct (ModelCacheImpl.unpack path) as [p offset].
  apply _do_load_step in Hrun' as (_ & _ & o & Ho & Hk);
    [|apply from_file_loads].
  exists o. split; [exact Hrun|]. split; [exact Ho|].
  destruct Hk as (Hmem & _ & _ & Hi). split; [exact Hmem|].
  by apply Hi.
Qed.

End Returns.

(** ** Claims on the meta pass *)

Section MetaClaims.

Lemma cache_ok_two_models : cache_ok Demo.two_models.
Proof.
  intros path model H. simpl in H.
  apply lookup_singleton_Some in H as [_ <-].
  eexists. split; reflexivity.
Qed.

Lemma importing_start model this st :
  models st !! model = Some this -> _in_memory this = false ->
  importing model this st [] st.
Proof.
  intros Hm Hmem. split; [|split; [exact Hmem|reflexivity]].
  rewrite Hm. f_equal. destruct this. unfold with_imports. cbn.
  f_equal. by rewrite (right_id_L ∅ (∪)).
Qed.

(** C3: during the meta pass of a model of a file, an option
    [tokenVocab = V] and a delegate grammar [V] each make one call
    of the cache's [from_file] on [V + ".g4"] joined to the directory
    of the loading file and, when the call returns, add the model it
    returned to the imports of the loading model; the pass over a
    grammar without a [tokens] block is the loop of these imports
    over all its declarations in their order, and when it returns
    the loading model has gained one import for each declaration,
    the model memoized under the normalized path of its file.  On an
    in-memory model each declaration reports one diagnostic instead
    and changes nothing else, the whole pass reports one diagnostic
    for each declaration, and the model that a load from text returns
    has no imports, whenever the load returns; it does return for a
    grammar without a [tokens] block in which every documentation
    token has a text and every alternative of a lexer rule has
    elements. *)
Theorem import_discovery
        (host : Host) (fuel : nat) (model : loc) (this : ModelImpl)
        (st : State) (V : string) (l : Z)
        (Hm : models st !! model = Some this)
        (Hok : cache_ok st) :
  let from_file := ModelCacheImpl.from_file host fuel in
  let basedir := MetaLoader.__init__basedir host this in
  let dir := dirname host (_path this) in
  let vocab := {| option_name := "tokenVocab"; option_value := V;
                  option_start_line := l |} in
  let delegate := {| delegate_value := V; delegate_start_line := l |} in
  let target : PathArg := inl (join host dir (V +:+ ".g4")) in
  let imported_from :=
    match from_file target st with
    | Return imported st1 =>
        Return tt
          (with_models
             (<[model := with_imports (_imports this ∪ {[imported]}) this]>
                (models st1)) st1)
    | Raise e st1 => Raise e st1
    | OutOfFuel => OutOfFuel
    end in
  (_in_memory this = false ->
   MetaLoader.visitOption host from_file model basedir vocab st
   = imported_from
   /\ MetaLoader.visitDelegateGrammar host from_file model basedir
        delegate st = imported_from
   /\ forall tree,
       no_tokens_block tree = true ->
       MetaLoader.visitGrammarSpec host from_file model basedir tree st
       = for_each (import_declarations tree)
           (import_of host from_file model dir) st
       /\ forall st',
           MetaLoader.visitGrammarSpec host from_file model basedir tree st
           = Return tt st' ->
           exists ms,
             models st' !! model
             = Some (with_imports (_imports this ∪ list_to_set ms) this)
             /\ Forall2
                  (fun W m =>
                     _loaded st'
                     !! abspath_normpath host (join host dir (W +:+ ".g4"))
                     = Some m)
                  (import_declarations tree) ms)
  /\ (_in_memory this = true ->
      MetaLoader.visitOption host from_file model basedir vocab st
      = Return tt (logged [(ERROR, MsgImportsNotAllowed)] st)
      /\ MetaLoader.visitDelegateGrammar host from_file model basedir
           delegate st
         = Return tt (logged [(ERROR, MsgImportsNotAllowed)] st)
      /\ forall tree,
          no_tokens_block tree = true ->
          MetaLoader.visitGrammarSpec host from_file model basedir tree st
          = Return tt
              (logged (repeat (ERROR, MsgImportsNotAllowed)
                              (length (import_declarations tree))) st))
  /\ (forall text path,
         docs_have_text (tree (grammarSpec host text)) ->
         lexer_bodies_present (tree (grammarSpec host text)) = true ->
         no_tokens_block (tree (grammarSpec host text)) = true ->
         exists loaded st' o,
           ModelCacheImpl.from_text host fuel text path st
           = Return loaded st'
           /\ models st' !! loaded = Some o
           /\ _in_memory o = true /\ _imports o = ∅)
  /\ (forall text path loaded st',
         ModelCacheImpl.from_text host fuel text path st
         = Return loaded st' ->
         exists o, models st' !! loaded = Some o
                   /\ _in_memory o = true /\ _imports o = ∅).
Proof.
  intros from_file basedir dir vocab delegate target imported_from.
  split; [|split; [|split]].
  - intros Hmem.
    assert (Hbase : basedir = Some dir).
    { unfold basedir, MetaLoader.__init__basedir, ModelImpl.is_in_memory.
      by rewrite Hmem. }
    rewrite Hbase. split; [|split].
    + unfold MetaLoader.visitOption.
      cbn [option_name vocab option_value].
      change (String.eqb "tokenVocab" "tokenVocab") with true. cbv iota.
      unfold bind at 1. rewrite (get_model_eq _ _ _ Hm).
      exact (meta_add_import_file host fuel model this dir V _ st
               Hm Hmem Hok).
    + unfold MetaLoader.visitDelegateGrammar.
      cbn [delegate delegate_value].
      unfold bind at 1. rewrite (get_model_eq _ _ _ Hm).
      exact (meta_add_import_file host fuel model this dir V _ st
               Hm Hmem Hok).
    + intros tree Hno.
      pose proof (meta_pass_file host from_file (from_file_loads host fuel)
                    model dir this tree st Hm Hmem Hno) as Heq.
      split; [exact Heq|]. intros st' Hrun. rewrite Heq in Hrun.
      destruct (imports_run host from_file (from_file_loads host fuel)
                  model dir this st (import_declarations tree) [] st st'
                  Hrun (importing_start model this st Hm Hmem))
        as (ms & (Hthis & _) & Hall).
      exists ms. split; [exact Hthis|exact Hall].
  - intros Hmem.
    assert (Hadd : forall position,
               MetaLoader.add_import host from_file model basedir V position st
               = Return tt (logged [(ERROR, MsgImportsNotAllowed)] st)).
    { intros position. unfold MetaLoader.add_import, bind.
      rewrite (get_model_eq _ _ _ Hm). unfold ModelImpl.is_in_memory.
      by rewrite Hmem. }
    split; [|split].
    + unfold MetaLoader.visitOption.
      cbn [option_name vocab option_value].
      change (String.eqb "tokenVocab" "tokenVocab") with true. cbv iota.
      unfold bind at 1. rewrite (get_model_eq _ _ _ Hm). apply Hadd.
    + unfold MetaLoader.visitDelegateGrammar.
      cbn [delegate delegate_value].
      unfold bind at 1. rewrite (get_model_eq _ _ _ Hm). apply Hadd.
    + intros tree Hno.
      exact (meta_pass_in_memory host from_file model this basedir tree st
               Hm Hmem Hno).
  - intros text path Hdocs Hbodies Hno. by apply from_text_returns.
  - intros text path loaded st' Hrun.
    unfold ModelCacheImpl.from_text in Hrun.
    destruct (ModelCacheImpl.unpack path) as [p offset].
    apply _do_load_step in Hrun as (_ & _ & o & Ho & Hk);
      [|apply from_file_loads].
    destruct Hk as (Hmem & _ & _ & Hi).
    exists o. split; [exact Ho|]. split; [exact Hmem|]. by apply Hi.
Qed.

Lemma import_discovery_witness :
  (exists st' this',
      MetaLoader.visitOption Demo.host
        (ModelCacheImpl.from_file Demo.host 1) 1 (Some "/g"%string)
        {| option_name := "tokenVocab"; option_value := "L";
           option_start_line := 1 |} Demo.two_models
      = Return tt st'
      /\ models st' !! 1 = Some this'
      /\ _imports this' = {[ 2 ]}
      /\ _loaded st' !! "/g/L.g4"%string = Some 2)
  /\ (exists st' ms,
         MetaLoader.visitGrammarSpec Demo.host
           (ModelCacheImpl.from_file Demo.host 1) 1 (Some "/g"%string)
           Demo.parser_tree Demo.two_models
         = Return tt st'
         /\ models st' !! 1
            = Some (with_imports (∅ ∪ list_to_set ms)
                      (ModelImpl.__init__ "/g/G.g4" 0 false))
         /\ Forall2
              (fun W m =>
                 _loaded st'
                 !! Demo.absolute (Demo.posix_join "/g" (W +:+ ".g4"))
                 = Some m)
              ["L"%string] ms).
Proof.
  destruct (import_discovery Demo.host 1 1
              (ModelImpl.__init__ "/g/G.g4" 0 false) Demo.two_models
              "L" 1 eq_refl cache_ok_two_models) as (H & _).
  destruct (H eq_refl) as (Hrun & _ & Hpass).
  destruct (Hpass Demo.parser_tree eq_refl) as [_ Hgain].
  split.
  - eexists _, _. split; [exact Hrun|].
    split; [reflexivity|]. split; reflexivity.
  - assert (Hret : exists st',
               MetaLoader.visitGrammarSpec Demo.host
                 (ModelCacheImpl.from_file Demo.host 1) 1
                 (Some "/g"%string) Demo.parser_tree Demo.two_models
               = Return tt st')
      by (eexists; vm_compute; reflexivity).
    destruct Hret as [st' Hret].
    destruct (Hgain st' Hret) as (ms & Hmodel & Hloaded).
    exists st', ms. split; [exact Hret|]. split; [exact Hmodel|exact Hloaded].
Defined.

End MetaClaims.


(** * Further properties of the code *)

(** ** The combinators and the visitors *)

(** X1: the sequence combinator flattens one level: its result is made
    of the children of the [Sequence] elements and of the other
    elements themselves, in their order; one such element is given
    back as it is, and any other number of them is wrapped in a
    [Sequence], which for none of them is [EMPTY].  An [EMPTY] among
    the sub-results, being a [Sequence] without children, leaves no
    trace. *)
Theorem make_seq_rule_flattens (subresults more : list RuleContent) :
  RuleLoader.make_seq_rule Some subresults
  = Some (match flat_map sequence_elements subresults with
          | [element] => element
          | elements => Sequence elements
          end)
  /\ RuleLoader.make_seq_rule Some (subresults ++ EMPTY :: more)
     = RuleLoader.make_seq_rule Some (subresults ++ more)
  /\ RuleLoader.make_seq_rule Some ([] : list RuleContent) = Some EMPTY.
Proof.
  rewrite !make_seq_rule_Some. unfold RuleLoader.seq_rule.
  rewrite !seq_loop_elements. split; [|split; [|reflexivity]].
  - by destruct (flat_map sequence_elements subresults) as [|? [|? ?]].
  - by rewrite !flat_map_app.
Qed.

Lemma remaining_of_not_Empty (r : RuleContent) :
  invariant r = true ->
  2 <= length (remaining_of r)
  \/ forallb (fun c => negb (is_Empty c)) (remaining_of r) = true.
Proof.
  intros Hinv. unfold remaining_of.
  destruct r as [| | | | | |[|? ?]|cs|c| |]; cbn [unwrap_maybe is_Empty];
    auto.
  - rewrite invariant_Alternative in Hinv.
    apply andb_true_iff in Hinv as [Hlen _].
    apply Nat.leb_le in Hlen. auto.
  - simpl in Hinv. apply andb_true_iff in Hinv as [Hm Hc].
    destruct c as [| | | | | |[|? ?]|cs| | |]; cbn [is_Empty]; auto.
    rewrite invariant_Alternative in Hc.
    apply andb_true_iff in Hc as [Hlen _].
    apply Nat.leb_le in Hlen. auto.
Qed.

Lemma remaining_children_not_Empty (subresults : list RuleContent) :
  forallb invariant subresults = true ->
  2 <= length (remaining_children subresults)
  \/ forallb (fun c => negb (is_Empty c)) (remaining_children subresults)
     = true.
Proof.
  induction subresults as [|r rest IH]; intros Hinv; [right; reflexivity|].
  simpl in Hinv. apply andb_true_iff in Hinv as [Hr Hrest].
  simpl. rewrite length_app.
  destruct (remaining_of_not_Empty r Hr) as [H1|H1]; [left; lia|].
  destruct (IH Hrest) as [H2|H2]; [left; lia|].
  right. apply forallb_app'; assumption.
Qed.

Lemma alternative_of_spec_again (subresults : list RuleContent) :
  forallb invariant subresults = true ->
  alternative_of_spec [alternative_of_spec subresults]
  = alternative_of_spec subresults.
Proof.
  intros Hinv.
  pose proof (remaining_children_alt_child subresults Hinv) as Hch.
  pose proof (remaining_children_shape subresults Hinv) as Hsh.
  pose proof (remaining_children_not_Empty subresults Hinv) as Hne.
  unfold alternative_of_spec at 2 3.
  destruct (remaining_children subresults) as [|c0 [|c1 cs]].
  - reflexivity.
  - assert (Hplain : is_Maybe c0 = false /\ is_Alternative c0 = false).
    { destruct Hsh as [Hsh|Hsh]; [simpl in Hsh; lia|].
      simpl in Hsh, Hch. unfold not_Maybe in Hsh. unfold alt_child in Hch.
      rewrite andb_true_r in Hsh, Hch.
      apply andb_true_iff in Hch as [Hch _].
      split; by apply negb_true_iff. }
    destruct Hplain as [Hm Ha].
    assert (He : is_Empty c0 = false).
    { destruct Hne as [Hne|Hne]; [simpl in Hne; lia|].
      simpl in Hne. rewrite andb_true_r in Hne. by apply negb_true_iff. }
    destruct (empty_alt_recorded subresults);
      destruct c0 as [| | | | | |[|? ?]| | | |]; try discriminate;
      reflexivity.
  - destruct (empty_alt_recorded subresults);
      unfold alternative_of_spec, remaining_children, empty_alt_recorded,
        remaining_of;
      cbn [flat_map unwrap_maybe existsb records_empty_alt
           is_Maybe is_Empty orb];
      rewrite app_nil_r; reflexivity.
Qed.

(** X2: on sub-results that satisfy the invariant, the alternative and
    the sequence combinator are idempotent: applied to their own result
    alone they give it back. *)
Theorem combinators_idempotent (subresults : list RuleContent)
        (Hinv : forallb invariant subresults = true) :
  exists a s,
    RuleLoader.make_alt_rule Some subresults = Some a
    /\ RuleLoader.make_alt_rule Some [a] = Some a
    /\ RuleLoader.make_seq_rule Some subresults = Some s
    /\ RuleLoader.make_seq_rule Some [s] = Some s.
Proof.
  exists (RuleLoader.alt_rule subresults), (RuleLoader.seq_rule subresults).
  rewrite !make_alt_rule_Some, !make_seq_rule_Some.
  split; [reflexivity|]. split; [|split; [reflexivity|]]; f_equal.
  - rewrite !alt_rule_refines. by apply alternative_of_spec_again.
  - unfold RuleLoader.seq_rule at 2 3.
    pose proof (seq_loop_children subresults Hinv) as Hch.
    destruct (RuleLoader.seq_loop subresults []) as [|e0 [|e1 es]].
    + reflexivity.
    + simpl in Hch. unfold seq_child in Hch. rewrite andb_true_r in Hch.
      apply andb_true_iff in Hch as [Hs _].
      destruct e0; try discriminate; reflexivity.
    + reflexivity.
Qed.

Lemma combinators_idempotent_witness :
  RuleLoader.make_alt_rule Some [Maybe (Literal "'a'"); Wildcard; EMPTY]
  = Some (Maybe (Alternative [Literal "'a'"; Wildcard]))
  /\ RuleLoader.make_alt_rule Some
       [Maybe (Alternative [Literal "'a'"; Wildcard])]
     = Some (Maybe (Alternative [Literal "'a'"; Wildcard]))
  /\ RuleLoader.make_seq_rule Some
       [Sequence [Literal "'a'"; Wildcard]; EMPTY; Literal "'b'"]
     = Some (Sequence [Literal "'a'"; Wildcard; Literal "'b'"])
  /\ RuleLoader.make_seq_rule Some
       [Sequence [Literal "'a'"; Wildcard; Literal "'b'"]]
     = Some (Sequence [Literal "'a'"; Wildcard; Literal "'b'"]).
Proof.
  destruct (combinators_idempotent
              [Maybe (Literal "'a'"); Wildcard; EMPTY] eq_refl)
    as (a & _ & Ha & Ha' & _).
  destruct (combinators_idempotent
              [Sequence [Literal "'a'"; Wildcard]; EMPTY; Literal "'b'"]
              eq_refl)
    as (_ & s & _ & _ & Hs & Hs').
  vm_compute in Ha. injection Ha as <-.
  vm_compute in Hs. injection Hs as <-.
  split; [reflexivity|]. split; [exact Ha'|]. split; [reflexivity|exact Hs'].
Defined.

Lemma every_node p r : every p r = true -> p r = true.
Proof. destruct r; simpl; intros H; apply andb_true_iff in H as [H _]; exact H. Qed.

Lemma remaining_of_every p r :
  every p r = true -> forallb (every p) (remaining_of r) = true.
Proof.
  intros H. unfold remaining_of.
  assert (Hu : every p (unwrap_maybe r) = true).
  { destruct r; try exact H. simpl in H.
    apply andb_true_iff in H as [_ H]. exact H. }
  destruct (is_Empty (unwrap_maybe r)); [reflexivity|].
  destruct (unwrap_maybe r) eqn:E;
    try (cbn [forallb]; rewrite Hu; reflexivity).
  simpl in Hu. apply andb_true_iff in Hu as [_ Hu]. exact Hu.
Qed.

Lemma sequence_elements_every p r :
  every p r = true -> forallb (every p) (sequence_elements r) = true.
Proof.
  intros H. destruct r; try (cbn [sequence_elements forallb]; rewrite H; reflexivity).
  simpl in H. apply andb_true_iff in H as [_ H]. exact H.
Qed.

Lemma flat_map_every p (f : RuleContent -> list RuleContent) l :
  (forall r, every p r = true -> forallb (every p) (f r) = true) ->
  forallb (every p) l = true ->
  forallb (every p) (flat_map f l) = true.
Proof.
  intros Hf. induction l as [|r l IH]; intros H; [reflexivity|].
  simpl in H. apply andb_true_iff in H as [Hr Hl].
  simpl. apply forallb_app'; auto.
Qed.

Lemma alt_rule_every p (visited : list RuleContent) :
  on_leaves p ->
  forallb (every p) visited = true ->
  every p (RuleLoader.alt_rule visited) = true.
Proof.
  intros (_ & HM & _ & _ & HS & HA) H.
  rewrite alt_rule_refines. unfold alternative_of_spec.
  pose proof (flat_map_every p remaining_of _ (remaining_of_every p) H) as Hch.
  fold (remaining_children visited) in Hch.
  destruct (remaining_children visited) as [|c0 [|c1 cs]].
  - unfold EMPTY. simpl. by rewrite HS.
  - simpl in Hch. rewrite andb_true_r in Hch.
    destruct (empty_alt_recorded _); [|exact Hch].
    simpl. by rewrite HM, Hch.
  - assert (HAlt : every p (Alternative (c0 :: c1 :: cs)) = true).
    { cbn [every]. by rewrite HA, Hch. }
    destruct (empty_alt_recorded _); [|exact HAlt].
    cbn [every]. cbn [every] in HAlt. by rewrite HM, HAlt.
Qed.

Lemma seq_rule_every p (visited : list RuleContent) :
  on_leaves p ->
  forallb (every p) visited = true ->
  every p (RuleLoader.seq_rule visited) = true.
Proof.
  intros (_ & _ & _ & _ & HS & _) H.
  unfold RuleLoader.seq_rule. rewrite seq_loop_elements.
  pose proof (flat_map_every p sequence_elements _
                (sequence_elements_every p) H) as Hch.
  destruct (flat_map sequence_elements visited) as [|e0 [|e1 es]].
  - simpl. by rewrite HS.
  - simpl in Hch. rewrite andb_true_r in Hch. exact Hch.
  - cbn [every]. by rewrite HS, Hch.
Qed.

Lemma wrap_suffix_every p element suffix :
  on_leaves p -> every p element = true ->
  every p (RuleLoader.wrap_suffix element suffix) = true.
Proof.
  intros (_ & HM & HO & HZ & _) H. unfold RuleLoader.wrap_suffix.
  destruct (is_Empty element); [exact H|].
  destruct suffix as [suffix|]; [|exact H].
  destruct (Py.startswith suffix "?").
  { destruct (is_Maybe element); [exact H|]. cbn [every]. by rewrite HM, H. }
  destruct (Py.startswith suffix "+"); [cbn [every]; by rewrite HO, H|].
  destruct (Py.startswith suffix "*"); [cbn [every]; by rewrite HZ, H|exact H].
Qed.

(** A test that holds on the nodes the combinators make and on the
    atoms of the parser loader holds all over the trees it builds. *)
Lemma parser_visit_every p (model : loc) :
  on_leaves p -> p Wildcard = true ->
  (forall name, p (Reference model name) = true) ->
  forall ctx r,
    ParserRuleLoader.visit model ctx = Some r -> every p r = true.
Proof.
  intros Hp HW HR ctx. pose proof Hp as (HN & _ & _ & _ & HS & _).
  apply (parser_visit_built model (fun r => every p r = true)).
  - intros rs H. apply alt_rule_every; [exact Hp|by apply Forall_forallb].
  - intros rs H. apply seq_rule_every; [exact Hp|by apply Forall_forallb].
  - intros e suffix. by apply wrap_suffix_every.
  - intros c H. cbn [every]. by rewrite HN, H.
  - unfold EMPTY. simpl. by rewrite HS.
  - simpl. by rewrite HW.
  - intros name. simpl. by rewrite HR.
Qed.

(** The same for the lexer loader, whose atoms also are literals,
    character sets and ranges. *)
Lemma lexer_visit_every p (model : loc) :
  on_leaves p -> p Wildcard = true ->
  (forall name, p (Reference model name) = true) ->
  (forall s, p (Literal s) = true) -> (forall s, p (CharSet s) = true) ->
  (forall a b, p (Range a b) = true) ->
  forall ctx r,
    LexerRuleLoader.visit model ctx = Some r -> every p r = true.
Proof.
  intros Hp HW HR HL HC HRg ctx. pose proof Hp as (HN & _ & _ & _ & HS & _).
  apply (lexer_visit_built model (fun r => every p r = true)).
  - intros rs H. apply alt_rule_every; [exact Hp|by apply Forall_forallb].
  - intros rs H. apply seq_rule_every; [exact Hp|by apply Forall_forallb].
  - intros e suffix. by apply wrap_suffix_every.
  - intros c H. cbn [every]. by rewrite HN, H.
  - unfold EMPTY. simpl. by rewrite HS.
  - simpl. by rewrite HW.
  - intros name. simpl. by rewrite HR.
  - intros a b. simpl. by rewrite HRg.
  - intros v. simpl. by rewrite HL.
  - intros v. simpl. by rewrite HC.
Qed.

Lemma recorded_alt_rule (visited : list RuleContent) :
  empty_alt_recorded visited = true ->
  RuleLoader.alt_rule visited = EMPTY
  \/ is_Maybe (RuleLoader.alt_rule visited) = true.
Proof.
  intros H. rewrite alt_rule_refines. unfold alternative_of_spec.
  rewrite H. destruct (remaining_children visited) as [|c0 [|c1 cs]]; auto.
Qed.

Lemma visit_all_recorded {T} (visit : T -> option RuleContent)
      (content : list T) (visited : list RuleContent) :
  RuleLoader.visit_all visit content = Some visited ->
  Exists (fun x => visit x = Some EMPTY) content ->
  empty_alt_recorded visited = true.
Proof.
  intros H Hex. revert visited H.
  induction Hex as [x l Hx|x l _ IH]; intros visited H; simpl in H.
  - rewrite Hx in H.
    destruct (RuleLoader.visit_all visit l); [|discriminate].
    injection H as <-. reflexivity.
  - destruct (visit x) as [r|]; [|discriminate].
    destruct (RuleLoader.visit_all visit l) as [rs|]; [|discriminate].
    injection H as <-. unfold empty_alt_recorded. cbn [existsb].
    unfold empty_alt_recorded in IH. rewrite (IH rs eq_refl).
    apply orb_true_r.
Qed.

(** X3: [ParserRuleLoader] builds a tree from every body of a rule,
    and the tree holds no raw character data: no [Literal], no
    [CharSet] and no [Range] node.  A quoted literal becomes a
    [Reference] like a name, and a character set or a character range,
    which no parser rule should hold, becomes [EMPTY], so that a set
    of elements that holds one is built as optional, a [Maybe] or
    [EMPTY]. *)
Theorem parser_trees_hold_no_char_data
        (model : loc) (ctx : ParserCtx) (elements : list ParserCtx)
        (value start end_ : string) :
  (exists r, ParserRuleLoader.visit model ctx = Some r
             /\ every not_char_data r = true)
  /\ ParserRuleLoader.visit model (PTerminalLit value)
     = Some (Reference model value)
  /\ ParserRuleLoader.visit model (PSetElementLit value)
     = Some (Reference model value)
  /\ ParserRuleLoader.visit model (PSetElementCharSet value) = Some EMPTY
  /\ ParserRuleLoader.visit model (PCharacterRange start end_) = Some EMPTY
  /\ (PSetElementCharSet value ∈ elements
      \/ PCharacterRange start end_ ∈ elements ->
      exists r, ParserRuleLoader.visit model (PBlockSet elements) = Some r
                /\ (r = EMPTY \/ is_Maybe r = true)).
Proof.
  split; [|repeat split].
  - destruct (parser_visit_returns model ctx) as [r Hr]. exists r.
    split; [exact Hr|].
    apply (parser_visit_every not_char_data model) with (ctx := ctx);
      try reflexivity; try exact Hr.
    repeat split; reflexivity.
  - intros Hin.
    destruct (parser_visit_returns model (PBlockSet elements)) as [r Hr].
    exists r. split; [exact Hr|].
    cbn [ParserRuleLoader.visit] in Hr. unfold RuleLoader.make_alt_rule in Hr.
    destruct (RuleLoader.visit_all _ elements) as [rs|] eqn:E;
      [|discriminate].
    injection Hr as <-. apply recorded_alt_rule.
    apply (visit_all_recorded _ _ _ E). apply Exists_exists.
    destruct Hin as [Hin|Hin]; eexists; (split; [exact Hin|reflexivity]).
Qed.

Lemma parser_trees_hold_no_char_data_witness :
  ParserRuleLoader.visit 0
    (PBlockSet [PSetElementRef "A"; PSetElementCharSet "[a-z]"])
  = Some (Maybe (Reference 0 "A")).
Proof.
  destruct (parser_trees_hold_no_char_data 0 AtomWildcard
              [PSetElementRef "A"; PSetElementCharSet "[a-z]"]
              "[a-z]" "" "")
    as (_ & _ & _ & _ & _ & H).
  destruct (H ltac:(left; apply list_elem_of_further, list_elem_of_here))
    as (r & Hr & _).
  pose proof Hr as Hr'. vm_compute in Hr'. injection Hr' as <-. exact Hr.
Defined.

(** X4: every [Reference] in a tree that a loader builds names the
    model of that loader as its owner, for the lexer loader, whenever
    it builds a tree, and for the parser loader, which always does. *)
Theorem references_stay_within_model
        (model : loc) (lexer_ctx : LexerCtx) (parser_ctx : ParserCtx) :
  (forall r, LexerRuleLoader.visit model lexer_ctx = Some r ->
             every (refers_within model) r = true)
  /\ (exists r, ParserRuleLoader.visit model parser_ctx = Some r
                /\ every (refers_within model) r = true).
Proof.
  assert (Hp : on_leaves (refers_within model)) by (repeat split; reflexivity).
  split.
  - intros r Hr.
    apply (lexer_visit_every (refers_within model) model)
      with (ctx := lexer_ctx); try reflexivity; try exact Hp; try exact Hr.
    intros name. simpl. apply Nat.eqb_refl.
  - destruct (parser_visit_returns model parser_ctx) as [r Hr]. exists r.
    split; [exact Hr|].
    apply (parser_visit_every (refers_within model) model)
      with (ctx := parser_ctx); try reflexivity; try exact Hp; try exact Hr.
    intros name. simpl. apply Nat.eqb_refl.
Qed.

Lemma references_stay_within_model_witness :
  LexerRuleLoader.visit 3
    (LexerElements [LexerElementAtom (LTerminalRef "DIGIT") (Some "+"%string);
                    LexerElementAtom (LTerminalLit "'.'") None])
  = Some (Sequence [OnePlus (Reference 3 "DIGIT"); Literal "'.'"])
  /\ every (refers_within 3)
       (Sequence [OnePlus (Reference 3 "DIGIT"); Literal "'.'"]) = true
  /\ every (refers_within 4)
       (Sequence [OnePlus (Reference 3 "DIGIT"); Literal "'.'"]) = false.
Proof.
  destruct (references_stay_within_model 3
              (LexerElements
                 [LexerElementAtom (LTerminalRef "DIGIT") (Some "+"%string);
                  LexerElementAtom (LTerminalLit "'.'") None])
              AtomWildcard) as [H _].
  split; [reflexivity|]. split; [exact (H _ eq_refl)|reflexivity].
Defined.

(** X5: the loaders build trees that satisfy the invariant of rule
    content trees.  The lexer loader builds a tree from a body in which
    every alternative has elements, and raises on any other; the
    parser loader builds a tree from every body, an alternative without
    elements coming out as [EMPTY] and making its list of alternatives
    optional. *)
Theorem loaders_build_invariant_trees
        (model : loc) (lexer_ctx : LexerCtx) (parser_ctx : ParserCtx) :
  (lexer_alts_present lexer_ctx = true ->
   exists r, LexerRuleLoader.visit model lexer_ctx = Some r
             /\ invariant r = true)
  /\ (lexer_alts_present lexer_ctx = false ->
      LexerRuleLoader.visit model lexer_ctx = None)
  /\ (exists r, ParserRuleLoader.visit model parser_ctx = Some r
                /\ invariant r = true)
  /\ ParserRuleLoader.visit model (AlternativeCtx []) = Some EMPTY.
Proof.
  split; [|split; [|split; [|reflexivity]]].
  - intros H.
    destruct (proj2 (lexer_visit_returns model lexer_ctx) H) as [r Hr].
    exists r. split; [exact Hr|by eapply lexer_visit_invariant].
  - intros H.
    destruct (LexerRuleLoader.visit model lexer_ctx) as [r|] eqn:Hr;
      [|reflexivity].
    rewrite (proj1 (lexer_visit_returns model lexer_ctx)) in H;
      [discriminate|]. rewrite Hr. by eexists.
  - destruct (parser_visit_returns model parser_ctx) as [r Hr].
    exists r. split; [exact Hr|by eapply parser_visit_invariant].
Qed.

Lemma loaders_build_invariant_trees_witness :
  LexerRuleLoader.visit 0 (lexerRuleBlock Demo.x_y_rule)
  = Some (Sequence [Literal "'x'"; Maybe (Literal "'y'")])
  /\ invariant (Sequence [Literal "'x'"; Maybe (Literal "'y'")]) = true
  /\ LexerRuleLoader.visit 0 (lexerRuleBlock Demo.half_rule) = None
  /\ ParserRuleLoader.visit 0 (ruleBlock Demo.b_rule)
     = Some (Maybe (Reference 0 "B")).
Proof.
  destruct (loaders_build_invariant_trees 0 (lexerRuleBlock Demo.x_y_rule)
              (ruleBlock Demo.b_rule))
    as (Hl & _ & (p & Hp & _) & _).
  destruct (Hl eq_refl) as (r & Hr & Hinv).
  destruct (loaders_build_invariant_trees 0 (lexerRuleBlock Demo.half_rule)
              (ruleBlock Demo.b_rule))
    as (_ & Hnone & _).
  pose proof Hr as Hr'. vm_compute in Hr'. injection Hr' as <-.
  pose proof Hp as Hp'. vm_compute in Hp'. injection Hp' as <-.
  split; [exact Hr|]. split; [exact Hinv|].
  split; [exact (Hnone eq_refl)|exact Hp].
Defined.

(** ** The directive pattern, the other way round *)

Lemma greedy_complete {R} cls (s1 rest : list ascii)
      (k : list ascii -> option R) r :
  forallb cls s1 = true -> stops cls rest = true -> k rest = Some r ->
  Re.greedy cls (s1 ++ rest) k = Some r.
Proof.
  intros Hs1 Hstop Hk. induction s1 as [|c s1 IH]; simpl.
  - destruct rest as [|c rest]; [exact Hk|].
    simpl in Hstop. apply negb_true_iff in Hstop. simpl. by rewrite Hstop.
  - simpl in Hs1. apply andb_true_iff in Hs1 as [Hc Hs1].
    by rewrite Hc, IH.
Qed.

Lemma startswith_chars_app (p rest : list ascii) :
  Py.startswith_chars p (p ++ rest) = true.
Proof.
  induction p as [|a p IH]; [reflexivity|]. simpl.
  unfold Py.ascii_eqb. by rewrite Ascii.eqb_refl, IH.
Qed.

Lemma run_Lit t rest g k :
  Re.run (Re.Lit t) (Py.chars t ++ rest) g k = k rest g.
Proof.
  simpl. rewrite startswith_chars_app.
  by rewrite skipn_app, Nat.sub_diag, skipn_all, skipn_O.
Qed.

Lemma run_Star cls s1 rest g k r :
  forallb cls s1 = true -> stops cls rest = true -> k rest g = Some r ->
  Re.run (Re.Star cls) (s1 ++ rest) g k = Some r.
Proof. intros. simpl. by apply greedy_complete. Qed.

Lemma run_Plus cls s1 rest g k r :
  s1 <> [] -> forallb cls s1 = true -> stops cls rest = true ->
  k rest g = Some r ->
  Re.run (Re.Plus cls) (s1 ++ rest) g k = Some r.
Proof.
  intros Hne Hs1 Hstop Hk. destruct s1 as [|c s1]; [congruence|].
  simpl in Hs1. apply andb_true_iff in Hs1 as [Hc Hs1].
  simpl. rewrite Hc. by apply greedy_complete.
Qed.

Lemma run_Seq p q s g k :
  Re.run (Re.Seq p q) s g k
  = Re.run p s g (fun rest g' => Re.run q rest g' k).
Proof. reflexivity. Qed.

Lemma run_Group name p s g k :
  Re.run (Re.Group name p) s g k
  = Re.run p s g
      (fun rest g' => k rest (<[name := Re.consumed s rest]> g')).
Proof. reflexivity. Qed.

Lemma chars_of_str (l : list ascii) : Py.chars (Py.str l) = l.
Proof. apply list_ascii_of_string_of_list_ascii. Qed.

Lemma str_of_chars (s : string) : Py.str (Py.chars s) = s.
Proof. apply string_of_list_ascii_of_string. Qed.

Lemma word_is_no_space c : Re.word_or_dash c = true -> Re.space c = false.
Proof.
  destruct c as [[] [] [] [] [] [] [] []]; vm_compute; congruence.
Qed.

Lemma space_is_no_word c : Re.space c = true -> Re.word_or_dash c = false.
Proof.
  destruct c as [[] [] [] [] [] [] [] []]; vm_compute; congruence.
Qed.

Lemma stops_app_l cls (l rest : list ascii) :
  l <> [] -> stops cls l = true -> stops cls (l ++ rest) = true.
Proof. destruct l; [congruence|auto]. Qed.

Lemma stops_word_after_space (w rest : list ascii) :
  forallb Py.isspace w = true ->
  stops Re.word_or_dash rest = true ->
  stops Re.word_or_dash (w ++ rest) = true.
Proof.
  destruct w as [|c w]; [auto|]. simpl. intros H _.
  apply andb_true_iff in H as [H _]. apply negb_true_iff.
  by apply space_is_no_word.
Qed.

Lemma directive_match (w1 w2 w3 cmd w4 ctx rest : list ascii) :
  forallb Py.isspace w1 = true -> forallb Py.isspace w2 = true ->
  forallb Py.isspace w3 = true -> forallb Py.isspace w4 = true ->
  cmd <> [] -> forallb Re.word_or_dash cmd = true ->
  forallb Re.dot ctx = true ->
  stops Re.word_or_dash (w4 ++ ctx ++ rest) = true ->
  stops Re.space (ctx ++ rest) = true ->
  stops Re.dot rest = true ->
  Re.match_ CMD_RE (Py.str (directive_chars w1 w2 w3 cmd w4 ctx rest))
  = Some (<["ctx"%string := Py.str ctx]>
            (<["cmd"%string := Py.str cmd]> (∅ : Re.groups))).
Proof.
  intros Hw1 Hw2 Hw3 Hw4 Hcmd Hword Hctx Hparted Hstart Hend.
  unfold Re.match_, CMD_RE, directive_chars. rewrite chars_of_str.
  cbn [Re.cat].
  rewrite run_Seq, run_Lit.
  rewrite run_Seq. apply run_Star; [exact Hw1|reflexivity|].
  rewrite run_Seq, run_Lit.
  rewrite run_Seq. apply run_Star; [exact Hw2|reflexivity|].
  rewrite run_Seq, run_Lit.
  rewrite run_Seq. apply run_Star; [exact Hw3| |].
  { destruct cmd as [|c cmd]; [congruence|]. simpl.
    simpl in Hword. apply andb_true_iff in Hword as [Hc _].
    apply negb_true_iff. by apply word_is_no_space. }
  rewrite run_Seq, run_Group.
  apply run_Plus; [exact Hcmd|exact Hword|exact Hparted|].
  rewrite consumed_app.
  rewrite run_Seq. apply run_Star; [exact Hw4|exact Hstart|].
  rewrite run_Group.
  apply run_Star; [exact Hctx|exact Hend|].
  rewrite consumed_app. reflexivity.
Qed.

Lemma directive_groups (cmd ctx : string) :
  let m : Re.groups := <["ctx"%string := ctx]> (<["cmd"%string := cmd]> ∅) in
  Re.group m "cmd" = cmd /\ Re.group m "ctx" = ctx.
Proof.
  intros m. unfold m, Re.group, Re.groups. split.
  - rewrite lookup_insert_ne by discriminate. by rewrite lookup_insert_eq.
  - by rewrite lookup_insert_eq.
Qed.

(** X6: a text put together as the pattern reads, marker, [doc],
    colon, command and argument with white space in between, is
    matched by [CMD_RE], and the groups of the match are the command
    and the argument it was made of: the argument must not start with
    white space, must hold no line feed and must end at a line feed or
    at the end of the text, and the command must be parted from an
    argument that starts like a command. *)
Theorem CMD_RE_matches_directive
        (w1 w2 w3 cmd w4 ctx rest : list ascii)
        (Hw1 : forallb Py.isspace w1 = true)
        (Hw2 : forallb Py.isspace w2 = true)
        (Hw3 : forallb Py.isspace w3 = true)
        (Hw4 : forallb Py.isspace w4 = true)
        (Hcmd : cmd <> [])
        (Hword : forallb Re.word_or_dash cmd = true)
        (Hctx : forallb Re.dot ctx = true)
        (Hparted : stops Re.word_or_dash (w4 ++ ctx ++ rest) = true)
        (Hstart : stops Re.space (ctx ++ rest) = true)
        (Hend : stops Re.dot rest = true) :
  exists m,
    Re.match_ CMD_RE
      (Py.str (directive_chars w1 w2 w3 cmd w4 ctx rest)) = Some m
    /\ Re.group m "cmd" = Py.str cmd /\ Re.group m "ctx" = Py.str ctx.
Proof.
  eexists. split.
  - by apply directive_match.
  - apply directive_groups.
Qed.

Lemma CMD_RE_matches_directive_witness :
  exists m,
    Re.match_ CMD_RE "//@ doc:importance -3" = Some m
    /\ Re.group m "cmd" = "importance"%string
    /\ Re.group m "ctx" = "-3"%string.
Proof.
  exact (CMD_RE_matches_directive
           (Py.chars " ") [] [] (Py.chars "importance") (Py.chars " ")
           (Py.chars "-3") []
           eq_refl eq_refl eq_refl eq_refl ltac:(discriminate)
           eq_refl eq_refl eq_refl eq_refl eq_refl).
Defined.

(** ** More on the documentation extractor *)

Lemma load_docs_one_token host model this st token v' records :
  models st !! model = Some this ->
  load_docs_token host model token Docs.initial st
  = Return v' (logged records st) ->
  load_docs host model [token] st
  = Return {| doc_css_class := css_class v';
              doc_importance := importance v';
              doc_is_doxygen_inline := is_doxygen_inline v';
              doc_is_doxygen_nodoc := is_doxygen_nodoc v';
              doc_name := name v';
              doc_documentation :=
                Py.join (String "010" "") (documentation_lines v') |}
      (logged records st).
Proof.
  intros Hm H. unfold load_docs, load_docs_loop.
  unfold bind at 1. unfold bind at 1. rewrite H. reflexivity.
Qed.

(** X7: a [name] directive whose argument is missing or white space
    sets the name to the empty text and reports one diagnostic; the
    rule that carries it is made without a display name.  The body of
    the rule is visited before the comment is read: a lexer rule whose
    body cannot be visited raises and reports nothing. *)
Theorem name_directive_without_argument
        (host : Host) (model : loc) (this : ModelImpl) (st : State)
        (w1 w2 w3 w4 : list ascii) (l : Z)
        (ctx : LexerRuleSpecContext)
        (Hm : models st !! model = Some this)
        (Hw1 : forallb Py.isspace w1 = true)
        (Hw2 : forallb Py.isspace w2 = true)
        (Hw3 : forallb Py.isspace w3 = true)
        (Hw4 : forallb Py.isspace w4 = true)
        (Hdocs : lexer_docs ctx
                 = [{| text := Py.str (directive_chars w1 w2 w3
                                         (Py.chars "name") w4 [] []);
                       tok_line := l |}]) :
  let report :=
    (ERROR, MsgNameRequiresArgument
              {| file := _path this; line := l + _offset this |}) in
  exists info,
    load_docs host model (lexer_docs ctx) st
    = Return info (logged [report] st)
    /\ doc_name info = Some ""%string
    /\ match LexerRuleLoader.visit model (lexerRuleBlock ctx) with
       | Some content =>
           LexerRuleLoader.visitLexerRuleSpec host model ctx st
           = Return tt
               (with_models
                  (<[model :=
                       with_lexer_rules
                         (lexer_rules_with ctx content
                            (length (rule_objects st))
                            (_lexer_rules this)) this]> (models st))
                  (with_rule
                     (ALexerRule
                        (lexer_rule_object model this ctx info content))
                     (logged [report] st)))
           /\ lr_display_name (lexer_rule_object model this ctx info content)
              = None
       | None =>
           LexerRuleLoader.visitLexerRuleSpec host model ctx st
           = Raise AttributeError st
       end.
Proof.
  intros report.
  assert (Hparted : stops Re.word_or_dash (w4 ++ [] ++ []) = true)
    by (by apply stops_word_after_space).
  pose proof (directive_match w1 w2 w3 (Py.chars "name") w4 [] []
                Hw1 Hw2 Hw3 Hw4 ltac:(discriminate) eq_refl eq_refl Hparted
                eq_refl eq_refl) as Hmatch.
  destruct (directive_groups (Py.str (Py.chars "name")) (Py.str []))
    as [Hcmd Hctx].
  set (m := <["ctx"%string := _]> _) in Hmatch, Hcmd, Hctx.
  set (token := {| text := _; tok_line := l |}) in Hdocs.
  assert (Htoken : load_docs_token host model token Docs.initial st
                   = Return (Docs.set_name "" Docs.initial)
                       (logged [report] st)).
  { unfold load_docs_token. unfold bind at 1.
    rewrite (get_model_eq model this) by exact Hm.
    assert (Hs : Py.startswith (text token) "//@" = true).
    { unfold token, Py.startswith. cbn [text]. rewrite chars_of_str.
      unfold directive_chars. apply startswith_chars_app. }
    rewrite Hs. unfold load_docs_command. cbn [text token].
    rewrite Hmatch, Hcmd, Hctx. reflexivity. }
  rewrite Hdocs.
  pose proof (load_docs_one_token host model this st token _ _ Hm Htoken)
    as Hload.
  eexists. split; [exact Hload|]. split; [reflexivity|].
  destruct (LexerRuleLoader.visit model (lexerRuleBlock ctx))
    as [content|] eqn:Hvisit.
  - split; [|reflexivity].
    apply (visitLexerRuleSpec_registers host model this ctx st _ _ content Hm
             Hvisit).
    rewrite Hdocs. exact Hload.
  - by apply visitLexerRuleSpec_raises.
Qed.

Lemma name_directive_without_argument_witness :
  exists info st',
    load_docs Demo.host 1
      [{| text := "//@ doc:name  "; tok_line := 3 |}] Demo.two_models
    = Return info
        (logged [(ERROR, MsgNameRequiresArgument
                           {| file := "/g/G.g4"; line := 3 |})]
                Demo.two_models)
    /\ doc_name info = Some ""%string
    /\ LexerRuleLoader.visitLexerRuleSpec Demo.host 1
         {| lexer_docs := [{| text := "//@ doc:name  "; tok_line := 3 |}];
            lexer_frag := false; lexer_name := "N";
            lexer_start_line := 4;
            lexerRuleBlock := LexerAtomWildcard |} Demo.two_models
       = Return tt st'.
Proof.
  destruct (name_directive_without_argument Demo.host 1
              (ModelImpl.__init__ "/g/G.g4" 0 false) Demo.two_models
              (Py.chars " ") [] [] (Py.chars "  ") 3
              {| lexer_docs := [{| text := "//@ doc:name  "; tok_line := 3 |}];
                 lexer_frag := false; lexer_name := "N";
                 lexer_start_line := 4;
                 lexerRuleBlock := LexerAtomWildcard |}
              eq_refl eq_refl eq_refl eq_refl eq_refl eq_refl)
    as (info & Hload & Hname & Hrule).
  cbn [lexerRuleBlock LexerRuleLoader.visit] in Hrule.
  destruct Hrule as [Hrule _].
  exists info. eexists. split; [exact Hload|]. split; [exact Hname|exact Hrule].
Defined.

Lemma load_docs_loop_app host model (a b : list Token) v st :
  load_docs_loop host model (a ++ b) v st
  = (let! v' := load_docs_loop host model a v in
     load_docs_loop host model b v') st.
Proof.
  revert v st. induction a as [|token a IH]; intros v st; [reflexivity|].
  cbn [app load_docs_loop]. unfold bind at 1 2 3.
  destruct (load_docs_token host model token v st) as [v1 st1| |];
    try reflexivity.
  rewrite IH. reflexivity.
Qed.

(** X8: [load_docs] returns, and writes to nothing but the log, when
    every token has some text; a token with an empty text makes it
    raise [ValueError], after the diagnostics of the tokens before. *)
Theorem load_docs_empty_text
        (host : Host) (model : loc) (this : ModelImpl) (st : State)
        (before after : list Token) (l : Z)
        (Hm : models st !! model = Some this)
        (Hbefore : Forall (fun token => text token <> ""%string) before) :
  (exists info records,
      load_docs host model before st = Return info (logged records st))
  /\ (exists records,
         load_docs host model
           (before ++ {| text := ""; tok_line := l |} :: after) st
         = Raise ValueError (logged records st)).
Proof.
  split; [by eapply load_docs_only_logs|].
  destruct (load_docs_loop_only_logs host model this before Docs.initial st
              Hm Hbefore) as (v & records & Hloop).
  exists records. unfold load_docs. unfold bind at 1.
  rewrite load_docs_loop_app. unfold bind at 1. rewrite Hloop.
  cbn [load_docs_loop]. unfold bind at 1.
  unfold load_docs_token. unfold bind at 1.
  rewrite (get_model_eq model this) by exact Hm. reflexivity.
Qed.

Lemma load_docs_empty_text_witness :
  exists records,
    load_docs Demo.host 1
      [{| text := "/** a */"; tok_line := 1 |};
       {| text := ""; tok_line := 2 |}] Demo.two_models
    = Raise ValueError (logged records Demo.two_models).
Proof.
  exact (proj2 (load_docs_empty_text Demo.host 1
                  (ModelImpl.__init__ "/g/G.g4" 0 false) Demo.two_models
                  [{| text := "/** a */"; tok_line := 1 |}] [] 2 eq_refl
                  ltac:(repeat constructor; discriminate))).
Defined.

Lemma chars_app (a b : string) : Py.chars (a +:+ b) = Py.chars a ++ Py.chars b.
Proof.
  induction a as [|c a IH]; [reflexivity|].
  unfold Py.chars in *. simpl. by rewrite IH.
Qed.

Lemma splitlines_chars_one_line cur l :
  one_line l = true -> rev cur ++ l <> [] ->
  Py.splitlines_chars cur l = [rev cur ++ l].
Proof.
  revert cur. induction l as [|c l IH]; intros cur Hone Hne; simpl.
  - rewrite app_nil_r in *. destruct cur; [simpl in Hne; congruence|reflexivity].
  - simpl in Hone. apply andb_true_iff in Hone as [Hc Hl].
    apply negb_true_iff in Hc. rewrite Hc.
    rewrite IH; [|exact Hl|].
    + simpl. by rewrite <- app_assoc.
    + simpl. rewrite <- app_assoc. simpl. by destruct (rev cur).
Qed.

Lemma lstrip_chars_head c l :
  Py.isspace c = false -> Py.lstrip_chars (c :: l) = c :: l.
Proof. intros H. unfold Py.lstrip_chars. simpl. by rewrite H. Qed.

Lemma rstrip_chars_last c l :
  Py.isspace c = false -> Py.rstrip_chars (l ++ [c]) = l ++ [c].
Proof.
  intros H. unfold Py.rstrip_chars. rewrite rev_app_distr. simpl.
  rewrite H. simpl. by rewrite rev_involutive.
Qed.

(** X9: a documentation comment on one line, made of the opening
    fence, a body and the closing fence, gives the body without the
    white space around it as the documentation, and no diagnostic; the
    other entries keep their defaults. *)
Theorem one_line_doc_comment
        (host : Host) (model : loc) (this : ModelImpl) (st : State)
        (body : string) (l : Z)
        (Hm : models st !! model = Some this)
        (Hline : one_line (Py.chars body) = true) :
  load_docs host model
    [{| text := "/**" +:+ body +:+ "*/"; tok_line := l |}] st
  = Return {| doc_css_class := ""; doc_importance := 1;
              doc_is_doxygen_inline := false;
              doc_is_doxygen_nodoc := false; doc_name := None;
              doc_documentation := Py.strip body |} st.
Proof.
  set (inner := Py.chars "/**" ++ Py.chars body ++ Py.chars "*").
  set (all := inner ++ Py.chars "/").
  assert (Hall : all = Py.chars "/**" ++ Py.chars body ++ Py.chars "*/").
  { unfold all, inner. by rewrite <- !app_assoc. }
  assert (Hchars : Py.chars ("/**" +:+ body +:+ "*/") = all)
    by (by rewrite !chars_app, Hall).
  assert (Htext : ("/**" +:+ body +:+ "*/")%string = Py.str all)
    by (by rewrite <- Hchars, str_of_chars).
  assert (Hlines : Py.splitlines (Py.str all) = [Py.str all]).
  { unfold Py.splitlines. rewrite chars_of_str.
    rewrite (splitlines_chars_one_line [] all); [reflexivity| |].
    - rewrite Hall. unfold one_line. rewrite !forallb_app.
      unfold one_line in Hline. by rewrite Hline.
    - rewrite Hall. discriminate. }
  assert (Hstrip : Py.strip (Py.str all) = Py.str all).
  { unfold Py.strip. rewrite chars_of_str. f_equal.
    rewrite Hall at 1. cbn [Py.chars list_ascii_of_string app].
    rewrite lstrip_chars_head by reflexivity.
    change (Py.rstrip_chars (Py.chars "/**" ++ Py.chars body ++ Py.chars "*/")
            = all).
    rewrite <- Hall. unfold all.
    change (Py.chars "/") with ["/"%char].
    by rewrite rstrip_chars_last. }
  assert (Hslice : Py.slice_from_to_neg 3 2 (Py.str all) = body).
  { unfold Py.slice_from_to_neg. rewrite chars_of_str.
    transitivity (Py.str (Py.chars body)); [|apply str_of_chars]. f_equal.
    rewrite Hall, !length_app.
    replace (length (Py.chars "/**") + (length (Py.chars body)
             + length (Py.chars "*/")) - 2)
      with (length (Py.chars "/**" ++ Py.chars body) + 0)
      by (rewrite length_app; simpl; lia).
    rewrite app_assoc, firstn_app_2. simpl firstn. rewrite app_nil_r.
    reflexivity. }
  assert (Htoken : load_docs_token host model
                     {| text := Py.str all; tok_line := l |} Docs.initial st
                   = Return (Docs.append_line (Py.strip body) Docs.initial)
                       (logged [] st)).
  { unfold load_docs_token. unfold bind at 1.
    rewrite (get_model_eq model this) by exact Hm. cbn [text].
    assert (Hs : Py.startswith (Py.str all) "//@" = false).
    { unfold Py.startswith. rewrite chars_of_str, Hall. reflexivity. }
    rewrite Hs. unfold load_docs_text. rewrite Hlines. cbn [map].
    rewrite Hstrip, Hslice, logged_nil. reflexivity. }
  rewrite Htext.
  rewrite (load_docs_one_token host model this st _ _ _ Hm Htoken).
  by rewrite logged_nil.
Qed.

Lemma one_line_doc_comment_witness :
  load_docs Demo.host 1
    [{| text := "/** The  token. */"; tok_line := 2 |}] Demo.two_models
  = Return {| doc_css_class := ""; doc_importance := 1;
              doc_is_doxygen_inline := false;
              doc_is_doxygen_nodoc := false; doc_name := None;
              doc_documentation := "The  token." |} Demo.two_models.
Proof.
  exact (one_line_doc_comment Demo.host 1
           (ModelImpl.__init__ "/g/G.g4" 0 false) Demo.two_models
           " The  token. " 2 eq_refl eq_refl).
Defined.

(** ** More on ModelImpl *)

(** X10: a rule set under a name is the one that [lookup_local] finds
    under that name afterwards, except that a parser rule stays hidden
    behind a lexer rule of its name; the look-ups of all other names,
    and all other model objects, stay as they were. *)
Theorem set_rule_then_lookup
        (model : loc) (this : ModelImpl) (st : State)
        (name : string) (rule : loc)
        (Hm : models st !! model = Some this) :
  (exists st' this',
      ModelImpl.set_lexer_rule model name rule st = Return tt st'
      /\ models st' = <[model := this']> (models st)
      /\ models st' !! model = Some this'
      /\ ModelImpl.lookup_local this' name = Some rule
      /\ forall other, other <> name ->
           ModelImpl.lookup_local this' other
           = ModelImpl.lookup_local this other)
  /\ (exists st' this',
         ModelImpl.set_parser_rule model name rule st = Return tt st'
         /\ models st' = <[model := this']> (models st)
         /\ models st' !! model = Some this'
         /\ ModelImpl.lookup_local this' name
            = Some (default rule (_lexer_rules this !! name))
         /\ forall other, other <> name ->
              ModelImpl.lookup_local this' other
              = ModelImpl.lookup_local this other).
Proof.
  pose proof (lookup_lt_Some _ _ _ Hm) as Hlt.
  split.
  - eexists _, _. split; [by apply set_lexer_rule_eq|].
    split; [reflexivity|].
    split; [by apply list_lookup_insert_eq|].
    unfold ModelImpl.lookup_local. cbn [with_lexer_rules _lexer_rules _parser_rules].
    split; [by rewrite lookup_insert_eq|].
    intros other Hne. by rewrite lookup_insert_ne.
  - eexists _, _. split; [by apply set_parser_rule_eq|].
    split; [reflexivity|].
    split; [by apply list_lookup_insert_eq|].
    unfold ModelImpl.lookup_local. cbn [with_parser_rules _lexer_rules _parser_rules].
    split.
    + destruct (_lexer_rules this !! name); [reflexivity|].
      by rewrite lookup_insert_eq.
    + intros other Hne. by rewrite lookup_insert_ne.
Qed.

Lemma set_rule_then_lookup_witness :
  exists st' this',
    ModelImpl.set_parser_rule 0 "X" 7
      {| models := [Demo.both_kinds]; rule_objects := []; _loaded := ∅;
         log := []; parses := 0 |} = Return tt st'
    /\ models st' !! 0 = Some this'
    /\ ModelImpl.lookup_local this' "X" = Some 0.
Proof.
  destruct (set_rule_then_lookup 0 Demo.both_kinds
              {| models := [Demo.both_kinds]; rule_objects := [];
                 _loaded := ∅; log := []; parses := 0 |} "X" 7 eq_refl)
    as (_ & st' & this' & Hrun & _ & Hthis & Hlook & _).
  exists st', this'. split; [exact Hrun|]. split; [exact Hthis|exact Hlook].
Defined.

(** X11: whatever [lookup_local] finds is among the terminals or the
    non-terminals of the model, and every terminal is found by
    [lookup_local] under some name; a registered rule is listed once,
    under however many names it is held. *)
Theorem lookup_local_and_terminals (self : ModelImpl) :
  (forall name rule,
      ModelImpl.lookup_local self name = Some rule ->
      rule ∈ get_terminals self ∪ get_non_terminals self)
  /\ (forall rule,
         rule ∈ get_terminals self <->
         exists name, _lexer_rules self !! name = Some rule)
  /\ (forall rule,
         rule ∈ get_terminals self ->
         exists name, ModelImpl.lookup_local self name = Some rule)
  /\ (forall name literal rule,
         _lexer_rules self !! name = None ->
         _lexer_rules self !! literal = None ->
         get_terminals
           (with_lexer_rules
              (<[literal := rule]> (<[name := rule]> (_lexer_rules self)))
              self)
         = {[ rule ]} ∪ get_terminals self).
Proof.
  unfold get_terminals, get_non_terminals, ModelImpl.lookup_local.
  split; [|split; [|split]].
  - intros name rule H.
    destruct (_lexer_rules self !! name) as [r|] eqn:El.
    + injection H as <-. apply elem_of_union_l, elem_of_map_img. eauto.
    + destruct (_parser_rules self !! name) as [r|] eqn:Ep; [|discriminate].
      injection H as <-. apply elem_of_union_r, elem_of_map_img. eauto.
  - intros rule. apply elem_of_map_img.
  - intros rule H. apply elem_of_map_img in H as [name H].
    exists name. by rewrite H.
  - intros name literal rule Hname Hlit. cbn [with_lexer_rules _lexer_rules].
    destruct (decide (literal = name)) as [->|Hne].
    + rewrite insert_insert_eq. by apply map_img_insert_notin_L.
    + rewrite map_img_insert_notin_L
        by (by rewrite lookup_insert_ne by congruence).
      rewrite map_img_insert_notin_L by exact Hname.
      by rewrite (assoc_L (∪)), (idemp_L (∪)).
Qed.

Lemma lookup_local_and_terminals_witness :
  0 ∈ get_terminals Demo.both_kinds ∪ get_non_terminals Demo.both_kinds.
Proof.
  exact (proj1 (lookup_local_and_terminals Demo.both_kinds) "X"%string 0
           eq_refl).
Defined.

(** ** The tokens block *)

Lemma meta_pass_no_imports host from_file model basedir
      (before : list PrequelConstructContext) st :
  forallb no_tokens before = true ->
  import_declarations {| prequel := before; rules := []; modes := [] |} = [] ->
  for_each before
    (MetaLoader.visitPrequelConstruct host from_file model basedir) st
  = Return tt st.
Proof.
  rewrite import_declarations_flat.
  induction before as [|c before IH]; intros Hno Himp; [reflexivity|].
  simpl in Hno. apply andb_true_iff in Hno as [Hc Hno].
  cbn [flat_map] in Himp. apply app_eq_nil in Himp as [Hc0 Himp].
  cbn [for_each]. unfold bind.
  assert (H : MetaLoader.visitPrequelConstruct host from_file model basedir
                c st = Return tt st).
  { destruct c as [options|grammars|defs|];
      cbn [MetaLoader.visitPrequelConstruct].
    - induction options as [|o options IHo]; [reflexivity|].
      cbn [flat_map] in Hc0. apply app_eq_nil in Hc0 as [Ho Hc0].
      cbn [for_each]. unfold bind. unfold MetaLoader.visitOption at 1.
      destruct (String.eqb (option_name o) "tokenVocab"); [discriminate|].
      unfold ret at 1. by apply IHo.
    - destruct grammars; [reflexivity|discriminate].
    - discriminate.
    - reflexivity. }
  rewrite H. by apply IH.
Qed.

Lemma visitTokensSpec_raises model this defs st :
  models st !! model = Some this -> defs <> Some [] ->
  MetaLoader.visitTokensSpec model defs st
  = Raise (match defs with None => AttributeError | Some _ => TypeError end)
      st.
Proof.
  intros Hm Hdefs. unfold MetaLoader.visitTokensSpec.
  destruct defs as [[|token tokens]|]; [congruence| |reflexivity].
  cbn [for_each]. unfold bind at 1. unfold bind at 1.
  rewrite (get_model_eq model this) by exact Hm. reflexivity.
Qed.

(** X12: a [tokens] block stops the load of its grammar.
    [visitTokensSpec] raises [AttributeError] on a block without names
    and [TypeError] at the first name of any other block, before a
    rule is made for it; nothing is declared.  [from_text] on a text
    that parses to a grammar with such a block raises after the import
    declarations before the block were reported; [from_file] on a file
    of such a text, with no import declaration before the block, raises
    and does not memoize the path, so that a later request for the same
    file parses it again. *)
Theorem tokens_block_raises
        (host : Host) (fuel : nat) (text path : string) (offset : Z)
        (st : State)
        (before after : list PrequelConstructContext)
        (defs : option (list IdentifierContext))
        (Hok : getNumberOfSyntaxErrors (grammarSpec host text) = 0)
        (Hprequel : prequel (tree (grammarSpec host text))
                    = before ++ TokensSpec defs :: after)
        (Hbefore : forallb no_tokens before = true)
        (Hdefs : defs <> Some []) :
  let exn := match defs with
             | None => AttributeError
             | Some _ => TypeError
             end in
  let records :=
    syntax_records path offset (reports (grammarSpec host text)) in
  let file := abspath_normpath host path in
  let file_records :=
    syntax_records file offset (reports (grammarSpec host text)) in
  (forall model this s,
      models s !! model = Some this ->
      MetaLoader.visitTokensSpec model defs s = Raise exn s)
  /\ ModelCacheImpl.from_text host fuel text (inr (path, offset)) st
     = Raise exn
         (logged (repeat (ERROR, MsgImportsNotAllowed)
                    (length (import_declarations
                               {| prequel := before; rules := [];
                                  modes := [] |})))
            (parsed_into (ModelImpl.__init__ path offset true) records st))
  /\ (import_declarations {| prequel := before; rules := []; modes := [] |}
      = [] ->
      disk host file = File text -> _loaded st !! file = None ->
      ModelCacheImpl.from_file host (S fuel) (inr (path, offset)) st
      = Raise exn
          (parsed_into (ModelImpl.__init__ file offset false)
             file_records st)
      /\ _loaded (parsed_into (ModelImpl.__init__ file offset false)
                    file_records st) !! file = None).
Proof.
  intros exn records file file_records.
  split; [|split].
  - intros model this s Hm. by apply (visitTokensSpec_raises model this).
  - unfold ModelCacheImpl.from_text. cbn [ModelCacheImpl.unpack].
    rewrite _do_load_unfold. rewrite Hok. cbn [Nat.ltb Nat.leb].
    fold records.
    set (o := ModelImpl.__init__ path offset true).
    set (st1 := parsed_into o records st).
    assert (Hm : models st1 !! length (models st) = Some o).
    { simpl. by rewrite lookup_app_r, Nat.sub_diag by lia. }
    unfold bind at 1. unfold bind at 1. unfold bind at 1.
    unfold MetaLoader.visitGrammarSpec. rewrite Hprequel.
    rewrite (meta_pass_tokens_in_memory host
               (ModelCacheImpl.from_file host fuel) (length (models st)) o
               (MetaLoader.__init__basedir host o) before defs after st1
               Hm eq_refl Hbefore Hdefs).
    reflexivity.
  - intros Himports Hdisk Hnew.
    split; [|exact Hnew].
    cbn [ModelCacheImpl.from_file ModelCacheImpl.unpack]. fold file.
    unfold bind at 1. unfold ModelCacheImpl.get_loaded at 1.
    rewrite Hnew, Hdisk.
    unfold bind at 1.
    rewrite _do_load_unfold. rewrite Hok. cbn [Nat.ltb Nat.leb].
    fold file_records.
    set (o := ModelImpl.__init__ file offset false).
    set (st1 := parsed_into o file_records st).
    assert (Hm : models st1 !! length (models st) = Some o).
    { simpl. by rewrite lookup_app_r, Nat.sub_diag by lia. }
    unfold bind at 1. unfold bind at 1. unfold bind at 1.
    unfold MetaLoader.visitGrammarSpec. rewrite Hprequel.
    rewrite for_each_app. unfold bind at 1.
    rewrite (meta_pass_no_imports host _ _ _ before st1 Hbefore Himports).
    cbn [for_each MetaLoader.visitPrequelConstruct]. unfold bind at 1.
    rewrite (visitTokensSpec_raises _ o defs st1 Hm Hdefs).
    reflexivity.
Qed.

Lemma tokens_block_raises_witness :
  exists st',
    ModelCacheImpl.from_file Demo.host 1 (inr ("/g/T.g4"%string, 0%Z))
      Demo.fresh
    = Raise TypeError st'
    /\ _loaded st' !! "/g/T.g4"%string = None
    /\ rule_objects st' = [].
Proof.
  destruct (tokens_block_raises Demo.host 0 Demo.tokens_text "/g/T.g4" 0
              Demo.fresh []
              [] (Some [{| identifier_text := "INDENT";
                           identifier_start_line := 1 |};
                        {| identifier_text := "DEDENT";
                           identifier_start_line := 1 |}])
              eq_refl eq_refl eq_refl ltac:(discriminate))
    as (_ & _ & Hfile).
  destruct (Hfile eq_refl eq_refl eq_refl) as [Hrun Hloaded].
  eexists. split; [exact Hrun|]. split; [exact Hloaded|reflexivity].
Defined.

(** ** More on the cache and the meta pass *)

Lemma bind_Return {A B} (m : M A) (f : A -> M B) st a st1 :
  m st = Return a st1 -> bind m f st = f a st1.
Proof. intros H. unfold bind. by rewrite H. Qed.

Lemma bind_OutOfFuel {A B} (m : M A) (f : A -> M B) st :
  m st = OutOfFuel -> bind m f st = OutOfFuel.
Proof. intros H. unfold bind. by rewrite H. Qed.

Lemma from_file_missing_eq host fuel (p : string) st :
  _loaded st !! abspath_normpath host p = None ->
  disk host (abspath_normpath host p) = NoFile ->
  ModelCacheImpl.from_file host (S fuel) (inl p) st
  = Return (length (models st))
      {| models :=
           models st ++ [ModelImpl.__init__ (abspath_normpath host p) 0 false];
         rule_objects := rule_objects st;
         _loaded := <[abspath_normpath host p := length (models st)]>
                      (_loaded st);
         log := log st ++ [(ERROR, MsgFileNotFound (abspath_normpath host p))];
         parses := parses st |}.
Proof.
  intros Hnew Hmissing. cbn [ModelCacheImpl.from_file ModelCacheImpl.unpack].
  unfold bind at 1. unfold ModelCacheImpl.get_loaded at 1.
  rewrite Hnew, Hmissing. reflexivity.
Qed.

(** X13: an import of a file that is missing and not memoized does not
    fail the meta pass: the option reports the one diagnostic of the
    missing file, and an empty placeholder model, memoized under the
    normalized path, joins the imports of the loading model. *)
Theorem missing_import_is_absorbed
        (host : Host) (fuel : nat) (model : loc) (this : ModelImpl)
        (st : State) (V : string) (l : Z)
        (Hm : models st !! model = Some this)
        (Hfile : _in_memory this = false)
        (Hok : cache_ok st)
        (Hnew : _loaded st
                !! abspath_normpath host
                     (join host (dirname host (_path this)) (V +:+ ".g4"))
                = None)
        (Hmissing : disk host
                      (abspath_normpath host
                         (join host (dirname host (_path this)) (V +:+ ".g4")))
                    = NoFile) :
  let key :=
    abspath_normpath host
      (join host (dirname host (_path this)) (V +:+ ".g4")) in
  let placeholder := length (models st) in
  MetaLoader.visitOption host (ModelCacheImpl.from_file host (S fuel)) model
    (MetaLoader.__init__basedir host this)
    {| option_name := "tokenVocab"; option_value := V;
       option_start_line := l |} st
  = Return tt
      {| models :=
           <[model := with_imports (_imports this ∪ {[placeholder]}) this]>
             (models st ++ [ModelImpl.__init__ key 0 false]);
         rule_objects := rule_objects st;
         _loaded := <[key := placeholder]> (_loaded st);
         log := log st ++ [(ERROR, MsgFileNotFound key)];
         parses := parses st |}.
Proof.
  intros key placeholder.
  unfold MetaLoader.visitOption. cbn [option_name option_value].
  change (String.eqb "tokenVocab" "tokenVocab") with true. cbv iota.
  rewrite (bind_Return _ _ _ _ _ (get_model_eq _ _ _ Hm)).
  unfold MetaLoader.__init__basedir, ModelImpl.is_in_memory,
    ModelImpl.get_path.
  rewrite Hfile.
  rewrite (meta_add_import_file host (S fuel) model this) by assumption.
  rewrite (from_file_missing_eq host fuel _ st Hnew Hmissing).
  reflexivity.
Qed.

Lemma missing_import_is_absorbed_witness :
  exists st',
    MetaLoader.visitOption Demo.host (ModelCacheImpl.from_file Demo.host 1) 1
      (Some "/g"%string)
      {| option_name := "tokenVocab"; option_value := "Missing";
         option_start_line := 1 |} Demo.two_models
    = Return tt st'
    /\ log st' = [(ERROR, MsgFileNotFound "/g/Missing.g4")].
Proof.
  eexists. split.
  - exact (missing_import_is_absorbed Demo.host 0 1
             (ModelImpl.__init__ "/g/G.g4" 0 false) Demo.two_models
             "Missing" 1 eq_refl eq_refl cache_ok_two_models
             eq_refl eq_refl).
  - reflexivity.
Defined.

(** X14: a grammar whose first option imports the grammar itself is
    never loaded: the cache follows the import before it memoizes the
    model, so that whatever the depth allowed to the chain of imports,
    [from_file] does not come back. *)
Theorem self_import_never_returns
        (host : Host) (fuel : nat) (path : PathArg) (st : State)
        (content V : string) (l : Z)
        (options : list OptionContext)
        (constructs : list PrequelConstructContext)
        (Hnew : _loaded st
                !! abspath_normpath host (ModelCacheImpl.unpack path).1
                = None)
        (Hfile : disk host
                   (abspath_normpath host (ModelCacheImpl.unpack path).1)
                 = File content)
        (Hclean : getNumberOfSyntaxErrors (grammarSpec host content) = 0)
        (Htree : prequel (tree (grammarSpec host content))
                 = OptionsSpec
                     ({| option_name := "tokenVocab"; option_value := V;
                         option_start_line := l |} :: options)
                   :: constructs)
        (Hself : abspath_normpath host
                   (join host
                      (dirname host
                         (abspath_normpath host
                            (ModelCacheImpl.unpack path).1))
                      (V +:+ ".g4"))
                 = abspath_normpath host (ModelCacheImpl.unpack path).1) :
  ModelCacheImpl.from_file host fuel path st = OutOfFuel.
Proof.
  remember (abspath_normpath host (ModelCacheImpl.unpack path).1) as key
    eqn:Hkey0.
  assert (Hgen : forall n q s,
             abspath_normpath host (ModelCacheImpl.unpack q).1 = key ->
             _loaded s !! key = None ->
             ModelCacheImpl.from_file host n q s = OutOfFuel).
  { clear Hnew Hkey0 st path fuel.
    induction n as [|fuel IH]; intros path st Hkey Hnew; [reflexivity|].
    cbn [ModelCacheImpl.from_file].
    destruct (ModelCacheImpl.unpack path) as [p offset]. cbn [fst] in Hkey.
    rewrite Hkey.
    unfold bind at 1. unfold ModelCacheImpl.get_loaded at 1.
    rewrite Hnew, Hfile.
    apply bind_OutOfFuel. rewrite _do_load_unfold, Hclean.
    change (0 <? 0) with false. cbv iota.
    apply bind_OutOfFuel.
    unfold MetaLoader.visitGrammarSpec. rewrite Htree.
    cbn [for_each MetaLoader.visitPrequelConstruct].
    apply bind_OutOfFuel, bind_OutOfFuel.
    unfold MetaLoader.visitOption. cbn [option_name option_value].
    change (String.eqb "tokenVocab" "tokenVocab") with true. cbv iota.
    set (o := ModelImpl.__init__ key offset false).
    set (st1 := parsed_into o _ st).
    assert (Hm : models st1 !! length (models st) = Some o).
    { simpl. by rewrite lookup_app_r, Nat.sub_diag by lia. }
    rewrite (bind_Return _ _ _ _ _ (get_model_eq _ _ _ Hm)).
    unfold MetaLoader.add_import.
    rewrite (bind_Return _ _ _ _ _ (get_model_eq _ _ _ Hm)).
    cbn [ModelImpl.is_in_memory o ModelImpl.__init__ _in_memory
         MetaLoader.__init__basedir ModelImpl.get_path _path].
    apply bind_OutOfFuel. apply IH; [exact Hself|exact Hnew]. }
  apply Hgen; [by rewrite Hkey0|exact Hnew].
Qed.

Lemma self_import_never_returns_witness :
  ModelCacheImpl.from_file Loop.host 50 (inl "Loop.g4"%string) Demo.fresh
  = OutOfFuel.
Proof.
  exact (self_import_never_returns Loop.host 50 (inl "Loop.g4"%string)
           Demo.fresh Loop.loop_text "Loop" 1 [] []
           eq_refl eq_refl eq_refl eq_refl eq_refl).
Defined.

(** ** What the passes leave alone *)

Lemma settled_refl o : settled o o.
Proof. repeat split; reflexivity. Qed.

Lemma settled_trans o1 o2 o3 : settled o1 o2 -> settled o2 o3 -> settled o1 o3.
Proof.
  intros (H1 & H2 & H3 & H4) (H1' & H2' & H3' & H4').
  repeat split; congruence.
Qed.

Lemma lexer_only_refl o : lexer_only o o.
Proof. split; [apply settled_refl|reflexivity]. Qed.

Lemma lexer_only_trans o1 o2 o3 :
  lexer_only o1 o2 -> lexer_only o2 o3 -> lexer_only o1 o3.
Proof.
  intros [S1 H1] [S2 H2]. split; [by eapply settled_trans|congruence].
Qed.

Lemma parser_only_refl o : parser_only o o.
Proof. split; [apply settled_refl|reflexivity]. Qed.

Lemma parser_only_trans o1 o2 o3 :
  parser_only o1 o2 -> parser_only o2 o3 -> parser_only o1 o3.
Proof.
  intros [S1 H1] [S2 H2]. split; [by eapply settled_trans|congruence].
Qed.

Section Reshapes.

Variable P : ModelImpl -> Prop.
Variable same : ModelImpl -> ModelImpl -> Prop.
Variable n : loc.
Hypothesis same_refl : forall o, same o o.
Hypothesis same_trans :
  forall o1 o2 o3, same o1 o2 -> same o2 o3 -> same o1 o3.

Lemma reshapes_refl st : reshapes P same n st st.
Proof.
  intros this Hm HP. repeat split.
  exists this. split; [|auto]. symmetry. by apply list_insert_id.
Qed.

Lemma reshapes_trans st1 st2 st3 :
  reshapes P same n st1 st2 -> reshapes P same n st2 st3 ->
  reshapes P same n st1 st3.
Proof.
  intros H12 H23 this Hm HP.
  destruct (H12 this Hm HP) as (L1 & C1 & this2 & M2 & P2 & S2).
  assert (Hm2 : models st2 !! n = Some this2).
  { rewrite M2. apply list_lookup_insert_eq. by eapply lookup_lt_Some. }
  destruct (H23 this2 Hm2 P2) as (L2 & C2 & this3 & M3 & P3 & S3).
  split; [congruence|]. split; [congruence|].
  exists this3. split; [|split; [exact P3|by eapply same_trans]].
  rewrite M3, M2. apply list_insert_insert_eq.
Qed.

Lemma reshapes_for_each {A} (l : list A) (body : A -> M unit) :
  (forall x st st', body x st = Return tt st' -> reshapes P same n st st') ->
  forall st st',
    for_each l body st = Return tt st' -> reshapes P same n st st'.
Proof.
  intros Hb. induction l as [|x l IH]; intros st st' H.
  - injection H as <-. apply reshapes_refl.
  - simpl in H. apply bind_inv in H as ([] & st1 & H1 & H2).
    eapply reshapes_trans; [by eapply Hb|by apply IH].
Qed.

End Reshapes.

Lemma reshapes_weaken (P : ModelImpl -> Prop) (same same' : ModelImpl -> ModelImpl -> Prop) n st st' :
  (forall o o', same o o' -> same' o o') ->
  reshapes P same n st st' -> reshapes P same' n st st'.
Proof.
  intros Hw H this Hm HP.
  destruct (H this Hm HP) as (L & C & this' & M & P' & S).
  split; [exact L|]. split; [exact C|]. exists this'. auto.
Qed.

Lemma visitLexerRuleSpec_inv host n ctx st st' :
  LexerRuleLoader.visitLexerRuleSpec host n ctx st = Return tt st' ->
  exists this info records content,
    models st !! n = Some this
    /\ LexerRuleLoader.visit n (lexerRuleBlock ctx) = Some content
    /\ load_docs host n (lexer_docs ctx) st = Return info (logged records st)
    /\ st' = with_models
               (<[n := with_lexer_rules
                         (lexer_rules_with ctx content
                            (length (rule_objects st))
                            (_lexer_rules this)) this]> (models st))
               (with_rule
                  (ALexerRule (lexer_rule_object n this ctx info content))
                  (logged records st)).
Proof.
  intros H.
  destruct (LexerRuleLoader.visit n (lexerRuleBlock ctx)) as [content|]
    eqn:Hvisit;
    [|rewrite (visitLexerRuleSpec_raises host n ctx st Hvisit) in H;
      discriminate].
  pose proof H as H0.
  unfold LexerRuleLoader.visitLexerRuleSpec in H0.
  unfold bind at 1 in H0. unfold LexerRuleLoader.visit_or_raise at 1 in H0.
  rewrite Hvisit in H0. unfold ret at 1 in H0.
  apply bind_inv in H0 as (info & st1 & Hload & Hrest).
  destruct (log_only_load_docs host n _ _ _ _ Hload) as (records & ->).
  destruct (models st !! n) as [this|] eqn:Hm.
  - exists this, info, records, content. split; [reflexivity|].
    split; [reflexivity|]. split; [exact Hload|].
    rewrite (visitLexerRuleSpec_registers host n this ctx st info records
               content Hm Hvisit Hload) in H.
    by injection H as <-.
  - exfalso. clear Hvisit.
    destruct content; unfold bind, get_model in Hrest; simpl in Hrest;
      rewrite Hm in Hrest; discriminate.
Qed.

Lemma visitParserRuleSpec_inv host n ctx st st' :
  ParserRuleLoader.visitParserRuleSpec host n ctx st = Return tt st' ->
  exists this info records content,
    models st !! n = Some this
    /\ ParserRuleLoader.visit n (ruleBlock ctx) = Some content
    /\ load_docs host n (parser_docs ctx) st = Return info (logged records st)
    /\ st' = with_models
               (<[n := with_parser_rules
                         (<[parser_name ctx := length (rule_objects st)]>
                            (_parser_rules this)) this]> (models st))
               (with_rule
                  (AParserRule (parser_rule_object n this ctx info content))
                  (logged records st)).
Proof.
  intros H.
  destruct (parser_visit_returns n (ruleBlock ctx)) as [content Hvisit].
  pose proof H as H0.
  unfold ParserRuleLoader.visitParserRuleSpec in H0.
  unfold bind at 1 in H0. unfold ParserRuleLoader.visit_or_raise at 1 in H0.
  rewrite Hvisit in H0. unfold ret at 1 in H0.
  apply bind_inv in H0 as (info & st1 & Hload & Hrest).
  destruct (log_only_load_docs host n _ _ _ _ Hload) as (records & ->).
  destruct (models st !! n) as [this|] eqn:Hm.
  - exists this, info, records, content. split; [reflexivity|].
    split; [exact Hvisit|]. split; [exact Hload|].
    rewrite (visitParserRuleSpec_registers host n this ctx st info records
               content Hm Hvisit Hload) in H.
    by injection H as <-.
  - exfalso. unfold bind, get_model in Hrest; simpl in Hrest.
    rewrite Hm in Hrest. discriminate.
Qed.

Lemma reshapes_put (P : ModelImpl -> Prop) (same : ModelImpl -> ModelImpl -> Prop)
      n (this this' : ModelImpl) st st0 :
  models st !! n = Some this ->
  (P this -> P this' /\ same this this') ->
  _loaded st0 = _loaded st -> parses st0 = parses st ->
  reshapes P same n st (with_models (<[n := this']> (models st)) st0).
Proof.
  intros Hm Hs HL HC this0 Hm0 HP.
  rewrite Hm in Hm0. injection Hm0 as <-.
  destruct (Hs HP) as [HP' Hsame].
  split; [exact HL|]. split; [exact HC|]. exists this'. auto.
Qed.

Lemma lexer_rule_reshapes host (P : ModelImpl -> Prop) n ctx st st' :
  (forall o o', lexer_only o o' -> P o -> P o') ->
  LexerRuleLoader.visitLexerRuleSpec host n ctx st = Return tt st' ->
  reshapes P lexer_only n st st'.
Proof.
  intros HP H.
  apply visitLexerRuleSpec_inv in H
    as (this & info & records & content & Hm & _ & _ & ->).
  apply reshapes_put with (this := this); try reflexivity; [exact Hm|].
  assert (Hs : lexer_only this
                 (with_lexer_rules
                    (lexer_rules_with ctx content (length (rule_objects st))
                       (_lexer_rules this)) this))
    by (repeat split; reflexivity).
  intros Hthis. split; [by eapply HP|exact Hs].
Qed.

Lemma parser_rule_reshapes host (P : ModelImpl -> Prop) n ctx st st' :
  (forall o o', parser_only o o' -> P o -> P o') ->
  ParserRuleLoader.visitParserRuleSpec host n ctx st = Return tt st' ->
  reshapes P parser_only n st st'.
Proof.
  intros HP H.
  apply visitParserRuleSpec_inv in H
    as (this & info & records & content & Hm & _ & _ & ->).
  apply reshapes_put with (this := this); try reflexivity; [exact Hm|].
  assert (Hs : parser_only this
                 (with_parser_rules
                    (<[parser_name ctx := length (rule_objects st)]>
                       (_parser_rules this)) this))
    by (repeat split; reflexivity).
  intros Hthis. split; [by eapply HP|exact Hs].
Qed.

Lemma lexer_pass_reshapes host (P : ModelImpl -> Prop) n tree st st' :
  (forall o o', lexer_only o o' -> P o -> P o') ->
  LexerRuleLoader.visitGrammarSpec host n tree st = Return tt st' ->
  reshapes P lexer_only n st st'.
Proof.
  intros HP H. unfold LexerRuleLoader.visitGrammarSpec in H.
  apply bind_inv in H as ([] & st1 & H1 & H2).
  eapply reshapes_trans; [exact lexer_only_trans| |].
  - eapply reshapes_for_each;
      [exact lexer_only_refl|exact lexer_only_trans| |exact H1].
    intros [ctx|ctx] s s' Hs; simpl in Hs.
    + injection Hs as <-. apply reshapes_refl. exact lexer_only_refl.
    + by eapply lexer_rule_reshapes.
  - eapply reshapes_for_each;
      [exact lexer_only_refl|exact lexer_only_trans| |exact H2].
    intros mode s s' Hs. unfold LexerRuleLoader.visitModeSpec in Hs.
    eapply reshapes_for_each;
      [exact lexer_only_refl|exact lexer_only_trans| |exact Hs].
    intros ctx s0 s0' Hs0. by eapply lexer_rule_reshapes.
Qed.

Lemma parser_pass_reshapes host (P : ModelImpl -> Prop) n tree st st' :
  (forall o o', parser_only o o' -> P o -> P o') ->
  ParserRuleLoader.visitGrammarSpec host n tree st = Return tt st' ->
  reshapes P parser_only n st st'.
Proof.
  intros HP H. unfold ParserRuleLoader.visitGrammarSpec in H.
  eapply reshapes_for_each;
    [exact parser_only_refl|exact parser_only_trans| |exact H].
  intros [ctx|ctx] s s' Hs; simpl in Hs.
  - by eapply parser_rule_reshapes.
  - injection Hs as <-. apply reshapes_refl. exact parser_only_refl.
Qed.

(** X15: the lexer pass and the parser pass work on the one model they
    are given: all other model objects, the cache and the number of
    parses are as before, and in the model the lexer pass leaves the
    parser rules and the imports as they were, the parser pass the
    lexer rules and the imports. *)
Theorem passes_leave_the_rest
        (host : Host) (n : loc) (this : ModelImpl)
        (tree : GrammarSpecContext) (st st' : State)
        (Hm : models st !! n = Some this) :
  (LexerRuleLoader.visitGrammarSpec host n tree st = Return tt st' ->
   _loaded st' = _loaded st /\ parses st' = parses st
   /\ exists this',
        models st' = <[n := this']> (models st)
        /\ _parser_rules this' = _parser_rules this
        /\ _imports this' = _imports this
        /\ _path this' = _path this /\ _in_memory this' = _in_memory this)
  /\ (ParserRuleLoader.visitGrammarSpec host n tree st = Return tt st' ->
      _loaded st' = _loaded st /\ parses st' = parses st
      /\ exists this',
           models st' = <[n := this']> (models st)
           /\ _lexer_rules this' = _lexer_rules this
           /\ _imports this' = _imports this
           /\ _path this' = _path this /\ _in_memory this' = _in_memory this).
Proof.
  split; intros H.
  - apply (lexer_pass_reshapes host any_object) in H; [|by intros].
    destruct (H this Hm I) as (L & C & this' & M & _ & (Hp & Hi & _ & Him) & Hr).
    split; [exact L|]. split; [exact C|]. exists this'. auto.
  - apply (parser_pass_reshapes host any_object) in H; [|by intros].
    destruct (H this Hm I) as (L & C & this' & M & _ & (Hp & Hi & _ & Him) & Hr).
    split; [exact L|]. split; [exact C|]. exists this'. auto.
Qed.

Lemma reshapes_log (P : ModelImpl -> Prop) (same : ModelImpl -> ModelImpl -> Prop)
      n records st :
  (forall o, same o o) -> reshapes P same n st (logged records st).
Proof.
  intros Hrefl this Hm HP. repeat split.
  exists this. split; [|auto]. symmetry. by apply list_insert_id.
Qed.

Lemma in_memory_lexer_only o o' :
  lexer_only o o' -> in_memory_object o -> in_memory_object o'.
Proof.
  intros [(_ & Hmem & _) _] H. unfold in_memory_object in *. congruence.
Qed.

Lemma in_memory_parser_only o o' :
  parser_only o o' -> in_memory_object o -> in_memory_object o'.
Proof.
  intros [(_ & Hmem & _) _] H. unfold in_memory_object in *. congruence.
Qed.

Lemma in_memory_add_import_reshapes host from_file n basedir name position st st' :
  MetaLoader.add_import host from_file n basedir name position st
  = Return tt st' ->
  reshapes in_memory_object lexer_only n st st'.
Proof.
  intros H this Hm HP.
  unfold MetaLoader.add_import, bind in H.
  rewrite (get_model_eq _ _ _ Hm) in H. unfold ModelImpl.is_in_memory in H.
  rewrite HP in H. injection H as <-.
  exact (reshapes_log in_memory_object lexer_only n
           [(ERROR, MsgImportsNotAllowed)] st lexer_only_refl this Hm HP).
Qed.

(** A [tokens] block that lets the pass go on has changed nothing. *)
Lemma visitTokensSpec_inv model defs st st' :
  MetaLoader.visitTokensSpec model defs st = Return tt st' -> st' = st.
Proof.
  unfold MetaLoader.visitTokensSpec.
  destruct defs as [[|token tokens]|]; intros H.
  - by injection H as <-.
  - cbn [for_each] in H. unfold bind, get_model in H.
    destruct (models st !! model); discriminate.
  - discriminate.
Qed.

Lemma in_memory_meta_pass_reshapes host from_file n basedir tree st st' :
  MetaLoader.visitGrammarSpec host from_file n basedir tree st = Return tt st' ->
  reshapes in_memory_object lexer_only n st st'.
Proof.
  intros H. unfold MetaLoader.visitGrammarSpec in H.
  eapply reshapes_for_each;
    [exact lexer_only_refl|exact lexer_only_trans| |exact H].
  clear. intros [options|grammars|defs|] st st' H;
    cbn [MetaLoader.visitPrequelConstruct] in H.
  - eapply reshapes_for_each;
      [exact lexer_only_refl|exact lexer_only_trans| |exact H].
    clear. intros ctx st st' H this Hm HP.
    unfold MetaLoader.visitOption in H.
    destruct (String.eqb _ _).
    + unfold bind at 1 in H. rewrite (get_model_eq _ _ _ Hm) in H.
      by eapply in_memory_add_import_reshapes.
    + injection H as <-.
      by eapply (reshapes_refl in_memory_object lexer_only n lexer_only_refl).
  - eapply reshapes_for_each;
      [exact lexer_only_refl|exact lexer_only_trans| |exact H].
    clear. intros ctx st st' H this Hm HP.
    unfold MetaLoader.visitDelegateGrammar in H.
    unfold bind at 1 in H. rewrite (get_model_eq _ _ _ Hm) in H.
    by eapply in_memory_add_import_reshapes.
  - apply visitTokensSpec_inv in H as ->.
    apply reshapes_refl. exact lexer_only_refl.
  - injection H as <-.
    apply reshapes_refl. exact lexer_only_refl.
Qed.

(** X16: a model read from text is never memoized: when [from_text]
    returns, the cache is as it was, exactly one parse was made, every
    model that was there is untouched, and the model returned is a new
    in-memory model of the path and offset given, without imports. *)
Theorem from_text_leaves_cache
        (host : Host) (fuel : nat) (text : string) (path : PathArg)
        (st st' : State) (model : loc)
        (Hrun : ModelCacheImpl.from_text host fuel text path st
                = Return model st') :
  model = length (models st)
  /\ _loaded st' = _loaded st
  /\ parses st' = S (parses st)
  /\ (forall m o, models st !! m = Some o -> models st' !! m = Some o)
  /\ exists o,
       models st' !! model = Some o
       /\ _in_memory o = true
       /\ _imports o = ∅
       /\ _path o = fst (ModelCacheImpl.unpack path)
       /\ _offset o = snd (ModelCacheImpl.unpack path).
Proof.
  unfold ModelCacheImpl.from_text in Hrun.
  destruct (ModelCacheImpl.unpack path) as [p offset]. cbn [fst snd].
  rewrite _do_load_unfold in Hrun.
  set (o := ModelImpl.__init__ p offset true) in *.
  set (st1 := parsed_into o _ st) in *.
  set (n := length (models st)) in *.
  assert (Hm1 : models st1 !! n = Some o).
  { unfold st1, n. simpl. by rewrite lookup_app_r, Nat.sub_diag by lia. }
  assert (Hre : model = n /\ reshapes in_memory_object settled n st1 st').
  { destruct (0 <? _).
    - injection Hrun as <- <-. split; [reflexivity|].
      apply reshapes_refl. exact settled_refl.
    - apply bind_inv in Hrun as ([] & s1 & Hmeta & Hrun).
      apply bind_inv in Hrun as ([] & s2 & Hlex & Hrun).
      apply bind_inv in Hrun as ([] & s3 & Hpar & Hrun).
      injection Hrun as <- <-. split; [reflexivity|].
      apply in_memory_meta_pass_reshapes in Hmeta.
      apply (lexer_pass_reshapes host in_memory_object) in Hlex;
        [|exact in_memory_lexer_only].
      apply (parser_pass_reshapes host in_memory_object) in Hpar;
        [|exact in_memory_parser_only].
      eapply reshapes_trans; [exact settled_trans| |].
      { eapply reshapes_weaken; [|exact Hmeta]. by intros ? ? []. }
      eapply reshapes_trans; [exact settled_trans| |].
      { eapply reshapes_weaken; [|exact Hlex]. by intros ? ? []. }
      eapply reshapes_weaken; [|exact Hpar]. by intros ? ? []. }
  destruct Hre as [-> Hre].
  destruct (Hre o Hm1 eq_refl) as (L & C & o' & Hmodels & _ & Hp & Hmem & Hoff & Him).
  split; [reflexivity|]. split; [exact L|]. split; [exact C|]. split.
  - intros m x Hx. rewrite Hmodels.
    assert (m < n) by (by eapply lookup_lt_Some).
    rewrite list_lookup_insert_ne by lia.
    unfold st1. simpl. by apply lookup_app_l_Some.
  - exists o'. split.
    + rewrite Hmodels. apply list_lookup_insert_eq. by eapply lookup_lt_Some.
    + rewrite Hmem, Him, Hp, Hoff. repeat split; reflexivity.
Qed.

(** ** Integrity of the object store *)

Lemma lexer_entry_mono st st' n key r :
  (forall a x, rule_objects st !! a = Some x -> rule_objects st' !! a = Some x) ->
  lexer_entry st n key r -> lexer_entry st' n key r.
Proof. intros Hg (obj & Hr & H). exists obj. split; [by apply Hg|exact H]. Qed.

Lemma parser_entry_mono st st' n key r :
  (forall a x, rule_objects st !! a = Some x -> rule_objects st' !! a = Some x) ->
  parser_entry st n key r -> parser_entry st' n key r.
Proof. intros Hg (obj & Hr & H). exists obj. split; [by apply Hg|exact H]. Qed.

Lemma store_ok_change st st' n this this' :
  models st !! n = Some this ->
  models st' = <[n := this']> (models st) ->
  (forall a x, rule_objects st !! a = Some x -> rule_objects st' !! a = Some x) ->
  _loaded st' = _loaded st ->
  _path this' = _path this -> _in_memory this' = _in_memory this ->
  (forall key r, _lexer_rules this' !! key = Some r ->
                 _lexer_rules this !! key = Some r \/ lexer_entry st' n key r) ->
  (forall key r, _parser_rules this' !! key = Some r ->
                 _parser_rules this !! key = Some r \/ parser_entry st' n key r) ->
  (forall i, i ∈ _imports this' -> i ∈ _imports this \/ import_entry st i) ->
  store_ok st -> store_ok st'.
Proof.
  intros Hm Hmodels Hgrow Hloaded Hpath Hmem Hlex Hpar Himp [Hc Hmo].
  pose proof (lookup_lt_Some _ _ _ Hm) as Hlt.
  assert (Hstay : forall i o,
             models st !! i = Some o ->
             exists o', models st' !! i = Some o'
                        /\ _in_memory o' = _in_memory o /\ _path o' = _path o).
  { intros i o Hi. rewrite Hmodels. destruct (decide (i = n)) as [->|Hne].
    - exists this'. rewrite list_lookup_insert_eq by exact Hlt.
      split; [reflexivity|].
      pose proof (eq_trans (eq_sym Hi) Hm) as E. injection E as ->. auto.
    - exists o. rewrite list_lookup_insert_ne by (intros E; apply Hne; by rewrite E). auto. }
  assert (Himp_mono : forall i, import_entry st i -> import_entry st' i).
  { intros i (o & Ho & Hom). destruct (Hstay i o Ho) as (o' & Ho' & Hm' & _).
    exists o'. split; [exact Ho'|congruence]. }
  split.
  - intros key m Hk. rewrite Hloaded in Hk.
    destruct (Hc key m Hk) as (o & Ho & Hom & Hop).
    destruct (Hstay m o Ho) as (o' & Ho' & Hm' & Hp').
    exists o'. split; [exact Ho'|]. split; congruence.
  - intros a x Ha. rewrite Hmodels in Ha.
    destruct (decide (a = n)) as [->|Hne].
    + rewrite list_lookup_insert_eq in Ha by exact Hlt. injection Ha as <-.
      destruct (Hmo n this Hm) as (Hl & Hp & Hi). split; [|split].
      * intros key r Hr. destruct (Hlex key r Hr) as [Hold|Hnew]; [|exact Hnew].
        eapply lexer_entry_mono; [exact Hgrow|]. by apply Hl.
      * intros key r Hr. destruct (Hpar key r Hr) as [Hold|Hnew]; [|exact Hnew].
        eapply parser_entry_mono; [exact Hgrow|]. by apply Hp.
      * intros i Hi'. apply Himp_mono.
        destruct (Himp i Hi') as [Hold|Hnew]; [by apply Hi|exact Hnew].
    + rewrite list_lookup_insert_ne in Ha by (intros E; apply Hne; by rewrite E).
      destruct (Hmo a x Ha) as (Hl & Hp & Hi). split; [|split].
      * intros key r Hr. eapply lexer_entry_mono; [exact Hgrow|]. by apply Hl.
      * intros key r Hr. eapply parser_entry_mono; [exact Hgrow|]. by apply Hp.
      * intros i Hi'. apply Himp_mono. by apply Hi.
Qed.

Lemma store_ok_ext st st' :
  models st' = models st -> rule_objects st' = rule_objects st ->
  _loaded st' = _loaded st -> store_ok st -> store_ok st'.
Proof.
  intros Hm Hr Hl [Hc Hmo]. split.
  - intros key m Hk. rewrite Hl in Hk. rewrite Hm. by apply Hc.
  - intros n this Hn. rewrite Hm in Hn.
    destruct (Hmo n this Hn) as (H1 & H2 & H3).
    unfold model_ok, lexer_entry, parser_entry, import_entry.
    rewrite Hr, Hm. auto.
Qed.

Lemma store_ok_new_model st st' path offset in_memory :
  models st' = models st ++ [ModelImpl.__init__ path offset in_memory] ->
  rule_objects st' = rule_objects st -> _loaded st' = _loaded st ->
  store_ok st -> store_ok st'.
Proof.
  intros Hm Hr Hl [Hc Hmo].
  assert (Himp : forall i, import_entry st i -> import_entry st' i).
  { intros i (o & Ho & Hom). exists o. split; [|exact Hom].
    rewrite Hm. by apply lookup_app_l_Some. }
  split.
  - intros key m Hk. rewrite Hl in Hk.
    destruct (Hc key m Hk) as (o & Ho & H). exists o. split; [|exact H].
    rewrite Hm. by apply lookup_app_l_Some.
  - intros n this Hn. rewrite Hm in Hn.
    apply lookup_app_Some in Hn as [Hn|[_ Hn]].
    + destruct (Hmo n this Hn) as (H1 & H2 & H3).
      unfold model_ok, lexer_entry, parser_entry. rewrite Hr.
      split; [exact H1|]. split; [exact H2|]. intros i Hi. apply Himp. by apply H3.
    + apply list_lookup_singleton_Some in Hn as [_ <-].
      split; [|split].
      * intros key r Hk. simpl in Hk. by rewrite lookup_empty in Hk.
      * intros key r Hk. simpl in Hk. by rewrite lookup_empty in Hk.
      * intros i Hi. simpl in Hi. by apply elem_of_empty in Hi.
Qed.

Lemma store_ok_memoized st st' key m o :
  models st' = models st -> rule_objects st' = rule_objects st ->
  _loaded st' = <[key := m]> (_loaded st) ->
  models st !! m = Some o -> _in_memory o = false -> _path o = key ->
  store_ok st -> store_ok st'.
Proof.
  intros Hm Hr Hl Ho Hmem Hpath [Hc Hmo]. split.
  - intros q x Hq. rewrite Hl in Hq. rewrite Hm.
    apply lookup_insert_Some in Hq as [[<- <-]|[_ Hq]]; [eauto|by apply Hc].
  - intros n this Hn. rewrite Hm in Hn.
    destruct (Hmo n this Hn) as (H1 & H2 & H3).
    unfold model_ok, lexer_entry, parser_entry, import_entry.
    rewrite Hr, Hm. auto.
Qed.

Lemma lexer_rule_store_ok host n ctx st st' :
  LexerRuleLoader.visitLexerRuleSpec host n ctx st = Return tt st' ->
  store_ok st -> store_ok st'.
Proof.
  intros H.
  apply visitLexerRuleSpec_inv in H
    as (this & info & records & content & Hm & _ & _ & ->).
  set (obj := lexer_rule_object n this ctx info content).
  assert (Hnew : lexer_rule_object n this ctx info content = obj)
    by reflexivity.
  eapply (store_ok_change st _ n this); try reflexivity; try exact Hm.
  - simpl. intros a x Ha. by apply lookup_app_l_Some.
  - cbn [_lexer_rules with_lexer_rules rule_objects with_models with_rule logged].
    intros key r Hr.
    assert (Hat : (rule_objects st ++ [ALexerRule obj])
                  !! length (rule_objects st) = Some (ALexerRule obj))
      by (by rewrite lookup_app_r, Nat.sub_diag by lia).
    unfold lexer_rules_with in Hr.
    destruct content eqn:Ev;
      repeat (apply lookup_insert_Some in Hr as [[<- <-]|[_ Hr]]);
      try (by left);
      right; exists obj; (split; [exact Hat|]); (split; [reflexivity|]);
      try (by left).
    right. unfold obj, lexer_rule_object. cbn. auto.
  - intros key r Hr. by left.
  - intros i Hi. by left.
Qed.

Lemma parser_rule_store_ok host n ctx st st' :
  ParserRuleLoader.visitParserRuleSpec host n ctx st = Return tt st' ->
  store_ok st -> store_ok st'.
Proof.
  intros H.
  apply visitParserRuleSpec_inv in H
    as (this & info & records & content & Hm & _ & _ & ->).
  eapply (store_ok_change st _ n this); try reflexivity; try exact Hm.
  - simpl. intros a x Ha. by apply lookup_app_l_Some.
  - intros key r Hr. by left.
  - cbn [_parser_rules with_parser_rules rule_objects with_models with_rule logged].
    intros key r Hr.
    apply lookup_insert_Some in Hr as [[<- <-]|[_ Hr]]; [|by left].
    right. exists (parser_rule_object n this ctx info content). simpl.
    split; [by rewrite lookup_app_r, Nat.sub_diag by lia|]. split; reflexivity.
  - intros i Hi. by left.
Qed.

Lemma lexer_pass_store_ok host n tree st st' :
  LexerRuleLoader.visitGrammarSpec host n tree st = Return tt st' ->
  store_ok st -> store_ok st'.
Proof.
  intros H. unfold LexerRuleLoader.visitGrammarSpec in H.
  apply bind_inv in H as ([] & st1 & H1 & H2). intros Hok.
  eapply (for_each_keeps store_ok); [|exact H2|].
  - intros mode s s' Hs. unfold LexerRuleLoader.visitModeSpec in Hs.
    eapply (for_each_keeps store_ok); [|exact Hs].
    intros ctx s0 s0' Hs0. by eapply lexer_rule_store_ok.
  - eapply (for_each_keeps store_ok); [|exact H1|exact Hok].
    intros [ctx|ctx] s s' Hs; simpl in Hs.
    + by injection Hs as <-.
    + by eapply lexer_rule_store_ok.
Qed.

Lemma parser_pass_store_ok host n tree st st' :
  ParserRuleLoader.visitGrammarSpec host n tree st = Return tt st' ->
  store_ok st -> store_ok st'.
Proof.
  intros H. unfold ParserRuleLoader.visitGrammarSpec in H.
  eapply (for_each_keeps store_ok); [|exact H].
  intros [ctx|ctx] s s' Hs; simpl in Hs.
  - by eapply parser_rule_store_ok.
  - by injection Hs as <-.
Qed.

Section MetaPass.

Variable host : Host.
Variable ff : PathArg -> M loc.
Hypothesis ff_ok :
  forall path st model st',
    ff path st = Return model st' ->
    store_ok st -> store_ok st' /\ import_entry st' model.

Lemma add_import_store_ok n basedir name position st st' :
  MetaLoader.add_import host ff n basedir name position st = Return tt st' ->
  store_ok st -> store_ok st'.
Proof.
  intros H Hok. unfold MetaLoader.add_import in H.
  apply bind_inv in H as (this & s & Hget & H).
  apply get_model_inv in Hget as [-> Hm].
  destruct (ModelImpl.is_in_memory this).
  { injection H as <-. by eapply store_ok_ext; [..|exact Hok]. }
  destruct basedir as [dir|]; [|discriminate].
  apply bind_inv in H as (imported & s1 & Hff & H).
  destruct (ff_ok _ _ _ _ Hff Hok) as [Hok1 Himp].
  unfold ModelImpl.add_import in H.
  apply bind_inv in H as (this1 & s & Hget & H).
  apply get_model_inv in Hget as [-> Hm1].
  destruct (ModelImpl.is_in_memory this1); [discriminate|].
  apply bind_inv in H as (other & s & Hget & H).
  apply get_model_inv in Hget as [-> Hother].
  destruct (ModelImpl.is_in_memory other); [discriminate|].
  injection H as <-.
  eapply (store_ok_change s1 _ n this1); try reflexivity;
    try exact Hm1; try exact Hok1.
  - auto.
  - intros key r Hr. by left.
  - intros key r Hr. by left.
  - cbn [_imports]. intros i Hi.
    apply elem_of_union in Hi as [Hi|Hi]; [by left|].
    apply elem_of_singleton in Hi as ->. by right.
Qed.

Lemma meta_pass_store_ok n basedir tree st st' :
  MetaLoader.visitGrammarSpec host ff n basedir tree st = Return tt st' ->
  store_ok st -> store_ok st'.
Proof.
  intros H. unfold MetaLoader.visitGrammarSpec in H.
  eapply (for_each_keeps store_ok); [|exact H].
  clear st st' H. intros [options|grammars|defs|] st st' H;
    cbn [MetaLoader.visitPrequelConstruct] in H.
  - eapply (for_each_keeps store_ok); [|exact H].
    clear st st' H. intros ctx st st' H. unfold MetaLoader.visitOption in H.
    destruct (String.eqb _ _).
    + apply bind_inv in H as (this & s & Hget & H).
      apply get_model_inv in Hget as [-> Hm].
      by eapply add_import_store_ok.
    + by injection H as <-.
  - eapply (for_each_keeps store_ok); [|exact H].
    clear st st' H. intros ctx st st' H. unfold MetaLoader.visitDelegateGrammar in H.
    apply bind_inv in H as (this & s & Hget & H).
    apply get_model_inv in Hget as [-> Hm].
    by eapply add_import_store_ok.
  - by apply visitTokensSpec_inv in H as ->.
  - by injection H as <-.
Qed.

Lemma _do_load_store_ok text path offset in_memory st model st' :
  ModelCacheImpl._do_load host ff text path offset in_memory st
  = Return model st' ->
  store_ok st -> store_ok st'.
Proof.
  intros H Hok. rewrite _do_load_unfold in H.
  set (st1 := parsed_into _ _ st) in H.
  assert (Hok1 : store_ok st1)
    by (by eapply store_ok_new_model; [..|exact Hok]).
  clearbody st1.
  destruct (0 <? _); [by injection H as <- <-|].
  apply bind_inv in H as ([] & s1 & Hmeta & H).
  apply bind_inv in H as ([] & s2 & Hlex & H).
  apply bind_inv in H as ([] & s3 & Hpar & H).
  injection H as <- <-.
  eapply parser_pass_store_ok; [exact Hpar|].
  eapply lexer_pass_store_ok; [exact Hlex|].
  by eapply meta_pass_store_ok.
Qed.

End MetaPass.

Lemma from_file_store_ok host fuel path st model st' :
  ModelCacheImpl.from_file host fuel path st = Return model st' ->
  store_ok st -> store_ok st'.
Proof.
  revert path st model st'.
  induction fuel as [|fuel IH]; intros path st model st' H Hok; [discriminate|].
  assert (Hff : forall path st model st',
             ModelCacheImpl.from_file host fuel path st = Return model st' ->
             store_ok st -> store_ok st' /\ import_entry st' model).
  { intros q s m s' Hq Hs. pose proof (IH _ _ _ _ Hq Hs) as Hs'.
    split; [exact Hs'|].
    apply from_file_loads in Hq as [_ Hl].
    destruct (proj1 Hs' _ _ Hl) as (o & Ho & Hmem & _). by exists o. }
  simpl in H. destruct (ModelCacheImpl.unpack path) as [p offset].
  set (key := abspath_normpath host p) in *.
  unfold bind at 1 in H. unfold ModelCacheImpl.get_loaded at 1 in H.
  destruct (_loaded st !! key) as [cached|] eqn:Ec.
  - by injection H as <- <-.
  - destruct (disk host key) as [|content|]; [| |discriminate].
    + unfold bind in H. simpl in H. injection H as <- <-.
      eapply (store_ok_memoized
                (parsed_into (ModelImpl.__init__ key offset false)
                   [(ERROR, MsgFileNotFound key)] st) _ key);
        try reflexivity.
      * simpl. by rewrite lookup_app_r, Nat.sub_diag by lia.
      * reflexivity.
      * reflexivity.
      * by eapply store_ok_new_model; [..|exact Hok].
    + apply bind_inv in H as (m & s1 & Hload & H).
      unfold bind in H. simpl in H. injection H as <- <-.
      pose proof (_do_load_store_ok host _ Hff _ _ _ _ _ _ _ Hload Hok) as Hok1.
      apply _do_load_step in Hload as (-> & _ & o & Ho & Hk);
        [|apply from_file_loads].
      destruct Hk as (Hmem & Hpath & _).
      by eapply (store_ok_memoized s1 _ key _ o); try reflexivity.
Qed.

Lemma from_text_store_ok host fuel text path st model st' :
  ModelCacheImpl.from_text host fuel text path st = Return model st' ->
  store_ok st -> store_ok st'.
Proof.
  unfold ModelCacheImpl.from_text.
  destruct (ModelCacheImpl.unpack path) as [p offset]. intros H.
  eapply _do_load_store_ok; [|exact H].
  intros q s m s' Hq Hs. pose proof (from_file_store_ok _ _ _ _ _ _ Hq Hs) as Hs'.
  split; [exact Hs'|].
  apply from_file_loads in Hq as [_ Hl].
  destruct (proj1 Hs' _ _ Hl) as (o & Ho & Hmem & _). by exists o.
Qed.

Lemma reachable_store_ok host st : reachable host st -> store_ok st.
Proof.
  unfold reachable. intros H.
  assert (Hgen : forall st0 st, later host st0 st -> store_ok st0 -> store_ok st).
  { clear. induction 1 as [st|st st1 st2 fuel path model _ IH H
                             |st st1 st2 fuel text path model _ IH H];
      intros Hok; [exact Hok| |].
    - eapply from_file_store_ok; [exact H|by apply IH].
    - eapply from_text_store_ok; [exact H|by apply IH]. }
  apply (Hgen _ _ H). split.
  - intros key m Hk. simpl in Hk. by rewrite lookup_empty in Hk.
  - intros n this Hn. simpl in Hn. by rewrite lookup_nil in Hn.
Qed.

(** X17: in a cache in use, whatever [from_file] returns, from the
    dictionary of loaded models or from a load, is a model of a file
    whose path is the normalized absolute path of the call. *)
Theorem from_file_returns_model_of_path
        (host : Host) (st st' : State) (fuel : nat) (path : PathArg)
        (model : loc)
        (Hreach : reachable host st)
        (Hrun : ModelCacheImpl.from_file host fuel path st
                = Return model st') :
  exists o,
    models st' !! model = Some o
    /\ ModelImpl.get_path o
       = abspath_normpath host (fst (ModelCacheImpl.unpack path))
    /\ ModelImpl.is_in_memory o = false.
Proof.
  pose proof (from_file_store_ok _ _ _ _ _ _ Hrun
                (reachable_store_ok _ _ Hreach)) as [Hc _].
  apply from_file_loads in Hrun as [_ Hl].
  destruct (Hc _ _ Hl) as (o & Ho & Hmem & Hpath). exists o. auto.
Qed.

Lemma from_file_returns_model_of_path_witness :
  exists model st' o,
    ModelCacheImpl.from_file Demo.host 5 (inl "G.g4"%string) Demo.fresh
    = Return model st'
    /\ models st' !! model = Some o
    /\ ModelImpl.get_path o = "/g/G.g4"%string.
Proof.
  destruct (ModelCacheImpl.from_file Demo.host 5 (inl "G.g4"%string)
              Demo.fresh) as [model st'| |] eqn:Hrun;
    [|vm_compute in Hrun; discriminate..].
  destruct (from_file_returns_model_of_path Demo.host Demo.fresh st' 5
              (inl "G.g4"%string) model (later_now _ _) Hrun)
    as (o & Ho & Hp & _).
  exists model, st', o. split; [reflexivity|]. split; [exact Ho|].
  rewrite Hp. vm_compute. reflexivity.
Defined.

(** X18: in a cache in use, what [lookup_local] finds in a model is a
    rule object of that very model: a lexer rule registered under its
    name or under the literal that is its content, or a parser rule
    of the name looked up. *)
Theorem lookup_local_finds_own_rule
        (host : Host) (st : State) (n : loc) (this : ModelImpl)
        (name : string) (r : loc)
        (Hreach : reachable host st)
        (Hm : models st !! n = Some this)
        (Hfound : ModelImpl.lookup_local this name = Some r) :
  lexer_entry st n name r \/ parser_entry st n name r.
Proof.
  destruct (reachable_store_ok _ _ Hreach) as [_ Hmo].
  destruct (Hmo n this Hm) as (Hl & Hp & _).
  unfold ModelImpl.lookup_local in Hfound.
  destruct (_lexer_rules this !! name) as [x|] eqn:El.
  - injection Hfound as <-. left. by apply Hl.
  - destruct (_parser_rules this !! name) as [x|] eqn:Ep; [|discriminate].
    injection Hfound as <-. right. by apply Hp.
Qed.

Lemma lookup_local_finds_own_rule_witness :
  exists st this r,
    reachable Demo.host st
    /\ models st !! 0 = Some this
    /\ ModelImpl.lookup_local this "a" = Some r
    /\ (lexer_entry st 0 "a" r \/ parser_entry st 0 "a" r).
Proof.
  destruct (ModelCacheImpl.from_file Demo.host 5 (inl "G.g4"%string)
              Demo.fresh) as [model st| |] eqn:Hrun;
    [|vm_compute in Hrun; discriminate..].
  assert (Hreach : reachable Demo.host st)
    by exact (later_from_file _ _ _ _ _ _ _ (later_now _ _) Hrun).
  vm_compute in Hrun. injection Hrun as <- <-.
  eexists _, _, _. split; [exact Hreach|].
  split; [vm_compute; reflexivity|].
  split; [vm_compute; reflexivity|].
  eapply lookup_local_finds_own_rule;
    [exact Hreach|vm_compute; reflexivity|vm_compute; reflexivity].
Defined.

(** X19: in a cache in use, the imports of a model are models of files
    that are there. *)
Theorem imports_are_models_of_files
        (host : Host) (st : State) (n : loc) (this : ModelImpl) (i : loc)
        (Hreach : reachable host st)
        (Hm : models st !! n = Some this)
        (Hi : i ∈ ModelImpl.get_imports this) :
  exists o, models st !! i = Some o /\ ModelImpl.is_in_memory o = false.
Proof.
  destruct (reachable_store_ok _ _ Hreach) as [_ Hmo].
  destruct (Hmo n this Hm) as (_ & _ & Himp). by apply Himp.
Qed.

Lemma imports_are_models_of_files_witness :
  exists st this o,
    reachable Demo.host st
    /\ models st !! 0 = Some this
    /\ 1 ∈ ModelImpl.get_imports this
    /\ models st !! 1 = Some o /\ ModelImpl.is_in_memory o = false.
Proof.
  destruct (ModelCacheImpl.from_file Demo.host 5 (inl "G.g4"%string)
              Demo.fresh) as [model st| |] eqn:Hrun;
    [|vm_compute in Hrun; discriminate..].
  assert (Hreach : reachable Demo.host st)
    by exact (later_from_file _ _ _ _ _ _ _ (later_now _ _) Hrun).
  vm_compute in Hrun. injection Hrun as <- <-.
  assert (Hin : 1 ∈ ({[1]} : gset loc)) by (by apply elem_of_singleton).
  destruct (imports_are_models_of_files Demo.host _ 0
              (with_imports {[1]}
                 (with_parser_rules {[ "a"%string := 1 ]}
                    (ModelImpl.__init__ "/g/G.g4" 0 false))) 1 Hreach)
    as (o & Ho & Hmem); [vm_compute; reflexivity|exact Hin|].
  eexists _, _, o. split; [exact Hreach|].
  split; [vm_compute; reflexivity|]. split; [exact Hin|].
  split; [exact Ho|exact Hmem].
Defined.

Lemma passes_leave_the_rest_witness :
  exists st',
    LexerRuleLoader.visitGrammarSpec Demo.host 1 Demo.lexer_tree
      Demo.two_models = Return tt st'
    /\ _loaded st' = _loaded Demo.two_models /\ parses st' = 1.
Proof.
  destruct (LexerRuleLoader.visitGrammarSpec Demo.host 1 Demo.lexer_tree
              Demo.two_models) as [[] st'| |] eqn:Hrun;
    [|vm_compute in Hrun; discriminate..].
  exists st'. split; [reflexivity|].
  destruct (proj1 (passes_leave_the_rest Demo.host 1
                     (ModelImpl.__init__ "/g/G.g4" 0 false) Demo.lexer_tree
                     Demo.two_models st' eq_refl) Hrun) as (L & C & _).
  split; [exact L|exact C].
Defined.

Lemma from_text_leaves_cache_witness :
  exists model st',
    ModelCacheImpl.from_text Demo.host 5 Demo.parser_text
      (inr ("conf.py"%string, 10%Z)) Demo.two_models = Return model st'
    /\ model = 2
    /\ _loaded st' = _loaded Demo.two_models /\ parses st' = 2.
Proof.
  destruct (ModelCacheImpl.from_text Demo.host 5 Demo.parser_text
              (inr ("conf.py"%string, 10%Z)) Demo.two_models)
    as [model st'| |] eqn:Hrun; [|vm_compute in Hrun; discriminate..].
  exists model, st'. split; [reflexivity|].
  destruct (from_text_leaves_cache Demo.host 5 Demo.parser_text
              (inr ("conf.py"%string, 10%Z)) Demo.two_models st' model Hrun)
    as (Hn & L & C & _).
  split; [exact Hn|]. split; [exact L|exact C].
Defined.
